(** * SusScanner: the strict download-row builder of [src/utils/csv.ts]

    A shallow embedding of [buildDownloadCsvRowsStrict] and of its local
    helpers ([norm], [num], [pick], [pct], [rat], [sumNN], [getCSV],
    [parseFromReasons], the alias bundles [A], the callback of
    [finishedRows.map] and the final [sort]), followed by the properties
    of the reconciliation engine.

    Conventions of the embedding.
    - A JavaScript number is [NaN], an infinity, or a finite double, which
      is represented by the rational that it denotes.  The arithmetic of
      the source ([*], [/], [+], [-] and [parseFloat]) is the arithmetic of
      binary64: the exact result is rounded to the nearest double, an exact
      tie going to the even mantissa, and a result beyond the range is an
      infinity ([fl]).  [Math.round] and the comparisons are exact on
      doubles.  [-0] is identified with [0]: the source never divides by a
      computed zero, and both print as [0].
    - A JavaScript string is a [string] of ASCII characters: a character
      below 128 is the code unit of that value, and a character from 128
      on stands for nothing in JavaScript.  On ASCII texts [toLowerCase]
      and the classes [\s], [\d], [\w] and [\b] are the ones of the model.
      The statements that depend on which characters are letters say that
      their texts are ASCII.
    - Objects are lists of own properties in enumeration order; inherited
      properties are not represented.  No path of [pick] and no alias of
      [A] names one.  The one inherited property that a lower-cased user
      name can reach in a plain [csvByUser] and that passes the guard of
      [getCSV] is [__proto__]; the statements about the rows of a call that
      depend on it exclude that user name.
    - A side-table row is shared and written to by [getCSV]; the row is
      threaded through the builder, and [csvByUser] through the call.
    - Builtins of the host that the repository does not define and the
      model cannot compute ([Number::toString] on an arbitrary number, and
      the collation behind [localeCompare]) are parameters. *)

From Stdlib Require Import String Ascii List Bool Arith ZArith QArith Qcanon Qround.
From Stdlib Require Import Qabs Qpower Lia Lqa Permutation Sorted Morphisms.
Import ListNotations.

Set Warnings "-register-all".
Local Open Scope string_scope.
Local Open Scope list_scope.

(* ================================================================== *)
(** ** Characters and strings *)

Definition code (c : ascii) : nat := nat_of_ascii c.

Definition is_digit (c : ascii) : bool := (48 <=? code c)%nat && (code c <=? 57)%nat.
Definition is_upper (c : ascii) : bool := (65 <=? code c)%nat && (code c <=? 90)%nat.
Definition is_lower (c : ascii) : bool := (97 <=? code c)%nat && (code c <=? 122)%nat.

(** [\w] *)
Definition is_word (c : ascii) : bool :=
  is_digit c || is_upper c || is_lower c || (code c =? 95)%nat.

(** [\s] (tab, line feed, vertical tab, form feed, carriage return, space) *)
Definition is_space (c : ascii) : bool :=
  ((9 <=? code c)%nat && (code c <=? 13)%nat) || (code c =? 32)%nat.

Definition lower_char (c : ascii) : ascii :=
  if is_upper c then ascii_of_nat (code c + 32) else c.

(** [String.prototype.toLowerCase] *)
Fixpoint toLowerCase (s : string) : string :=
  match s with
  | EmptyString => EmptyString
  | String c s' => String (lower_char c) (toLowerCase s')
  end.

(** [s.replace(/[^a-z0-9]+/g, empty)]: every run of other characters is dropped *)
Fixpoint strip_non_alnum (s : string) : string :=
  match s with
  | EmptyString => EmptyString
  | String c s' =>
      if is_lower c || is_digit c then String c (strip_non_alnum s')
      else strip_non_alnum s'
  end.

(** [norm] (line 161), on a string argument. *)
Definition norm (s : string) : string := strip_non_alnum (toLowerCase s).

(** [p.split(sep)] for a one-character separator. *)
Fixpoint split_on (sep : ascii) (cur : string) (s : string) : list string :=
  match s with
  | EmptyString => [cur]
  | String c s' =>
      if Ascii.eqb c sep then cur :: split_on sep EmptyString s'
      else split_on sep (cur ++ String c EmptyString) s'
  end.

Definition split_dot (p : string) : list string := split_on "."%char EmptyString p.

(** [parts.join(sep)] on strings. *)
Fixpoint join (sep : string) (parts : list string) : string :=
  match parts with
  | [] => EmptyString
  | [p] => p
  | p :: ps => p ++ sep ++ join sep ps
  end.

(* ================================================================== *)
(** ** Regular expressions

    The fragment used by the source: character sets, greedy repetition of
    a character set, greedy optional groups, concatenation, [\b] and one
    capture group.  Matching is by backtracking with a continuation, in
    the priority order of ECMAScript. *)

Inductive regex : Type :=
| REps
| RSet (p : ascii -> bool)
| RMany (least : nat) (p : ascii -> bool)
| ROpt (r : regex)
| RSeq (r1 r2 : regex)
| RWordB
| RGroup (r : regex).

Definition word_before (prev : option ascii) : bool :=
  match prev with Some c => is_word c | None => false end.

Definition word_at (s : string) : bool :=
  match s with String c _ => is_word c | EmptyString => false end.

(** The text between two positions of one string. *)
Definition consumed (s s' : string) : string :=
  substring 0 (String.length s - String.length s') s.

Section Matcher.
Context {R : Type}.

Fixpoint many (p : ascii -> bool) (least : nat) (prev : option ascii) (s : string)
         (k : option ascii -> string -> option R) : option R :=
  match s with
  | String c s' =>
      if p c then
        match many p (pred least) (Some c) s' k with
        | Some x => Some x
        | None => if (least =? 0)%nat then k prev s else None
        end
      else if (least =? 0)%nat then k prev s else None
  | EmptyString => if (least =? 0)%nat then k prev s else None
  end.

Fixpoint rmatch (r : regex) (prev : option ascii) (s : string) (cap : option string)
         (k : option ascii -> string -> option string -> option R) : option R :=
  match r with
  | REps => k prev s cap
  | RSet p =>
      match s with
      | String c s' => if p c then k (Some c) s' cap else None
      | EmptyString => None
      end
  | RMany least p => many p least prev s (fun pr s' => k pr s' cap)
  | ROpt r1 =>
      match rmatch r1 prev s cap k with
      | Some x => Some x
      | None => k prev s cap
      end
  | RSeq r1 r2 =>
      rmatch r1 prev s cap (fun pr s' cap' => rmatch r2 pr s' cap' k)
  | RWordB =>
      if xorb (word_before prev) (word_at s) then k prev s cap else None
  | RGroup r1 =>
      rmatch r1 prev s cap (fun pr s' _ => k pr s' (Some (consumed s s')))
  end.
End Matcher.

(** The result of a successful [String.prototype.match] without the [g]
    flag: the matched text [m[0]] and the capture [m[1]]. *)
Definition match_result : Type := (string * option string)%type.

Definition match_here (r : regex) (prev : option ascii) (s : string) : option match_result :=
  rmatch r prev s None (fun _ s' cap => Some (consumed s s', cap)).

Fixpoint search (r : regex) (prev : option ascii) (s : string) : option match_result :=
  match match_here r prev s with
  | Some m => Some m
  | None =>
      match s with
      | String c s' => search r (Some c) s'
      | EmptyString => None
      end
  end.

Definition js_match (s : string) (r : regex) : option match_result := search r None s.

(** Pattern constructors. *)
Definition ch (c : ascii) : regex := RSet (Ascii.eqb c).
(** a letter under the [i] flag *)
Definition ci (c : ascii) : regex := RSet (fun d => Ascii.eqb (lower_char d) (lower_char c)).

Fixpoint lit (s : string) : regex :=
  match s with
  | EmptyString => REps
  | String c EmptyString => ci c
  | String c s' => RSeq (ci c) (lit s')
  end.

Fixpoint seq (rs : list regex) : regex :=
  match rs with
  | [] => REps
  | [r] => r
  | r :: rs' => RSeq r (seq rs')
  end.

Definition digits1 : regex := RMany 1 is_digit.            (* \d+ *)
Definition spaces0 : regex := RMany 0 is_space.            (* \s* *)
Definition spaces1 : regex := RMany 1 is_space.            (* \s+ *)
Definition is_digit_or_dot (c : ascii) : bool := is_digit c || Ascii.eqb c ".".
Definition decimal_group : regex := RGroup (RMany 1 is_digit_or_dot).   (* ([0-9.]+) *)
Definition colon_or_space (c : ascii) : bool := Ascii.eqb c ":" || is_space c.
Definition dash_or_space (c : ascii) : bool := Ascii.eqb c "-" || is_space c.

(** [/-?\d+(\.\d+)?/]  (lines 107 and 167).  Only [m[0]] is read. *)
Definition numeral_re : regex :=
  seq [ROpt (ch "-"); digits1; ROpt (RSeq (ch ".") digits1)].

(* ================================================================== *)
(** ** Numbers and values *)

Inductive number : Type :=
| NaN
| PosInf
| NegInf
| Fin (q : Qc).

Definition qz (z : Z) : Qc := Q2Qc (inject_Z z).

(** *** Doubles

    A finite double is [m * 2^t] for integers [|m| < 2^53] and
    [t >= -1074], below [2^1024] in magnitude.  [fl x] is the double
    nearest to the rational [x]. *)

Definition pow2 (k : Z) : Q := (2 ^ k)%Q.

(** The binary exponent of a positive [x]: [2^e <= x < 2^(e+1)]. *)
Definition ilog2 (x : Q) : Z :=
  let g := (Z.log2 (Qnum x) - Z.log2 (Zpos (Qden x)))%Z in
  if Qle_bool (pow2 g) x then g else (g - 1)%Z.

(** The nearest integer, an exact half going to the even one. *)
Definition rne (x : Q) : Z :=
  let f := Qfloor x in
  match Qcompare (x - inject_Z f) (1 # 2) with
  | Lt => f
  | Gt => (f + 1)%Z
  | Eq => if Z.even f then f else (f + 1)%Z
  end.

(** The exponent of the last place of the doubles around a positive [a]:
    53 significant bits, and [2^-1074] for the subnormal ones. *)
Definition ulp_exp (a : Q) : Z := Z.max (ilog2 a - 52) (-1074).

Definition round_mag (a : Q) : Q :=
  inject_Z (rne (a / pow2 (ulp_exp a))) * pow2 (ulp_exp a).

(** The value of the nearest double, the range left aside. *)
Definition fl_val (x : Q) : Q :=
  match Qcompare x 0 with
  | Eq => 0
  | Gt => round_mag x
  | Lt => - round_mag (- x)
  end.

Definition fl (x : Q) : number :=
  let r := fl_val x in
  if Qle_bool (pow2 1024) r then PosInf
  else if Qle_bool r (- pow2 1024) then NegInf
  else Fin (Q2Qc r).

(** The sign of a number; [NaN] has none. *)
Definition nsign (n : number) : Z :=
  match n with
  | NaN => 0%Z
  | PosInf => 1%Z
  | NegInf => (-1)%Z
  | Fin q => match Qcompare q 0 with Lt => (-1)%Z | Eq => 0%Z | Gt => 1%Z end
  end.

Definition inf_of (s : Z) : number :=
  match s with
  | Zpos _ => PosInf
  | Zneg _ => NegInf
  | Z0 => NaN
  end.

(** [a * b] *)
Definition fmul (a b : number) : number :=
  match a, b with
  | NaN, _ | _, NaN => NaN
  | Fin x, Fin y => fl (x * y)
  | _, _ => inf_of (nsign a * nsign b)
  end.

(** [a / b] *)
Definition fdiv (a b : number) : number :=
  match a, b with
  | NaN, _ | _, NaN => NaN
  | Fin x, Fin y => if Qeq_bool y 0 then inf_of (nsign a) else fl (x / y)
  | Fin _, _ => Fin (qz 0)
  | _, Fin y => inf_of (nsign a * (if Qeq_bool y 0 then 1 else nsign b))
  | _, _ => NaN
  end.

(** [a + b] *)
Definition fadd (a b : number) : number :=
  match a, b with
  | NaN, _ | _, NaN => NaN
  | Fin x, Fin y => fl (x + y)
  | PosInf, NegInf | NegInf, PosInf => NaN
  | PosInf, _ | _, PosInf => PosInf
  | NegInf, _ | _, NegInf => NegInf
  end.

Definition fneg (a : number) : number :=
  match a with
  | NaN => NaN
  | PosInf => NegInf
  | NegInf => PosInf
  | Fin x => Fin (- x)%Qc
  end.

(** [a - b] *)
Definition fsub (a b : number) : number := fadd a (fneg b).

(** [a <= b] *)
Definition nleb (a b : number) : bool :=
  match a, b with
  | NaN, _ | _, NaN => false
  | NegInf, _ => true
  | _, PosInf => true
  | Fin x, Fin y => Qle_bool x y
  | _, _ => false
  end.

Definition digit_val (c : ascii) : Z := Z.of_nat (code c) - 48.

Fixpoint decimal (acc : Z) (s : string) : Z :=
  match s with
  | EmptyString => acc
  | String c s' => decimal (10 * acc + digit_val c) s'
  end.

(** The longest prefix of decimal digits, and what follows it. *)
Fixpoint span_digits (s : string) : string * string :=
  match s with
  | String c s' =>
      if is_digit c then let (d, r) := span_digits s' in (String c d, r)
      else (EmptyString, s)
  | EmptyString => (EmptyString, EmptyString)
  end.

(** [parseFloat] on the texts it is applied to in this file, which all
    match [numeral_re]: an optional minus sign, digits, and an optional
    fraction.  (Leading white space, a plus sign, exponents and a leading
    dot never occur in such a text.)  Without a digit the result is NaN.
    The result is the double nearest to the decimal that is written, and
    an infinity when the decimal is beyond the range. *)
Definition parseFloat (s : string) : number :=
  let '(neg, body) :=
    match s with
    | String c t => if Ascii.eqb c "-" then (true, t) else (false, s)
    | EmptyString => (false, s)
    end in
  let '(ip, r1) := span_digits body in
  match ip with
  | EmptyString => NaN
  | _ =>
      let fp :=
        match r1 with
        | String c t => if Ascii.eqb c "." then fst (span_digits t) else EmptyString
        | EmptyString => EmptyString
        end in
      let scale := Z.to_pos (10 ^ Z.of_nat (String.length fp)) in
      let mag := Qmake (decimal 0 (ip ++ fp)) scale in
      fl (if neg then Qopp mag else mag)
  end.

Inductive value : Type :=
| VUndefined
| VNull
| VBool (b : bool)
| VNum (n : number)
| VStr (s : string)
| VArr (items : list value)
| VObj (fields : list (string * value)).

(** [v == null] *)
Definition nullish (v : value) : bool :=
  match v with
  | VUndefined | VNull => true
  | _ => false
  end.

(** [a ?? b] *)
Definition coalesce (a b : value) : value := if nullish a then b else a.

Definition is_zero (q : Qc) : bool := Qeq_bool q 0.

(** ToBoolean *)
Definition truthy (v : value) : bool :=
  match v with
  | VUndefined | VNull => false
  | VBool b => b
  | VNum NaN => false
  | VNum (Fin q) => negb (is_zero q)
  | VNum _ => true
  | VStr s => negb (String.eqb s EmptyString)
  | VArr _ | VObj _ => true
  end.

Fixpoint assoc {B : Type} (k : string) (l : list (string * B)) : option B :=
  match l with
  | [] => None
  | (k', v) :: l' => if String.eqb k k' then Some v else assoc k l'
  end.

(** [o[k]] for a non-nullish [o]: the own property of an object.  On
    arrays and primitives only indices, [length] and inherited names would
    answer, and the keys read in this file are none of these. *)
Definition get (o : value) (k : string) : value :=
  match o with
  | VObj fields => match assoc k fields with Some v => v | None => VUndefined end
  | _ => VUndefined
  end.

(* ================================================================== *)
(** ** The helpers of [buildDownloadCsvRowsStrict] *)

(** [num] (lines 163-173); [None] is [null].  What [num] returns has
    passed [Number.isFinite], hence the type of the result. *)
Definition num (v : value) : option Qc :=
  match v with
  | VNum (Fin q) => Some q
  | VStr s =>
      match js_match s numeral_re with
      | None => None
      | Some (m0, _) =>
          match parseFloat m0 with
          | Fin q => Some q
          | _ => None
          end
      end
  | _ => None
  end.

(** [p.split(".").reduce((o, k) => (o == null ? undefined : o[k]), obj)] *)
Definition descend (obj : value) (p : string) : value :=
  fold_left (fun o k => if nullish o then VUndefined else get o k) (split_dot p) obj.

(** [pick] (lines 174-182) *)
Fixpoint pick (obj : value) (paths : list string) : value :=
  match paths with
  | [] => VUndefined
  | p :: ps =>
      let v := descend obj p in
      if nullish v then pick obj ps else v
  end.

Definition half : Qc := Q2Qc (1 # 2).

(** The nearest integer, an exact half going up: [floor(x + 1/2)].  The
    result is a double whenever [x] is one. *)
Definition round_half_up (x : Qc) : Qc := qz (Qfloor (x + half)).

(** [Math.round] *)
Definition Math_round (x : number) : number :=
  match x with
  | Fin q => Fin (round_half_up q)
  | _ => x
  end.

(** [pct] (lines 183-188) *)
Definition pct (v : value) : option number :=
  match num v with
  | None => None
  | Some n =>
      let p := if Qle_bool n 1 then fmul (Fin n) (Fin (qz 100)) else Fin n in
      Some (fdiv (Math_round (fmul p (Fin (qz 10)))) (Fin (qz 10)))
  end.

(** [rat] (lines 189-193) *)
Definition rat (v : value) : option number :=
  match num v with
  | None => None
  | Some n => Some (fdiv (Math_round (fmul (Fin n) (Fin (qz 1000)))) (Fin (qz 1000)))
  end.

(** [sumNN] (lines 194-195) *)
Definition sumNN (a b : option number) : option number :=
  match a, b with
  | Some x, Some y => Some (fadd x y)
  | _, _ => None
  end.

(** A finite number as a [number | null]. *)
Definition known (a : option Qc) : option number := option_map Fin a.

(* ================================================================== *)
(** ** Side-table rows and [getCSV]

    A side-table row is a plain extensible object: its own properties in
    enumeration order, each with its [enumerable] attribute.  The rows are
    shared and [getCSV] writes to them, so it returns the row it leaves
    behind.  [None] stands for an absent row and for any entry that the
    guard of line 199 rejects. *)

Record prop : Type := mkProp { pkey : string; pval : value; penum : bool }.

Definition jsobject : Type := list prop.

Definition own (o : jsobject) (k : string) : option prop :=
  find (fun p => String.eqb k (pkey p)) o.

(** [o.k] on a row *)
Definition get_own (o : jsobject) (k : string) : value :=
  match own o k with
  | Some p => pval p
  | None => VUndefined
  end.

(** [Object.entries(o)] *)
Definition entries (o : jsobject) : list (string * value) :=
  map (fun p => (pkey p, pval p)) (filter penum o).

(** [idx[k] = v] on a plain object *)
Fixpoint assign (k : string) (v : value) (fields : list (string * value))
  : list (string * value) :=
  match fields with
  | [] => [(k, v)]
  | (k', v') :: fs =>
      if String.eqb k k' then (k, v) :: fs else (k', v') :: assign k v fs
  end.

(** [Object.defineProperty(o, k, { value: v, enumerable: false })]: a new
    property is created hidden; an existing one keeps its place, takes the
    value and loses its [enumerable] attribute. *)
Fixpoint defineHidden (k : string) (v : value) (o : jsobject) : jsobject :=
  match o with
  | [] => [mkProp k v false]
  | p :: o' =>
      if String.eqb k (pkey p) then mkProp k v false :: o'
      else p :: defineHidden k v o'
  end.

(** Lines 201-202: the index of normalised keys. *)
Definition normIndex (o : jsobject) : list (string * value) :=
  fold_left (fun idx e => assign (norm (fst e)) (snd e) idx) (entries o) [].

(** Lines 206-210 *)
Fixpoint first_alias (idx : value) (aliases : list string) : value :=
  match aliases with
  | [] => VUndefined
  | a :: rest =>
      let v := get idx (norm a) in
      if nullish v then first_alias idx rest else v
  end.

(** Lines 200-204 *)
Definition with_index (o : jsobject) : jsobject :=
  if truthy (get_own o "__normIndex") then o
  else defineHidden "__normIndex" (VObj (normIndex o)) o.

(** [getCSV] (lines 198-211): the value found and the row afterwards. *)
Definition getCSV (csv : option jsobject) (aliases : list string)
  : value * option jsobject :=
  match csv with
  | None => (VUndefined, None)
  | Some o =>
      let o' := with_index o in
      (first_alias (get_own o' "__normIndex") aliases, Some o')
  end.

(* ================================================================== *)
(** ** [parseFromReasons] (lines 214-246) *)

Definition non_word (c : ascii) : bool := negb (is_word c).

Definition re_games : regex :=
  seq [RWordB; lit "over"; spaces1; RGroup digits1; spaces1;
       ROpt (RSeq (lit "rated") spaces1); lit "games"; RWordB].

Definition re_elo_1 : regex :=
  seq [RWordB; lit "elo"; spaces0; lit "ratio"; RMany 0 colon_or_space; decimal_group].
Definition re_elo_2 : regex :=
  seq [RWordB; lit "elo"; spaces0; lit "ratio"; RMany 1 non_word; decimal_group].
Definition re_elo_3 : regex :=
  seq [RWordB; lit "EloRatio"; spaces0; decimal_group].

Definition re_tElo_1 : regex :=
  seq [RWordB; lit "tourn"; ROpt (lit "ament"); spaces1; lit "elo"; spaces0;
       lit "ratio"; RMany 0 colon_or_space; decimal_group].
Definition re_tElo_2 : regex :=
  seq [RWordB; lit "Tourn"; spaces0; lit "EloRatio"; spaces0; decimal_group].

Definition re_ntElo : regex :=
  seq [RWordB; lit "non"; ROpt (RSet dash_or_space); lit "tourn"; ROpt (lit "ament");
       spaces1; ROpt (RSeq (lit "elo") spaces0); lit "ratio";
       RMany 0 colon_or_space; decimal_group].

Definition re_gap : regex :=
  seq [ch "("; lit "gap"; spaces0; decimal_group; spaces0; ch ")"].

Definition re_ntSelfBail_1 : regex :=
  seq [RWordB; lit "non"; ROpt (RSet dash_or_space); lit "tournament"; spaces1;
       lit "self-bail"; spaces1; lit "losses"; spaces1; decimal_group; ch "%"].
Definition re_ntSelfBail_2 : regex :=
  seq [RWordB; lit "NT"; spaces1; lit "self-bail"; spaces1; lit "loss";
       ROpt (lit "es"); spaces1; decimal_group; ch "%"].

Definition re_upsets : regex :=
  seq [RWordB; RGroup digits1; spaces1; lit "upset"; spaces1; lit "win";
       ROpt (ci "s"); RWordB].

(** [a || b] on match results *)
Definition or_match (a b : option match_result) : option match_result :=
  match a with
  | Some m => Some m
  | None => b
  end.

(** [m ? f(m[1]) : null] *)
Definition on_group1 {T : Type} (f : value -> option T) (m : option match_result)
  : option T :=
  match m with
  | None => None
  | Some (_, Some g) => f (VStr g)
  | Some (_, None) => f VUndefined
  end.

Record Parsed : Type := mkParsed {
  p_games : option Qc;
  p_elo : option number;
  p_tElo : option number;
  p_ntElo : option number;
  p_gap : option number;
  p_ntSelfBail : option number;
  p_upsets : option Qc
}.

(** The body of [parseFromReasons] once [R], the text of [reasons], is known. *)
Definition parseText (R : string) : Parsed :=
  {| p_games := on_group1 num (js_match R re_games);
     p_elo := on_group1 rat (or_match (js_match R re_elo_1)
                               (or_match (js_match R re_elo_2) (js_match R re_elo_3)));
     p_tElo := on_group1 rat (or_match (js_match R re_tElo_1) (js_match R re_tElo_2));
     p_ntElo := on_group1 rat (js_match R re_ntElo);
     p_gap := on_group1 rat (js_match R re_gap);
     p_ntSelfBail := on_group1 pct (or_match (js_match R re_ntSelfBail_1)
                                      (js_match R re_ntSelfBail_2));
     p_upsets := on_group1 num (js_match R re_upsets) |}.

(* ================================================================== *)
(** ** The alias bundles (lines 249-295) *)

Module A.
Definition suspicion := ["suspicion_score"; "suspicion"; "score"].

Definition recentGames :=
  ["recent_games"; "recent games"; "games"; "lifetime_games"; "lifetime games"].
Definition recentWins := ["recent_wins"; "recent wins"; "wins"].
Definition recentDraws := ["recent_draws"; "recent draws"; "draws"].
Definition recentLosses := ["recent_losses"; "recent losses"; "losses"].

Definition streak := ["win_streak"; "streak"; "stk"].
Definition maxStreak := ["max_win_streak"; "max streak"; "maxstk"; "max win streak"].
Definition upsetWins := ["upset_wins"; "upsets"; "upset"].

Definition shortWinRate :=
  ["short_win_rate"; "short win rate"; "shortw%"; "short_win%"; "shortwin%"].
Definition timeoutWinRatio :=
  ["timeout_win_ratio"; "timeout win ratio"; "to/res%"; "timeout%"].

Definition tGames := ["t_games"; "t games"; "tournament_games"; "tournament games"].
Definition tWins := ["t_wins"; "t wins"; "tournament_wins"; "tournament wins"; "tw"].
Definition tDraws := ["t_draws"; "t draws"; "tournament_draws"; "tournament draws"; "td"].
Definition tLosses :=
  ["t_losses"; "t losses"; "tournament_losses"; "tournament losses"; "tl"].
Definition tWR := ["tourn_win_rate"; "tournament win rate"; "twr"; "twr%"].

Definition ntGames :=
  ["nt_games"; "nt games"; "non_tourn_games"; "non tournament games"; "non_tournament_games"].
Definition ntWins :=
  ["nt_wins"; "nt wins"; "non_tourn_wins"; "non tournament wins"; "non_tournament_wins"].
Definition ntDraws :=
  ["nt_draws"; "nt draws"; "non_tourn_draws"; "non tournament draws"; "non_tournament_draws"].
Definition ntLosses :=
  ["nt_losses"; "nt losses"; "non_tourn_losses"; "non tournament losses";
   "non_tournament_losses"].
Definition ntWR := ["non_tourn_win_rate"; "non tournament win rate"; "ntwr"; "ntwr%"].

Definition eloGain := ["elo_gain"; "elo gain"].
Definition eloLoss := ["elo_loss"; "elo loss"].
Definition eloRatio := ["elo_ratio"; "elo ratio"; "elor"].

Definition tEloGain := ["tourn_elo_gain"; "t elo gain"; "t_elo_gain"].
Definition tEloLoss := ["tourn_elo_loss"; "t elo loss"; "t_elo_loss"].
Definition tEloRatio :=
  ["tourn_elo_ratio"; "t elo ratio"; "t_elo_ratio"; "telor"; "t elor"; "t eloratio"].

Definition ntEloGain := ["non_tourn_elo_gain"; "nt elo gain"; "nt_elo_gain"].
Definition ntEloLoss := ["non_tourn_elo_loss"; "nt elo loss"; "nt_elo_loss"].
Definition ntEloRatio :=
  ["non_tourn_elo_ratio"; "nt elo ratio"; "nt_elo_ratio"; "ntelor"].

Definition wrGap := ["wr_gap"; "wr gap"; "Δwr"; "wr gap (t − nt)"; "wr gap (t-nt)"].
Definition eloRatioGap := ["elo_ratio_gap"; "elo ratio gap"; "Δelor"].

Definition tSelfBail := ["t_self_bail_loss_ratio"; "t-selfto%"].
Definition ntSelfBail := ["nt_self_bail_loss_ratio"; "nt-selfto%"].

Definition reasons := ["reasons"].
End A.

(* ================================================================== *)
(** ** Rows *)

(** [CsvInputRow] (line 100); an absent [result] is [VUndefined]. *)
Record CsvInputRow : Type := mkInput { in_username : string; in_result : value }.

(** The object literal of lines 377-413, key by key.  The counts and
    the elo gains and losses come out of [num] alone and are finite or
    [null] ([option Qc]).  The fields that the source computes with [pct],
    [rat], [sumNN] or arithmetic hold a [number | null], and the number may
    be an infinity or, for [wr_gap], [NaN].  The others hold whatever the
    sources held. *)
Record CanonicalRow : Type := mkRow {
  username : string;
  suspicion_score : value;
  recent_games : option number;
  recent_wins : option number;
  recent_draws : option number;
  recent_losses : option number;
  win_streak : value;
  max_win_streak : value;
  upset_wins : value;
  short_win_rate : option number;
  timeout_win_ratio : option number;
  tourn_games : option Qc;
  tourn_wins : option Qc;
  tourn_draws : option Qc;
  tourn_losses : option Qc;
  non_tourn_games : option Qc;
  non_tourn_wins : option Qc;
  non_tourn_draws : option Qc;
  non_tourn_losses : option Qc;
  tourn_win_rate : option number;
  non_tourn_win_rate : option number;
  wr_gap : option number;
  elo_gain : option Qc;
  elo_loss : option Qc;
  elo_ratio : option number;
  tourn_elo_gain : option Qc;
  tourn_elo_loss : option Qc;
  tourn_elo_ratio : option number;
  non_tourn_elo_gain : option Qc;
  non_tourn_elo_loss : option Qc;
  non_tourn_elo_ratio : option number;
  elo_ratio_gap : option number;
  t_self_bail_loss_ratio : option number;
  nt_self_bail_loss_ratio : option number;
  reasons : value
}.

(** A [number | null] as a value. *)
Definition ofNum (n : option number) : value :=
  match n with
  | Some x => VNum x
  | None => VNull
  end.

(** [a ?? b] on [number | null] *)
Definition opt_or {T : Type} (a b : option T) : option T :=
  match a with
  | Some x => Some x
  | None => b
  end.

(** [x > 0] *)
Definition positive (x : Qc) : bool := negb (Qle_bool x 0).

(** Lines 336-337:
    [if (wr == null && wins != null && games && games > 0)
       wr = Math.round(((wins / games) * 100) * 10) / 10] *)
Definition fillRate (wr : option number) (wins games : option Qc) : option number :=
  match wr, wins, games with
  | None, Some w, Some g =>
      if negb (is_zero g) && positive g
      then Some (fdiv (Math_round
                         (fmul (fmul (fdiv (Fin w) (Fin g)) (Fin (qz 100))) (Fin (qz 10))))
                      (Fin (qz 10)))
      else None
  | _, _, _ => wr
  end.

(** ** The effects of one row

    Building a row reads the side-table row through [getCSV], which may
    write the index to it; [a ?? getCSV(...)] reads only when [a] is
    nullish.  The builder is written once over this interface. *)

Class Lookup (M : Type -> Type) : Type := {
  ret : forall {T : Type}, T -> M T;
  bind : forall {T U : Type}, M T -> (T -> M U) -> M U;
  csvGet : list string -> M value
}.

Notation "x <- m ;; k" := (bind m (fun x => k))
  (at level 61, m at next level, right associativity).

(** Reads against the shared row. *)
Definition Shared (T : Type) : Type := option jsobject -> T * option jsobject.

#[export] Instance SharedLookup : Lookup Shared := {
  ret := fun T x csv => (x, csv);
  bind := fun T U m f csv => let (x, csv') := m csv in f x csv';
  csvGet := fun aliases csv => getCSV csv aliases
}.

(** Reads against a fixed view of the row. *)
Definition Viewed (T : Type) : Type := T.

Definition ViewLookup (look : list string -> value) : Lookup Viewed := {|
  ret := fun T x => x;
  bind := fun T U m f => f m;
  csvGet := look
|}.

Section Reconcile.

(** [Number::toString], for [String(v)] and [Array.prototype.join] on
    numbers. *)
Variable numberToString : number -> string.

(** [String(v)] *)
Fixpoint toStr (v : value) : string :=
  match v with
  | VUndefined => "undefined"
  | VNull => "null"
  | VBool true => "true"
  | VBool false => "false"
  | VNum n => numberToString n
  | VStr s => s
  | VArr items =>
      join "," (map (fun x => if nullish x then EmptyString else toStr x) items)
  | VObj _ => "[object Object]"
  end.

(** an element under [Array.prototype.join] *)
Definition elemStr (x : value) : string := if nullish x then EmptyString else toStr x.

(** [parseFromReasons] (lines 214-246) *)
Definition parseFromReasons (reasons : value) : Parsed :=
  parseText (toStr (coalesce reasons (VStr EmptyString))).

Context {M : Type -> Type} {L : Lookup M}.

(** [a ?? b] where [b] reads the side table *)
Definition orElse {T : Type} (a : option T) (b : M (option T)) : M (option T) :=
  match a with
  | Some x => ret (Some x)
  | None => b
  end.

Definition orElseV (a : value) (b : M value) : M value :=
  if nullish a then b else ret a.

(** [num(getCSV(csv, a))], [pct(getCSV(csv, a))], [rat(getCSV(csv, a))] *)
Definition numCSV (a : list string) : M (option Qc) := v <- csvGet a ;; ret (num v).
Definition pctCSV (a : list string) : M (option number) := v <- csvGet a ;; ret (pct v).
Definition ratCSV (a : list string) : M (option number) := v <- csvGet a ;; ret (rat v).

(** The callback of [finishedRows.map] (lines 297-414). *)
Definition buildRow (row : CsvInputRow) : M CanonicalRow :=
  let r := coalesce (in_result row) (VObj []) in
  reasonsStr <-
    match get r "reasons" with
    | VArr items => ret (VStr (join "; " (map elemStr items)))
    | VStr s => ret (VStr s)
    | _ => v <- csvGet A.reasons ;; ret (coalesce v (VStr EmptyString))
    end ;;
  let parsed := parseFromReasons reasonsStr in
  (* suspicion *)
  suspicion_score <-
    orElseV (pick r ["suspicion_score"; "suspicion.score"])
            (v <- csvGet A.suspicion ;; ret (ofNum (known (num v)))) ;;
  (* T / NT splits *)
  t_games <- orElse (num (pick r ["tournament.games"; "t.games"; "tourn.games"])) (numCSV A.tGames) ;;
  t_wins <- orElse (num (pick r ["tournament.wins"; "t.wins"; "tourn.wins"])) (numCSV A.tWins) ;;
  t_draws <- orElse (num (pick r ["tournament.draws"; "t.draws"; "tourn.draws"])) (numCSV A.tDraws) ;;
  t_losses <- orElse (num (pick r ["tournament.losses"; "t.losses"; "tourn.losses"])) (numCSV A.tLosses) ;;
  tWR <- orElse (pct (pick r ["tournament.win_rate"; "t.win_rate"])) (pctCSV A.tWR) ;;
  nt_games <- orElse (num (pick r ["non_tournament.games"; "nt.games"])) (numCSV A.ntGames) ;;
  nt_wins <- orElse (num (pick r ["non_tournament.wins"; "nt.wins"])) (numCSV A.ntWins) ;;
  nt_draws <- orElse (num (pick r ["non_tournament.draws"; "nt.draws"])) (numCSV A.ntDraws) ;;
  nt_losses <- orElse (num (pick r ["non_tournament.losses"; "nt.losses"])) (numCSV A.ntLosses) ;;
  ntWR <- orElse (pct (pick r ["non_tournament.win_rate"; "nt.win_rate"])) (pctCSV A.ntWR) ;;
  (* lifetime / recent totals (fallback from T+NT or reasons) *)
  recent_games <-
    orElse (num (pick r ["totals.games"; "lifetime_games"; "recent.games"; "games"]))
           (x <- numCSV A.recentGames ;; ret (opt_or x (p_games parsed))) ;;
  recent_wins <- orElse (num (pick r ["totals.wins"; "wins"])) (numCSV A.recentWins) ;;
  recent_draws <- orElse (num (pick r ["totals.draws"; "draws"])) (numCSV A.recentDraws) ;;
  recent_losses <- orElse (num (pick r ["totals.losses"; "losses"])) (numCSV A.recentLosses) ;;
  let recent_games := opt_or (known recent_games) (sumNN (known t_games) (known nt_games)) in
  let recent_wins := opt_or (known recent_wins) (sumNN (known t_wins) (known nt_wins)) in
  let recent_draws := opt_or (known recent_draws) (sumNN (known t_draws) (known nt_draws)) in
  let recent_losses :=
    opt_or (known recent_losses) (sumNN (known t_losses) (known nt_losses)) in
  (* if WR missing but wins/games exist, compute *)
  let tWR := fillRate tWR t_wins t_games in
  let ntWR := fillRate ntWR nt_wins nt_games in
  (* streak/upsets *)
  streak_csv <- csvGet A.streak ;;
  let win_streak := coalesce (coalesce streak_csv (pick r ["streak"])) VNull in
  maxStreak_csv <- csvGet A.maxStreak ;;
  let max_win_streak := coalesce (coalesce maxStreak_csv (pick r ["max_streak"])) VNull in
  upsetWins_csv <- csvGet A.upsetWins ;;
  let upset_wins := coalesce upsetWins_csv (pick r ["upset_wins"]) in
  let upset_wins :=
    match p_upsets parsed with
    | Some u => if nullish upset_wins then VNum (Fin u) else upset_wins
    | None => upset_wins
    end in
  (* ratios *)
  short_win_rate <-
    orElse (pct (pick r ["ratios.short_win_rate"; "short_win_rate"])) (pctCSV A.shortWinRate) ;;
  timeout_win_ratio <-
    orElse (pct (pick r ["ratios.timeout_win_ratio"; "timeout_win_ratio"]))
           (pctCSV A.timeoutWinRatio) ;;
  (* elo totals *)
  elo_gain <- orElse (num (pick r ["totals.elo.gain"; "elo.gain"])) (numCSV A.eloGain) ;;
  elo_loss <- orElse (num (pick r ["totals.elo.loss"; "elo.loss"])) (numCSV A.eloLoss) ;;
  elo_ratio <-
    orElse (rat (pick r ["totals.elo.ratio"; "elo.ratio"]))
           (x <- ratCSV A.eloRatio ;; ret (opt_or x (p_elo parsed))) ;;
  t_elo_gain <- orElse (num (pick r ["tournament.elo.gain"; "t.elo.gain"])) (numCSV A.tEloGain) ;;
  t_elo_loss <- orElse (num (pick r ["tournament.elo.loss"; "t.elo.loss"])) (numCSV A.tEloLoss) ;;
  t_elo_ratio <-
    orElse (rat (pick r ["tournament.elo.ratio"; "t.elo.ratio"]))
           (x <- ratCSV A.tEloRatio ;; ret (opt_or x (p_tElo parsed))) ;;
  nt_elo_gain <-
    orElse (num (pick r ["non_tournament.elo.gain"; "nt.elo.gain"])) (numCSV A.ntEloGain) ;;
  nt_elo_loss <-
    orElse (num (pick r ["non_tournament.elo.loss"; "nt.elo.loss"])) (numCSV A.ntEloLoss) ;;
  nt_elo_ratio <-
    orElse (rat (pick r ["non_tournament.elo.ratio"; "nt.elo.ratio"]))
           (x <- ratCSV A.ntEloRatio ;; ret (opt_or x (p_ntElo parsed))) ;;
  (* gaps *)
  wr_gap <-
    match tWR, ntWR with
    | Some t, Some nt =>
        ret (Some (fdiv (Math_round (fmul (fsub t nt) (Fin (qz 10)))) (Fin (qz 10))))
    | _, _ => pctCSV A.wrGap
    end ;;
  elo_ratio_gap <-
    match t_elo_ratio, nt_elo_ratio with
    | Some t, Some nt => ret (rat (VNum (fsub t nt)))
    | _, _ => x <- ratCSV A.eloRatioGap ;; ret (opt_or x (p_gap parsed))
    end ;;
  t_self_bail_loss_ratio <-
    orElse (pct (pick r ["ratios.self_bail_loss_ratio_t"])) (pctCSV A.tSelfBail) ;;
  nt_self_bail_loss_ratio <-
    orElse (pct (pick r ["ratios.self_bail_loss_ratio_nt"]))
           (x <- pctCSV A.ntSelfBail ;; ret (opt_or x (p_ntSelfBail parsed))) ;;
  ret {| username := in_username row;
         suspicion_score := suspicion_score;
         recent_games := recent_games;
         recent_wins := recent_wins;
         recent_draws := recent_draws;
         recent_losses := recent_losses;
         win_streak := win_streak;
         max_win_streak := max_win_streak;
         upset_wins := upset_wins;
         short_win_rate := short_win_rate;
         timeout_win_ratio := timeout_win_ratio;
         tourn_games := t_games;
         tourn_wins := t_wins;
         tourn_draws := t_draws;
         tourn_losses := t_losses;
         non_tourn_games := nt_games;
         non_tourn_wins := nt_wins;
         non_tourn_draws := nt_draws;
         non_tourn_losses := nt_losses;
         tourn_win_rate := tWR;
         non_tourn_win_rate := ntWR;
         wr_gap := wr_gap;
         elo_gain := elo_gain;
         elo_loss := elo_loss;
         elo_ratio := elo_ratio;
         tourn_elo_gain := t_elo_gain;
         tourn_elo_loss := t_elo_loss;
         tourn_elo_ratio := t_elo_ratio;
         non_tourn_elo_gain := nt_elo_gain;
         non_tourn_elo_loss := nt_elo_loss;
         non_tourn_elo_ratio := nt_elo_ratio;
         elo_ratio_gap := elo_ratio_gap;
         t_self_bail_loss_ratio := t_self_bail_loss_ratio;
         nt_self_bail_loss_ratio := nt_self_bail_loss_ratio;
         reasons := reasonsStr |}.

End Reconcile.

(* ================================================================== *)
(** ** The sort (lines 417-422) *)

(** [a !== b] on numbers *)
Definition strict_neq (a b : number) : bool :=
  match a, b with
  | Fin x, Fin y => negb (Qeq_bool x y)
  | PosInf, PosInf => false
  | NegInf, NegInf => false
  | _, _ => true
  end.

(** [bs - as] in the comparator.  Only the sign of the difference is
    looked at, and rounding does not change it: two different doubles are
    at least [2^-1074] apart, which is a double.  The difference is
    therefore left exact here. *)
Definition nsub (a b : number) : number :=
  match a, b with
  | Fin x, Fin y => Fin (x - y)%Qc
  | NaN, _ | _, NaN => NaN
  | PosInf, PosInf | NegInf, NegInf => NaN
  | PosInf, _ => PosInf
  | NegInf, _ => NegInf
  | Fin _, PosInf => NegInf
  | Fin _, NegInf => PosInf
  end.

(** [num(row.suspicion_score) ?? -Infinity] *)
Definition sort_key (row : CanonicalRow) : number :=
  match num (suspicion_score row) with
  | Some q => Fin q
  | None => NegInf
  end.

(** The comparator of lines 417-422; [localeCompare] is the collation of
    the host, an integer that is negative, zero or positive. *)
Definition compareRows (localeCompare : string -> string -> Z) (a b : CanonicalRow) : number :=
  let as_ := sort_key a in
  let bs := sort_key b in
  if strict_neq as_ bs then nsub bs as_
  else Fin (qz (localeCompare (toLowerCase (username a)) (toLowerCase (username b)))).

(** Whether a comparator result is [> 0], that is, whether the first
    argument has to come after the second. *)
Definition is_after (v : number) : bool :=
  match v with
  | PosInf => true
  | Fin x => positive x
  | _ => false
  end.

(** [Array.prototype.sort] is stable: an element is placed after the
    elements that the comparator puts before it, and never jumps over one
    that compares equal. *)
Fixpoint insert {T : Type} (cmp : T -> T -> number) (x : T) (l : list T) : list T :=
  match l with
  | [] => [x]
  | y :: l' => if is_after (cmp x y) then y :: insert cmp x l' else x :: l
  end.

Definition Array_sort {T : Type} (cmp : T -> T -> number) (l : list T) : list T :=
  fold_right (insert cmp) [] l.

(* ================================================================== *)
(** ** [buildDownloadCsvRowsStrict] (lines 156-425) *)

(** [csvByUser]: rows by key. *)
Definition Store : Type := list (string * jsobject).

(** the row under key [k] after it was written to *)
Fixpoint store_put (k : string) (o : jsobject) (st : Store) : Store :=
  match st with
  | [] => []
  | (k', o') :: st' =>
      if String.eqb k k' then (k', o) :: st' else (k', o') :: store_put k o st'
  end.

(** One step of [finishedRows.map]: the row is built against
    [csvByUser[row.username.toLowerCase()]], which keeps what [getCSV]
    wrote to it. *)
Definition buildOne (numberToString : number -> string) (row : CsvInputRow) (st : Store)
  : CanonicalRow * Store :=
  let key := toLowerCase (in_username row) in
  let (out, csv') := buildRow (L := SharedLookup) numberToString row (assoc key st) in
  (out, match csv' with Some o => store_put key o st | None => st end).

Fixpoint mapRows (numberToString : number -> string) (rows : list CsvInputRow) (st : Store)
  : list CanonicalRow * Store :=
  match rows with
  | [] => ([], st)
  | row :: rest =>
      let (out, st1) := buildOne numberToString row st in
      let (outs, st2) := mapRows numberToString rest st1 in
      (out :: outs, st2)
  end.

(** The rows returned, and [csvByUser] as the call leaves it. *)
Definition buildDownloadCsvRowsStrict
  (numberToString : number -> string) (localeCompare : string -> string -> Z)
  (finishedRows : list CsvInputRow) (csvByUser : Store) : list CanonicalRow * Store :=
  let (out, st) := mapRows numberToString finishedRows csvByUser in
  (Array_sort (compareRows localeCompare) out, st).

(* ================================================================== *)
(** ** Vocabulary of the statements *)

(** [z] is the nearest integer to [x], an exact half going up. *)
Definition nearest_half_up (x : Qc) (z : Z) : Prop :=
  (qz z - half <= x /\ x < qz z + half)%Qc.

(** The number that a decimal literal denotes: the nearest double. *)
Definition dbl (q : Q) : number := fl q.

(** The finite numbers with one decimal, and with three: the doubles
    nearest to [z / 10] and to [z / 1000] for an integer [z], which print
    with at most that many decimals. *)
Definition tenths (p : Qc) : Prop := exists z : Z, fl (inject_Z z / 10) = Fin p.
Definition thousandths (p : Qc) : Prop := exists z : Z, fl (inject_Z z / 1000) = Fin p.

(** What a rounded field holds when the arithmetic has left the range of
    the doubles. *)
Definition infinite (x : number) : Prop := x = PosInf \/ x = NegInf.

(** A number with one decimal, or with three, or an infinity. *)
Definition one_decimal (x : number) : Prop :=
  infinite x \/ exists p, x = Fin p /\ tenths p.
Definition three_decimals (x : number) : Prop :=
  infinite x \/ exists p, x = Fin p /\ thousandths p.

(** [Math.round(x * 10) / 10] and [Math.round(x * 1000) / 1000], as the
    source computes them. *)
Definition round1 (x : number) : number :=
  fdiv (Math_round (fmul x (Fin (qz 10)))) (Fin (qz 10)).
Definition round3 (x : number) : number :=
  fdiv (Math_round (fmul x (Fin (qz 1000)))) (Fin (qz 1000)).

(** The percentage that [pct] rounds: the hundredfold of a fraction, and
    a larger number as it is. *)
Definition percentage (n : Qc) : number :=
  if Qle_bool n 1 then fmul (Fin n) (Fin (qz 100)) else Fin n.

(** The finite value of a number. *)
Definition finite_value (x : number) : option Qc :=
  match x with
  | Fin q => Some q
  | _ => None
  end.

(** Rounding to the nearest integer with an exact half going away from
    zero, as the specification words it. *)
Definition round_half_away (x : Qc) : Qc :=
  if Qle_bool 0 x then qz (Qfloor (x + half))
  else (- qz (Qfloor (- x + half)))%Qc.

(** [x + 1/2] is an integer: [x] is an exact half. *)
Definition exact_half (x : Qc) : Prop := exists k : Z, (x + half)%Qc = qz k.

(** *** Numeral tokens *)

Fixpoint all_digits (s : string) : bool :=
  match s with
  | EmptyString => true
  | String c s' => is_digit c && all_digits s'
  end.

Fixpoint no_digit (s : string) : bool :=
  match s with
  | EmptyString => true
  | String c s' => negb (is_digit c) && no_digit s'
  end.

Definition starts_with_digit (s : string) : bool :=
  match s with
  | String c _ => is_digit c
  | EmptyString => false
  end.

(** a digit, or a minus sign and a digit: where [numeral_re] can match *)
Definition starts_numeral (s : string) : bool :=
  match s with
  | String c s' => is_digit c || (Ascii.eqb c "-" && starts_with_digit s')
  | EmptyString => false
  end.

(** the character before the position reached after reading [s] *)
Fixpoint last_char (prev : option ascii) (s : string) : option ascii :=
  match s with
  | EmptyString => prev
  | String c s' => last_char (Some c) s'
  end.

(** a dot followed by a digit *)
Definition starts_with_fraction (s : string) : bool :=
  match s with
  | String c s' => Ascii.eqb c "." && starts_with_digit s'
  | EmptyString => false
  end.

Fixpoint ends_with_minus (s : string) : bool :=
  match s with
  | EmptyString => false
  | String c EmptyString => Ascii.eqb c "-"
  | String _ s' => ends_with_minus s'
  end.

(** [n] zeros *)
Fixpoint zeros (n : nat) : string :=
  match n with
  | O => EmptyString
  | S n' => String "0" (zeros n')
  end.

(** The text of a numeral: an optional minus sign, the digits [ip], and
    the fraction digits [fp] after a dot when there are any. *)
Definition numeral_text (neg : bool) (ip fp : string) : string :=
  (if neg then "-" else EmptyString) ++ ip ++
  match fp with
  | EmptyString => EmptyString
  | _ => String "." fp
  end.

(** The number that the numeral denotes. *)
Definition numeral_value (neg : bool) (ip fp : string) : Qc :=
  let mag :=
    (qz (decimal 0 ip)
     + Q2Qc (Qmake (decimal 0 fp) (Z.to_pos (10 ^ Z.of_nat (String.length fp)))))%Qc in
  if neg then (- mag)%Qc else mag.

(** What may follow a numeral for it to be a whole token: no further
    digit, and no fraction when the numeral has none. *)
Definition ends_numeral (fp post : string) : bool :=
  negb (starts_with_digit post) &&
  match fp with
  | EmptyString => negb (starts_with_fraction post)
  | _ => true
  end.

(** What may precede it: no digit, and no minus sign directly before an
    unsigned numeral. *)
Definition begins_numeral (pre : string) (neg : bool) : bool :=
  no_digit pre && (neg || negb (ends_with_minus pre)).

(** *** Views of a side-table row *)

(** What [getCSV] finds, and the row it leaves behind. *)
Definition lookupCSV (csv : option jsobject) (aliases : list string) : value :=
  fst (getCSV csv aliases).

Definition indexed (csv : option jsobject) : option jsobject :=
  option_map with_index csv.

(** A row as first seen, or after [getCSV] has been through it. *)
Definition same_view (csv s : option jsobject) : Prop := s = csv \/ s = indexed csv.

(** A computation on the shared row yields [x] from every such state and
    leaves such a state. *)
Definition agrees {T : Type} (csv : option jsobject) (m : Shared T) (x : T) : Prop :=
  forall s, same_view csv s -> fst (m s) = x /\ same_view csv (snd (m s)).

(** The row built from the structured source and a fixed lookup. *)
Definition rowOf (numberToString : number -> string) (look : list string -> value)
  (row : CsvInputRow) : CanonicalRow :=
  buildRow (M := Viewed) (L := ViewLookup look) numberToString row.

(** Successive lookups on one row. *)
Fixpoint lookups (csv : option jsobject) (queries : list (list string))
  : list value * option jsobject :=
  match queries with
  | [] => ([], csv)
  | q :: rest =>
      let (v, csv1) := getCSV csv q in
      let (vs, csv2) := lookups csv1 rest in
      (v :: vs, csv2)
  end.

(** [r = row.result ?? {}] *)
Definition source (row : CsvInputRow) : value := coalesce (in_result row) (VObj []).

(** A property of a [number | null] that holds of the number, if any. *)
Definition opt_all {T : Type} (P : T -> Prop) (o : option T) : Prop :=
  match o with
  | Some x => P x
  | None => True
  end.

(** *** Stand-ins for the host's builtins in closed examples *)

(** Code-unit order of strings. *)
Definition codeunitCompare (a b : string) : Z :=
  match String.compare a b with
  | Lt => (-1)%Z
  | Eq => 0%Z
  | Gt => 1%Z
  end.

(** A number printer that is exact on the special values; the examples
    below print no finite number. *)
Definition printSpecial (n : number) : string :=
  match n with
  | NaN => "NaN"
  | PosInf => "Infinity"
  | NegInf => "-Infinity"
  | Fin _ => EmptyString
  end.

(** *** Per-field resolution *)

(** Tiers 1 and 2 of a coerced field: the structured source under the
    dotted paths, then the side table under the aliases. *)
Definition resolved {T : Type} (coerce : value -> option T) (r : value)
  (look : list string -> value) (paths aliases : list string) : option T :=
  opt_or (coerce (pick r paths)) (coerce (look aliases)).

(** Tiers 1 to 3 of a field that the narrative can supply. *)
Definition resolved3 {T : Type} (coerce : value -> option T) (r : value)
  (look : list string -> value) (paths aliases : list string) (narrative : option T)
  : option T :=
  opt_or (coerce (pick r paths)) (opt_or (coerce (look aliases)) narrative).



(** The fields that hold what [num] makes of a leaf or of a cell, each
    with its dotted paths and its aliases. *)
Definition count_fields
  : list ((CanonicalRow -> option Qc) * list string * list string) :=
  [ (tourn_games, ["tournament.games"; "t.games"; "tourn.games"], A.tGames);
    (tourn_wins, ["tournament.wins"; "t.wins"; "tourn.wins"], A.tWins);
    (tourn_draws, ["tournament.draws"; "t.draws"; "tourn.draws"], A.tDraws);
    (tourn_losses, ["tournament.losses"; "t.losses"; "tourn.losses"], A.tLosses);
    (non_tourn_games, ["non_tournament.games"; "nt.games"], A.ntGames);
    (non_tourn_wins, ["non_tournament.wins"; "nt.wins"], A.ntWins);
    (non_tourn_draws, ["non_tournament.draws"; "nt.draws"], A.ntDraws);
    (non_tourn_losses, ["non_tournament.losses"; "nt.losses"], A.ntLosses);
    (elo_gain, ["totals.elo.gain"; "elo.gain"], A.eloGain);
    (elo_loss, ["totals.elo.loss"; "elo.loss"], A.eloLoss);
    (tourn_elo_gain, ["tournament.elo.gain"; "t.elo.gain"], A.tEloGain);
    (tourn_elo_loss, ["tournament.elo.loss"; "t.elo.loss"], A.tEloLoss);
    (non_tourn_elo_gain, ["non_tournament.elo.gain"; "nt.elo.gain"], A.ntEloGain);
    (non_tourn_elo_loss, ["non_tournament.elo.loss"; "nt.elo.loss"], A.ntEloLoss) ].

(** *** Sample inputs *)

(** A number of a JSON text or of the source. *)
Definition qnum (q : Q) : value := VNum (dbl q).

(** [{ tournament: { games: 10, wins: 7 }, non_tournament: { games: 5, wins: 1 },
       reasons: "flagged over 15 games (gap 0.42)" }] *)
Definition scenario_result : value :=
  VObj [ ("tournament", VObj [("games", qnum 10); ("wins", qnum 7)]);
         ("non_tournament", VObj [("games", qnum 5); ("wins", qnum 1)]);
         ("reasons", VStr "flagged over 15 games (gap 0.42)") ].

(** The same with the narrative as an array of phrases. *)
Definition scenario_result_phrases : value :=
  VObj [ ("tournament", VObj [("games", qnum 10); ("wins", qnum 7)]);
         ("non_tournament", VObj [("games", qnum 5); ("wins", qnum 1)]);
         ("reasons", VArr [VStr "flagged over 15 games (gap 0.42)"]) ].

(** [{ tournament: { games: 10 } }] *)
Definition tournament_only : CsvInputRow :=
  mkInput "player" (VObj [("tournament", VObj [("games", qnum 10)])]).

(** [{ streak: 5, max_streak: 6, upset_wins: 7 }] against the side-table
    row [{ win_streak: 9, max_win_streak: 10, upset_wins: 11 }] *)
Definition streaks_result : value :=
  VObj [("streak", qnum 5); ("max_streak", qnum 6); ("upset_wins", qnum 7)].

Definition streaks_table : Store :=
  [("bob", [ mkProp "win_streak" (qnum 9) true;
             mkProp "max_win_streak" (qnum 10) true;
             mkProp "upset_wins" (qnum 11) true ])].

(** [{ suspicion_score: "high", streak: "hot" }] *)
Definition words_result : value :=
  VObj [("suspicion_score", VStr "high"); ("streak", VStr "hot")].





(** [{ tournament: { games: 1e308, win_rate: 1e308 },
       non_tournament: { games: 1e308, win_rate: 1e308 } }] *)
Definition overflow_result : value :=
  VObj [ ("tournament", VObj [("games", qnum 1e308); ("win_rate", qnum 1e308)]);
         ("non_tournament", VObj [("games", qnum 1e308); ("win_rate", qnum 1e308)]) ].

(** A number that is not [NaN]. *)
Definition not_NaN (x : number) : Prop := x <> NaN.

(** A number with one decimal, an infinity, or [NaN]. *)
Definition one_decimal_or_NaN (x : number) : Prop := x = NaN \/ one_decimal x.

(** A side-table row with a column of its own called [__normIndex]
    whose cell is empty. *)
Definition colliding_row : jsobject :=
  [mkProp "__normIndex" VNull true; mkProp "games" (VStr "12") true].

(** *** The order of the rows *)

(** The suspicion score that the comparator reads. *)
Definition score (row : CanonicalRow) : option Qc := num (suspicion_score row).

(** The identity, compared without case. *)
Definition name_key (row : CanonicalRow) : string := toLowerCase (username row).

(** [a] is a strictly higher score than [b]; unknown is the lowest. *)
Definition score_above (a b : option Qc) : Prop :=
  match a, b with
  | Some x, Some y => (y < x)%Qc
  | Some _, None => True
  | None, _ => False
  end.

(** [a] may stand before [b]: a higher score, or the same score and a
    name that is not greater. *)
Definition ranks_before (localeCompare : string -> string -> Z) (a b : CanonicalRow) : Prop :=
  score_above (score a) (score b) \/
  (score a = score b /\ (localeCompare (name_key a) (name_key b) <= 0)%Z).

Definition same_score (a b : option Qc) : bool :=
  match a, b with
  | Some x, Some y => Qc_eq_bool x y
  | None, None => true
  | _, _ => false
  end.

(** [a] and [b] agree on both keys. *)
Definition tied (localeCompare : string -> string -> Z) (a b : CanonicalRow) : bool :=
  same_score (score a) (score b) && (localeCompare (name_key a) (name_key b) =? 0)%Z.

(** Scores [3.2, 3.2, unknown, 5.0] for [bob], [Alice], [carl], [dave]. *)
Definition ranking_inputs : list CsvInputRow :=
  [ mkInput "bob" (VObj [("suspicion_score", qnum 3.2)]);
    mkInput "Alice" (VObj [("suspicion_score", qnum 3.2)]);
    mkInput "carl" (VObj []);
    mkInput "dave" (VObj [("suspicion_score", qnum 5)]) ].

(* ================================================================== *)
(** ** Vocabulary of the further properties *)

(** *** Alias lookup *)

(** The value under the last header of the row that normalises to [k]. *)
Fixpoint last_header (k : string) (es : list (string * value)) : option value :=
  match es with
  | [] => None
  | (h, v) :: rest =>
      match last_header k rest with
      | Some w => Some w
      | None => if String.eqb (norm h) k then Some v else None
      end
  end.

(** The first alias, in order, whose last matching header holds a value
    that is not nullish. *)
Fixpoint first_found (es : list (string * value)) (aliases : list string) : value :=
  match aliases with
  | [] => VUndefined
  | a :: rest =>
      match last_header (norm a) es with
      | Some v => if nullish v then first_found es rest else v
      | None => first_found es rest
      end
  end.

(** A character of the ASCII range, and a text of such characters. *)
Definition is_ascii (c : ascii) : bool := (code c <? 128)%nat.

Fixpoint ascii_text (s : string) : bool :=
  match s with
  | EmptyString => true
  | String c s' => is_ascii c && ascii_text s'
  end.

(** Every character is a lower-case letter or a digit. *)
Fixpoint all_alnum (s : string) : bool :=
  match s with
  | EmptyString => true
  | String c s' => (is_lower c || is_digit c) && all_alnum s'
  end.

Fixpoint has_char (c : ascii) (s : string) : bool :=
  match s with
  | EmptyString => false
  | String d s' => Ascii.eqb d c || has_char c s'
  end.

(** One step of the descent along a dotted path. *)
Definition step (o : value) (k : string) : value :=
  if nullish o then VUndefined else get o k.

(** *** Stores *)

(** [s] holds the rows of [st] under the same keys, each as it is in
    [st] or with the index that [getCSV] leaves on it. *)
Definition store_view (st s : Store) : Prop :=
  Forall2 (fun a b => fst a = fst b /\ (snd b = snd a \/ snd b = with_index (snd a))) st s.

(** The side-table row of an input row. *)
Definition csvOf (st : Store) (row : CsvInputRow) : option jsobject :=
  assoc (toLowerCase (in_username row)) st.

(** No user name of the rows is a spelling of [__proto__], the one key
    under which a plain [csvByUser] answers with an inherited object. *)
Definition plain_names (rows : list CsvInputRow) : bool :=
  forallb (fun row => negb (String.eqb (toLowerCase (in_username row)) "__proto__")) rows.

(** Two inputs for one user, and one more. *)
Definition three_inputs : list CsvInputRow :=
  [mkInput "Bob" streaks_result; mkInput "bob" scenario_result;
   mkInput "carl" words_result].

(** All the fields of the narrative are unknown. *)
Definition nothing_parsed : Parsed :=
  {| p_games := None; p_elo := None; p_tElo := None; p_ntElo := None;
     p_gap := None; p_ntSelfBail := None; p_upsets := None |}.

(** [{ "T Elo Ratio": 1.5, "t_elo_ratio": null }]: two spellings of one
    column, the later one empty, and [{ "TELOR": 2 }]. *)
Definition two_spellings : jsobject :=
  [mkProp "T Elo Ratio" (qnum 1.5) true; mkProp "t_elo_ratio" VNull true].

Definition short_spelling : jsobject := [mkProp "TELOR" (qnum 2) true].

(** A match whose capture, if any, holds no digit. *)
Definition quiet (res : option match_result) : Prop :=
  match res with
  | Some (_, Some g) => no_digit g = true
  | _ => True
  end.

Definition quiet_capture (cap : option string) : Prop :=
  match cap with
  | Some g => no_digit g = true
  | None => True
  end.

(** [{ tournament: { games: 0, wins: 0 } }] *)
Definition no_games_result : value :=
  VObj [("tournament", VObj [("games", qnum 0); ("wins", qnum 0)])].

(* ================================================================== *)
(** ** [src/utils.ts] and [src/types.ts]: names and phrases *)

(** A run of characters of one kind dropped from the start of a text, or
    from its end. *)
Fixpoint strip_start (p : ascii -> bool) (s : string) : string :=
  match s with
  | String c s' => if p c then strip_start p s' else s
  | EmptyString => EmptyString
  end.

Fixpoint strip_end (p : ascii -> bool) (s : string) : string :=
  match s with
  | EmptyString => EmptyString
  | String c s' =>
      let t := strip_end p s' in
      if p c && String.eqb t EmptyString then EmptyString else String c t
  end.

(** [String.prototype.trim] *)
Definition trim (s : string) : string := strip_end is_space (strip_start is_space s).

(** [s.split(/[...]+/)] for a set of separator characters: the pieces
    between the runs of separators; [in_run] tells that a separator has
    just been read. *)
Fixpoint split_runs (sep : ascii -> bool) (cur : string) (in_run : bool) (s : string)
  : list string :=
  match s with
  | EmptyString => [cur]
  | String c s' =>
      if sep c then
        if in_run then split_runs sep EmptyString true s'
        else cur :: split_runs sep EmptyString true s'
      else split_runs sep (cur ++ String c EmptyString) false s'
  end.

Definition split_on_runs (sep : ascii -> bool) (s : string) : list string :=
  split_runs sep EmptyString false s.

(** [s.replace(/[...]/g, empty)] for a set of characters *)
Fixpoint remove_chars (p : ascii -> bool) (s : string) : string :=
  match s with
  | EmptyString => EmptyString
  | String c s' => if p c then remove_chars p s' else String c (remove_chars p s')
  end.

(** [Boolean(s)] on a string *)
Definition nonempty (s : string) : bool := negb (String.eqb s EmptyString).

Definition mem (k : string) (l : list string) : bool := existsb (String.eqb k) l.

(** [uniq] of [utils.ts] (lines 28-38): [seen] is the set of lower-cased
    names met so far, [out] the names kept. *)
Fixpoint uniq_loop (arr : list string) (seen : list string) (out : list string)
  : list string :=
  match arr with
  | [] => out
  | u :: rest =>
      let key := toLowerCase u in
      if mem key seen then uniq_loop rest seen out
      else uniq_loop rest (key :: seen) (out ++ [u])
  end.

Definition uniq (arr : list string) : list string := uniq_loop arr [] [].

Definition double_quote : ascii := "034"%char.
Definition line_feed : ascii := "010"%char.

(** The separators of the plain list, and the quotes stripped from its names *)
Definition newline_or_comma (c : ascii) : bool :=
  Ascii.eqb c line_feed || Ascii.eqb c ",".
Definition is_quote (c : ascii) : bool := Ascii.eqb c double_quote || Ascii.eqb c "'".

(** [parseUserInput] of [utils.ts] (lines 2-26).  [JSON_parse] is the
    builtin, [None] when it throws. *)
Definition parseUserInput (JSON_parse : string -> option value)
  (numberToString : number -> string) (raw : string) : list string :=
  let s := trim raw in
  if String.eqb s EmptyString then []
  else
    let by_lines :=
      uniq (filter nonempty
              (map (fun u => trim (remove_chars is_quote u))
                   (split_on_runs newline_or_comma s))) in
    match JSON_parse s with
    | Some (VArr parsed) =>
        uniq (filter nonempty
                (map (fun v => trim (toStr numberToString (coalesce v (VStr EmptyString))))
                     parsed))
    | _ => by_lines
    end.

(** [/[|,;]/] *)
Definition phrase_separator (c : ascii) : bool :=
  Ascii.eqb c "|" || Ascii.eqb c "," || Ascii.eqb c ";".

(** The argument of [reasonsAsArray]: absent, an array of phrases, or a
    text. *)
Inductive ReasonsInput : Type :=
| NoReasons
| PhraseList (phrases : list string)
| ReasonsText (text : string).

(** [reasonsAsArray] of [types.ts] (lines 69-76) *)
Definition reasonsAsArray (input : ReasonsInput) : list string :=
  match input with
  | NoReasons => []
  | PhraseList phrases => phrases
  | ReasonsText text =>
      if String.eqb text EmptyString then []
      else filter nonempty (map trim (split_on_runs phrase_separator text))
  end.

(** The lower-cased names differ pairwise. *)
Definition distinct_ignoring_case (names : list string) : Prop :=
  NoDup (map toLowerCase names).

(** A phrase that [reasonsAsArray] gives back as it is. *)
Definition clean_phrase (p : string) : Prop :=
  p <> EmptyString /\ trim p = p /\ forall c, phrase_separator c = true -> has_char c p = false.

(** A stand-in for [JSON.parse] that accepts nothing, and one that reads
    every text as the array of two names. *)
Definition parse_nothing (s : string) : option value := None.
Definition parse_two_names (s : string) : option value :=
  Some (VArr [VStr " Ann "; VStr "ANN"; VNull; VStr "bob"]).

(* ================================================================== *)
(** ** Cells and lines of the file: [escapeCsvCell] and [toCsv] *)

(** A row given to [toCsv]: its own keys in the order of [Object.keys],
    with their values. *)
Definition CsvRow : Type := list (string * value).

Section Cells.
Variable numberToString : number -> string.

(** The test of line 7: a quote, a comma or a line feed *)
Definition needs_quotes (s : string) : bool :=
  has_char double_quote s || has_char "," s || has_char line_feed s.

(** The replacement of line 7: every quote is written twice *)
Fixpoint double_quotes (s : string) : string :=
  match s with
  | EmptyString => EmptyString
  | String c s' =>
      if Ascii.eqb c double_quote
      then String double_quote (String double_quote (double_quotes s'))
      else String c (double_quotes s')
  end.

(** [escapeCsvCell] (lines 4-9) *)
Definition escapeCsvCell (v : value) : string :=
  if nullish v then EmptyString
  else
    let s := toStr numberToString v in
    if needs_quotes s
    then String double_quote (double_quotes s ++ String double_quote EmptyString)
    else s.

(** [set.add(k)] on a set that keeps the order of insertion *)
Definition set_add (set : list string) (k : string) : list string :=
  if mem k set then set else set ++ [k].

(** The byte order mark, as the three bytes that the download writes *)
Definition byte_order_mark : string :=
  String "239" (String "187" (String "191" EmptyString)).

(** [toCsv] (lines 11-24); [headers] is [None] when the argument is
    left out. *)
Definition toCsv (rows : list CsvRow) (headers : option (list string)) : string :=
  match rows with
  | [] => EmptyString
  | _ =>
      let cols :=
        match headers with
        | Some given => given
        | None => fold_left (fun set r => fold_left set_add (map fst r) set) rows []
        end in
      let headerLine := join "," (map (fun c => escapeCsvCell (VStr c)) cols) in
      let lines :=
        map (fun r => join "," (map (fun c => escapeCsvCell (get (VObj r) c)) cols)) rows in
      byte_order_mark ++ join (String line_feed EmptyString) (headerLine :: lines)
  end.

End Cells.

(** The object that the callback of [buildDownloadCsvRowsStrict] returns
    (lines 377-413), as [toCsv] receives it. *)
Definition row_object (o : CanonicalRow) : CsvRow :=
  [ ("username", VStr (username o));
    ("suspicion_score", suspicion_score o);
    ("recent_games", ofNum (recent_games o));
    ("recent_wins", ofNum (recent_wins o));
    ("recent_draws", ofNum (recent_draws o));
    ("recent_losses", ofNum (recent_losses o));
    ("win_streak", win_streak o);
    ("max_win_streak", max_win_streak o);
    ("upset_wins", upset_wins o);
    ("short_win_rate", ofNum (short_win_rate o));
    ("timeout_win_ratio", ofNum (timeout_win_ratio o));
    ("tourn_games", ofNum (known (tourn_games o)));
    ("tourn_wins", ofNum (known (tourn_wins o)));
    ("tourn_draws", ofNum (known (tourn_draws o)));
    ("tourn_losses", ofNum (known (tourn_losses o)));
    ("non_tourn_games", ofNum (known (non_tourn_games o)));
    ("non_tourn_wins", ofNum (known (non_tourn_wins o)));
    ("non_tourn_draws", ofNum (known (non_tourn_draws o)));
    ("non_tourn_losses", ofNum (known (non_tourn_losses o)));
    ("tourn_win_rate", ofNum (tourn_win_rate o));
    ("non_tourn_win_rate", ofNum (non_tourn_win_rate o));
    ("wr_gap", ofNum (wr_gap o));
    ("elo_gain", ofNum (known (elo_gain o)));
    ("elo_loss", ofNum (known (elo_loss o)));
    ("elo_ratio", ofNum (elo_ratio o));
    ("tourn_elo_gain", ofNum (known (tourn_elo_gain o)));
    ("tourn_elo_loss", ofNum (known (tourn_elo_loss o)));
    ("tourn_elo_ratio", ofNum (tourn_elo_ratio o));
    ("non_tourn_elo_gain", ofNum (known (non_tourn_elo_gain o)));
    ("non_tourn_elo_loss", ofNum (known (non_tourn_elo_loss o)));
    ("non_tourn_elo_ratio", ofNum (non_tourn_elo_ratio o));
    ("elo_ratio_gap", ofNum (elo_ratio_gap o));
    ("t_self_bail_loss_ratio", ofNum (t_self_bail_loss_ratio o));
    ("nt_self_bail_loss_ratio", ofNum (nt_self_bail_loss_ratio o));
    ("reasons", reasons o) ].

(** The download of [App.tsx] (lines 497-498): the rows of
    [buildDownloadCsvRowsStrict], written by [toCsv]. *)
Definition download (numberToString : number -> string)
  (localeCompare : string -> string -> Z)
  (finishedRows : list CsvInputRow) (csvByUser : Store) : string :=
  toCsv numberToString
    (map row_object
       (fst (buildDownloadCsvRowsStrict numberToString localeCompare finishedRows csvByUser)))
    None.

(** The columns of the download, in the order of the file. *)
Definition strict_columns : list string :=
  [ "username"; "suspicion_score"; "recent_games"; "recent_wins"; "recent_draws";
    "recent_losses"; "win_streak"; "max_win_streak"; "upset_wins"; "short_win_rate";
    "timeout_win_ratio"; "tourn_games"; "tourn_wins"; "tourn_draws"; "tourn_losses";
    "non_tourn_games"; "non_tourn_wins"; "non_tourn_draws"; "non_tourn_losses";
    "tourn_win_rate"; "non_tourn_win_rate"; "wr_gap"; "elo_gain"; "elo_loss";
    "elo_ratio"; "tourn_elo_gain"; "tourn_elo_loss"; "tourn_elo_ratio";
    "non_tourn_elo_gain"; "non_tourn_elo_loss"; "non_tourn_elo_ratio";
    "elo_ratio_gap"; "t_self_bail_loss_ratio"; "nt_self_bail_loss_ratio"; "reasons" ].

(** The line of one row: its thirty-five cells, each escaped. *)
Definition line_of (numberToString : number -> string) (o : CanonicalRow) : string :=
  join "," (map (fun kv => escapeCsvCell numberToString (snd kv)) (row_object o)).

(* ================================================================== *)
(** ** [App.tsx]: the colour of a score *)

(** [SUSPICION_THRESHOLDS] (lines 29-37): the largest score of each
    band, and its colour. *)
Definition SUSPICION_THRESHOLDS : list (number * string) :=
  [ (Fin 0, "bg-green-600");
    (Fin 1, "bg-yellow-200");
    (Fin (Q2Qc (3 # 2)), "bg-yellow-400");
    (Fin (Q2Qc (5 # 2)), "bg-orange-500");
    (Fin (Q2Qc (7 # 2)), "bg-red-500");
    (Fin (Q2Qc (9 # 2)), "bg-red-700");
    (PosInf, "bg-red-900") ].

(** The loop of [severityColor] over a table *)
Fixpoint first_band (s : number) (table : list (number * string)) : string :=
  match table with
  | [] => "bg-slate-400"
  | (max, color) :: rest => if nleb s max then color else first_band s rest
  end.

(** [severityColor] (lines 72-78); [None] is a score left out or
    [null]. *)
Definition severityColor (score : option number) : string :=
  let s := match score with Some n => n | None => Fin 0 end in
  first_band s SUSPICION_THRESHOLDS.

(* ================================================================== *)
(** ** [App.tsx]: the names of a bulk scan *)

(** The separators of the bulk input: white space, comma, semicolon *)
Definition space_comma_semicolon (c : ascii) : bool :=
  is_space c || Ascii.eqb c "," || Ascii.eqb c ";".

Definition is_double_quote (c : ascii) : bool := Ascii.eqb c double_quote.

(** The replacement of line 108: the quotes at the start and the quotes
    at the end are dropped. *)
Definition strip_quotes (s : string) : string :=
  strip_end is_double_quote (strip_start is_double_quote s).

(** [uniqUsernames] (lines 103-112); [Array.from(new Set(l))] keeps the
    first occurrence of every element. *)
Definition uniqUsernames (input : string) : list string :=
  fold_left set_add
    (filter nonempty
       (map (fun s => strip_quotes (trim s))
            (split_on_runs space_comma_semicolon input)))
    [].

(** A name as a bulk scan takes it: not empty, without separator, without
    quotes at its ends. *)
Definition clean_name (u : string) : Prop :=
  u <> EmptyString
  /\ (forall c, space_comma_semicolon c = true -> has_char c u = false)
  /\ strip_quotes u = u.

(* ================================================================== *)
(** * Properties *)

(** ** Rational arithmetic *)

Lemma Q2Qc_correct (q : Q) : (this (Q2Qc q) == q)%Q.
Proof. apply Qred_correct. Qed.

Lemma this_qz (z : Z) : (this (qz z) == inject_Z z)%Q.
Proof. unfold qz. apply Q2Qc_correct. Qed.

Lemma this_half : (this half == 1 # 2)%Q.
Proof. reflexivity. Qed.

#[local] Instance inject_Z_Proper : Proper (eq ==> Qeq) inject_Z.
Proof. intros a b Hab. rewrite Hab. reflexivity. Qed.

Lemma this_plus (x y : Qc) : (this (x + y)%Qc == this x + this y)%Q.
Proof. apply Q2Qc_correct. Qed.

Lemma this_mult (x y : Qc) : (this (x * y)%Qc == this x * this y)%Q.
Proof. apply Q2Qc_correct. Qed.

Lemma this_opp (x : Qc) : (this (- x)%Qc == - this x)%Q.
Proof. apply Q2Qc_correct. Qed.

Lemma this_minus (x y : Qc) : (this (x - y)%Qc == this x - this y)%Q.
Proof. unfold Qcminus. rewrite this_plus, this_opp. reflexivity. Qed.

Lemma this_inv (x : Qc) : (this (/ x)%Qc == / this x)%Q.
Proof. apply Q2Qc_correct. Qed.

Lemma this_div (x y : Qc) : (this (x / y)%Qc == this x / this y)%Q.
Proof. unfold Qcdiv. rewrite this_mult, this_inv. reflexivity. Qed.

Ltac to_Q_step :=
  first [ rewrite this_plus | rewrite this_minus | rewrite this_mult | rewrite this_div
        | rewrite this_opp | rewrite this_inv | rewrite this_qz | rewrite this_half
        | rewrite Q2Qc_correct ].

Ltac to_Q_hyp H :=
  first [ rewrite this_plus in H | rewrite this_minus in H | rewrite this_mult in H
        | rewrite this_div in H | rewrite this_opp in H | rewrite this_inv in H
        | rewrite this_qz in H | rewrite this_half in H | rewrite Q2Qc_correct in H ].

(** Moves a goal about [Qc] to [Q], where [lra] applies. *)
Ltac to_Q :=
  unfold nearest_half_up, Qcle, Qclt in *;
  repeat match goal with
         | H : _ |- _ => progress (repeat to_Q_hyp H)
         end;
  repeat to_Q_step;
  change (inject_Z 0) with 0%Q in *;
  change (inject_Z 1) with 1%Q in *;
  change (inject_Z 10) with 10%Q in *;
  change (inject_Z 100) with 100%Q in *;
  change (inject_Z 1000) with 1000%Q in *;
  unfold Qdiv in *;
  change (/ 10)%Q with (1 # 10)%Q in *;
  change (/ 1000)%Q with (1 # 1000)%Q in *.

Lemma Qfloor_unique (x : Q) (a : Z) :
  (inject_Z a <= x)%Q -> (x < inject_Z (a + 1))%Q -> Qfloor x = a.
Proof.
  intros Hlo Hhi.
  pose proof (Qfloor_le x) as H1.
  pose proof (Qlt_floor x) as H2.
  assert (Ha : (a < Qfloor x + 1)%Z).
  { rewrite Zlt_Qlt. eapply Qle_lt_trans; eauto. }
  assert (Hb : (Qfloor x < a + 1)%Z).
  { rewrite Zlt_Qlt. eapply Qle_lt_trans; eauto. }
  lia.
Qed.

Lemma round_half_up_nearest (x : Qc) :
  exists z : Z, round_half_up x = qz z /\ nearest_half_up x z.
Proof.
  exists (Qfloor (x + half)). split; [reflexivity|].
  pose proof (Qfloor_le (x + half)) as H1.
  pose proof (Qlt_floor (x + half)) as H2.
  rewrite inject_Z_plus in H2.
  to_Q. split; lra.
Qed.

Lemma nearest_half_up_unique (x : Qc) (z : Z) :
  nearest_half_up x z -> round_half_up x = qz z.
Proof.
  intros [H1 H2]. unfold round_half_up. f_equal.
  apply Qfloor_unique; [|rewrite inject_Z_plus]; to_Q; lra.
Qed.

Lemma qz_opp (z : Z) : (- qz z)%Qc = qz (- z).
Proof. apply Qc_is_canon. to_Q. rewrite inject_Z_opp. reflexivity. Qed.

Lemma Qle_bool_Qc (x y : Qc) : Qle_bool x y = true <-> (x <= y)%Qc.
Proof. apply Qle_bool_iff. Qed.

Lemma Qle_bool_Qc_false (x y : Qc) : Qle_bool x y = false <-> (y < x)%Qc.
Proof.
  unfold Qclt. destruct (Qle_bool x y) eqn:E.
  - apply Qle_bool_iff in E. split; [discriminate|].
    intros H. exfalso. exact (Qlt_not_le _ _ H E).
  - split; [|reflexivity]. intros _. apply Qnot_le_lt.
    intros H. apply Qle_bool_iff in H. congruence.
Qed.

Lemma round_half_away_nonneg (x : Qc) : (0 <= x)%Qc -> round_half_away x = round_half_up x.
Proof.
  intros H. unfold round_half_away.
  apply Qle_bool_Qc in H. change (this 0%Qc) with 0%Q in H.
  rewrite H. reflexivity.
Qed.

Lemma round_half_away_inexact (x : Qc) :
  ~ exact_half x -> round_half_away x = round_half_up x.
Proof.
  intros Hne. unfold round_half_away.
  destruct (Qle_bool 0 x) eqn:Hs; [reflexivity|].
  unfold round_half_up. rewrite qz_opp. f_equal.
  set (a := Qfloor (x + half)).
  assert (Ha : ~ (x + half == inject_Z a)%Q).
  { intros He. apply Hne. exists a. apply Qc_is_canon. to_Q. exact He. }
  pose proof (Qfloor_le (x + half)) as H1.
  pose proof (Qlt_floor (x + half)) as H2.
  fold a in H1, H2. rewrite inject_Z_plus in H2.
  assert (H3 : (inject_Z a < x + half)%Q).
  { apply Qle_lt_or_eq in H1. destruct H1 as [H1|H1]; [exact H1|].
    exfalso. apply Ha. symmetry. exact H1. }
  assert (Hf : Qfloor (- x + half) = (- a)%Z).
  { apply Qfloor_unique.
    - rewrite inject_Z_opp. to_Q. lra.
    - rewrite inject_Z_plus, inject_Z_opp. to_Q. lra. }
  rewrite Hf. lia.
Qed.

Lemma round_half_up_nonneg (x : Qc) : (0 <= x)%Qc -> (0 <= round_half_up x)%Qc.
Proof.
  intros H. unfold round_half_up.
  assert (Hz : (0 <= Qfloor (x + half))%Z).
  { change 0%Z with (Qfloor (inject_Z 0)) at 1. apply Qfloor_resp_le. to_Q. lra. }
  rewrite Zle_Qle in Hz. to_Q. lra.
Qed.

Lemma round_half_up_nonpos (x : Qc) : (x <= 0)%Qc -> (round_half_up x <= 0)%Qc.
Proof.
  intros H. unfold round_half_up.
  assert (Hz : (Qfloor (x + half) <= 0)%Z).
  { assert (Hlt : (Qfloor (x + half) < 1)%Z).
    { rewrite Zlt_Qlt. eapply Qle_lt_trans; [apply Qfloor_le|]. to_Q. lra. }
    lia. }
  rewrite Zle_Qle in Hz. to_Q. lra.
Qed.

Lemma round_half_up_qz (z : Z) : round_half_up (qz z) = qz z.
Proof.
  apply nearest_half_up_unique. split; to_Q; lra.
Qed.

Lemma round_half_up_le (x : Qc) (z : Z) : (x <= qz z)%Qc -> (round_half_up x <= qz z)%Qc.
Proof.
  intros H. unfold round_half_up.
  assert (Hz : (Qfloor (x + half) <= z)%Z).
  { apply Z.le_trans with (Qfloor (inject_Z z + (1 # 2))).
    - apply Qfloor_resp_le. to_Q. lra.
    - assert (E : Qfloor (inject_Z z + (1 # 2)) = z).
      { apply Qfloor_unique; [|rewrite inject_Z_plus; change (inject_Z 1) with 1%Q]; lra. }
      rewrite E. lia. }
  rewrite Zle_Qle in Hz. to_Q. exact Hz.
Qed.

(** ** Doubles *)

Section Doubles.
Local Open Scope Q_scope.

Lemma pow2_pos (k : Z) : 0 < pow2 k.
Proof. apply Qpower_0_lt. reflexivity. Qed.

Lemma pow2_add (a b : Z) : pow2 (a + b) == pow2 a * pow2 b.
Proof. apply Qpower_plus. discriminate. Qed.

Lemma pow2_le (a b : Z) : (a <= b)%Z -> pow2 a <= pow2 b.
Proof. intros H. apply Qpower_le_compat_l; [exact H | discriminate]. Qed.

Lemma pow2_lt (a b : Z) : (a < b)%Z -> pow2 a < pow2 b.
Proof. intros H. apply Qpower_lt_compat_l; [exact H | reflexivity]. Qed.

Lemma pow2_lt_inv (a b : Z) : pow2 a < pow2 b -> (a < b)%Z.
Proof. intros H. apply (Qpower_lt_compat_l_inv 2); [exact H | reflexivity]. Qed.

Lemma pow2_int (k : Z) : (0 <= k)%Z -> pow2 k == inject_Z (2 ^ k).
Proof. intros H. unfold pow2. rewrite Zpower_Qpower by exact H. reflexivity. Qed.

Lemma pow2_sub (a b : Z) : pow2 (a - b) == pow2 a / pow2 b.
Proof. apply Qpower_minus. discriminate. Qed.

(** [ilog2 x] is the binary exponent of a positive [x]. *)
Lemma ilog2_spec (x : Q) : 0 < x -> pow2 (ilog2 x) <= x /\ x < pow2 (ilog2 x + 1).
Proof.
  intros Hx. unfold ilog2.
  destruct x as [n d]. cbn [Qnum Qden].
  assert (Hn : (0 < n)%Z).
  { unfold Qlt in Hx. cbn in Hx. lia. }
  set (a := Z.log2 n). set (b := Z.log2 (Z.pos d)).
  destruct (Z.log2_spec n Hn) as [Ha1 Ha2]. fold a in Ha1, Ha2.
  destruct (Z.log2_spec (Z.pos d) (Pos2Z.is_pos d)) as [Hb1 Hb2]. fold b in Hb1, Hb2.
  assert (Ha0 : (0 <= a)%Z) by apply Z.log2_nonneg.
  assert (Hb0 : (0 <= b)%Z) by apply Z.log2_nonneg.
  assert (HA : (0 < 2 ^ a)%Z) by (apply Z.pow_pos_nonneg; lia).
  assert (HB : (0 < 2 ^ b)%Z) by (apply Z.pow_pos_nonneg; lia).
  assert (Hsa : (2 ^ (a + 1) = 2 * 2 ^ a)%Z) by (rewrite Z.pow_add_r by lia; lia).
  assert (Hsb : (2 ^ (b + 1) = 2 * 2 ^ b)%Z) by (rewrite Z.pow_add_r by lia; lia).
  replace (2 ^ Z.succ a)%Z with (2 * 2 ^ a)%Z in Ha2
    by (unfold Z.succ; lia).
  replace (2 ^ Z.succ b)%Z with (2 * 2 ^ b)%Z in Hb2
    by (unfold Z.succ; lia).
  assert (Hupper : (n # d) < pow2 (a - b + 1)).
  { replace (a - b + 1)%Z with ((a + 1) - b)%Z by lia.
    rewrite pow2_sub. apply Qlt_shift_div_l; [apply pow2_pos|].
    rewrite !pow2_int by lia. rewrite Hsa.
    unfold Qlt, Qmult, inject_Z. cbn [Qnum Qden]. nia. }
  assert (Hlower : pow2 (a - b - 1) <= (n # d)).
  { replace (a - b - 1)%Z with (a - (b + 1))%Z by lia.
    rewrite pow2_sub. apply Qle_shift_div_r; [apply pow2_pos|].
    rewrite !pow2_int by lia. rewrite Hsb.
    unfold Qle, Qmult, inject_Z. cbn [Qnum Qden]. nia. }
  destruct (Qle_bool (pow2 (a - b)) (n # d)) eqn:E.
  - apply Qle_bool_iff in E. split; assumption.
  - split; [exact Hlower|].
    replace (a - b - 1 + 1)%Z with (a - b)%Z by lia.
    apply Qnot_le_lt. intros H. apply Qle_bool_iff in H. congruence.
Qed.

Lemma ilog2_unique (x : Q) (e : Z) :
  pow2 e <= x -> x < pow2 (e + 1) -> ilog2 x = e.
Proof.
  intros H1 H2.
  assert (Hx : 0 < x) by (eapply Qlt_le_trans; [apply pow2_pos | exact H1]).
  destruct (ilog2_spec x Hx) as [H3 H4].
  assert (A : (ilog2 x < e + 1)%Z).
  { apply pow2_lt_inv. eapply Qle_lt_trans; eauto. }
  assert (B : (e < ilog2 x + 1)%Z).
  { apply pow2_lt_inv. eapply Qle_lt_trans; eauto. }
  lia.
Qed.

Lemma ilog2_mono (x y : Q) : 0 < x -> x <= y -> (ilog2 x <= ilog2 y)%Z.
Proof.
  intros Hx Hxy.
  assert (Hy : 0 < y) by (eapply Qlt_le_trans; eauto).
  destruct (ilog2_spec x Hx) as [H1 _]. destruct (ilog2_spec y Hy) as [_ H2].
  assert (A : (ilog2 x < ilog2 y + 1)%Z).
  { apply pow2_lt_inv. eapply Qle_lt_trans; [exact H1|]. eapply Qle_lt_trans; eauto. }
  lia.
Qed.

Lemma ilog2_eq (x y : Q) : 0 < x -> x == y -> ilog2 x = ilog2 y.
Proof.
  intros Hx E. symmetry. destruct (ilog2_spec x Hx) as [H1 H2].
  apply ilog2_unique; rewrite <- E; assumption.
Qed.

(** Rounding to the nearest integer, an exact half going to the even one *)
Lemma rne_bounds (x : Q) : (Qfloor x <= rne x <= Qfloor x + 1)%Z.
Proof.
  unfold rne. destruct (Qcompare _ _); [destruct (Z.even _)| |]; lia.
Qed.

Lemma rne_int (z : Z) : rne (inject_Z z) = z.
Proof.
  unfold rne. rewrite Qfloor_Z.
  assert (E : inject_Z z - inject_Z z == 0) by ring.
  rewrite E. reflexivity.
Qed.

Lemma rne_eq (x y : Q) : x == y -> rne x = rne y.
Proof.
  intros E. unfold rne. rewrite (Qfloor_comp _ _ E).
  assert (E2 : x - inject_Z (Qfloor y) == y - inject_Z (Qfloor y)) by (rewrite E; reflexivity).
  rewrite E2. reflexivity.
Qed.

Lemma rne_mono (x y : Q) : x <= y -> (rne x <= rne y)%Z.
Proof.
  intros H.
  pose proof (Qfloor_resp_le _ _ H) as Hf.
  pose proof (rne_bounds x) as Bx. pose proof (rne_bounds y) as By.
  destruct (Z.eq_dec (Qfloor x) (Qfloor y)) as [E|NE]; [|lia].
  unfold rne. rewrite E.
  assert (Hr : x - inject_Z (Qfloor y) <= y - inject_Z (Qfloor y)) by lra.
  destruct (Qcompare_spec (x - inject_Z (Qfloor y)) (1 # 2)) as [Hx|Hx|Hx];
    destruct (Qcompare_spec (y - inject_Z (Qfloor y)) (1 # 2)) as [Hy|Hy|Hy];
    try destruct (Z.even (Qfloor y)); try lia; exfalso; lra.
Qed.

Lemma rne_error (x : Q) : Qabs (inject_Z (rne x) - x) <= 1 # 2.
Proof.
  pose proof (Qfloor_le x) as H1. pose proof (Qlt_floor x) as H2.
  rewrite inject_Z_plus in H2. change (inject_Z 1) with 1 in H2.
  apply Qabs_Qle_condition. unfold rne.
  destruct (Qcompare_spec (x - inject_Z (Qfloor x)) (1 # 2)) as [H|H|H].
  - destruct (Z.even (Qfloor x)); [|rewrite inject_Z_plus; change (inject_Z 1) with 1];
      split; lra.
  - split; lra.
  - rewrite inject_Z_plus. change (inject_Z 1) with 1. split; lra.
Qed.

Lemma grid_le (x : Q) (t k : Z) :
  (t <= k)%Z -> x <= pow2 k -> inject_Z (rne (x / pow2 t)) * pow2 t <= pow2 k.
Proof.
  intros Htk Hx.
  assert (Hp : 0 < pow2 t) by apply pow2_pos.
  assert (E : pow2 k == inject_Z (2 ^ (k - t)) * pow2 t).
  { rewrite <- pow2_int by lia. rewrite <- pow2_add. f_equiv. lia. }
  rewrite E. apply Qmult_le_compat_r; [|apply Qlt_le_weak; exact Hp].
  rewrite <- Zle_Qle. rewrite <- (rne_int (2 ^ (k - t))).
  apply rne_mono. apply Qle_shift_div_r; [exact Hp|]. rewrite <- E. exact Hx.
Qed.

Lemma grid_ge (x : Q) (t k : Z) :
  (t <= k)%Z -> pow2 k <= x -> pow2 k <= inject_Z (rne (x / pow2 t)) * pow2 t.
Proof.
  intros Htk Hx.
  assert (Hp : 0 < pow2 t) by apply pow2_pos.
  assert (E : pow2 k == inject_Z (2 ^ (k - t)) * pow2 t).
  { rewrite <- pow2_int by lia. rewrite <- pow2_add. f_equiv. lia. }
  rewrite E. apply Qmult_le_compat_r; [|apply Qlt_le_weak; exact Hp].
  rewrite <- Zle_Qle. rewrite <- (rne_int (2 ^ (k - t))).
  apply rne_mono. apply Qle_shift_div_l; [exact Hp|]. rewrite <- E. exact Hx.
Qed.

Lemma round_mag_mono (a b : Q) : 0 < a -> a <= b -> round_mag a <= round_mag b.
Proof.
  intros Ha Hab.
  assert (Hb : 0 < b) by (eapply Qlt_le_trans; eauto).
  pose proof (ilog2_mono a b Ha Hab) as He.
  destruct (ilog2_spec a Ha) as [_ Ha2]. destruct (ilog2_spec b Hb) as [Hb1 _].
  unfold round_mag, ulp_exp.
  set (ea := ilog2 a) in *. set (eb := ilog2 b) in *.
  destruct (Z.eq_dec (Z.max (ea - 52) (-1074)) (Z.max (eb - 52) (-1074))) as [E|NE].
  - rewrite E. apply Qmult_le_compat_r; [|apply Qlt_le_weak, pow2_pos].
    rewrite <- Zle_Qle. apply rne_mono.
    apply Qmult_le_compat_r; [exact Hab|].
    apply Qlt_le_weak, Qinv_lt_0_compat, pow2_pos.
  - apply Qle_trans with (pow2 eb).
    + apply grid_le; [lia|].
      apply Qle_trans with (pow2 (ea + 1)); [apply Qlt_le_weak; exact Ha2|].
      apply pow2_le. lia.
    + apply grid_ge; [lia | exact Hb1].
Qed.

Lemma round_mag_nonneg (a : Q) : 0 < a -> 0 <= round_mag a.
Proof.
  intros Ha. unfold round_mag.
  apply Qmult_le_0_compat; [|apply Qlt_le_weak, pow2_pos].
  change 0 with (inject_Z 0). rewrite <- Zle_Qle.
  rewrite <- (rne_int 0). apply rne_mono.
  apply Qle_shift_div_l; [apply pow2_pos|]. rewrite Qmult_0_l. apply Qlt_le_weak. exact Ha.
Qed.

Lemma round_mag_eq (a b : Q) : 0 < a -> a == b -> round_mag a == round_mag b.
Proof.
  intros Ha E. unfold round_mag, ulp_exp. rewrite (ilog2_eq a b Ha E).
  rewrite (rne_eq (a / pow2 _) (b / pow2 (Z.max (ilog2 b - 52) (-1074)))); [reflexivity|].
  rewrite E. reflexivity.
Qed.

Lemma fl_val_eq (x y : Q) : x == y -> fl_val x == fl_val y.
Proof.
  intros E. unfold fl_val.
  assert (Ec : Qcompare x 0 = Qcompare y 0) by (rewrite E; reflexivity).
  rewrite <- Ec.
  destruct (Qcompare_spec x 0) as [H|H|H]; [reflexivity | |].
  - apply Qopp_comp. apply round_mag_eq; [lra | rewrite E; reflexivity].
  - apply round_mag_eq; assumption.
Qed.

Lemma fl_val_sign (x : Q) : (0 <= x -> 0 <= fl_val x) /\ (x <= 0 -> fl_val x <= 0).
Proof.
  unfold fl_val. destruct (Qcompare_spec x 0) as [H|H|H].
  - split; intros _; apply Qle_refl.
  - split; intros H'; [lra|]. pose proof (round_mag_nonneg (- x)). lra.
  - split; intros H'; [|lra]. apply round_mag_nonneg. exact H.
Qed.

(** Rounding to a double is monotone. *)
Lemma fl_val_mono (x y : Q) : x <= y -> fl_val x <= fl_val y.
Proof.
  intros Hxy.
  destruct (Qlt_le_dec 0 x) as [Hx|Hx].
  - assert (Hy : 0 < y) by lra.
    unfold fl_val.
    destruct (Qcompare_spec x 0) as [H|H|H]; try lra.
    destruct (Qcompare_spec y 0) as [H'|H'|H']; try lra.
    now apply round_mag_mono.
  - destruct (Qlt_le_dec y 0) as [Hy|Hy].
    + unfold fl_val.
      destruct (Qcompare_spec x 0) as [H|H|H]; try lra.
      destruct (Qcompare_spec y 0) as [H'|H'|H']; try lra.
      apply Qopp_le_compat. apply round_mag_mono; lra.
    + apply Qle_trans with 0; [apply fl_val_sign; exact Hx | apply fl_val_sign; exact Hy].
Qed.

Lemma fl_eq (x y : Q) : x == y -> fl x = fl y.
Proof.
  intros E. unfold fl. pose proof (fl_val_eq x y E) as Ev.
  assert (E1 : Qle_bool (pow2 1024) (fl_val x) = Qle_bool (pow2 1024) (fl_val y)).
  { apply eq_true_iff_eq. rewrite !Qle_bool_iff, Ev. reflexivity. }
  assert (E2 : Qle_bool (fl_val x) (- pow2 1024) = Qle_bool (fl_val y) (- pow2 1024)).
  { apply eq_true_iff_eq. rewrite !Qle_bool_iff, Ev. reflexivity. }
  assert (E3 : Q2Qc (fl_val x) = Q2Qc (fl_val y)).
  { apply Qc_is_canon. rewrite !Q2Qc_correct. exact Ev. }
  cbv zeta. rewrite E1, E2, E3. reflexivity.
Qed.

(** What [fl] returns: an infinity beyond the range, and the rounded value
    within. *)
Lemma fl_cases (x : Q) :
  (fl x = PosInf /\ pow2 1024 <= fl_val x) \/
  (fl x = NegInf /\ fl_val x <= - pow2 1024) \/
  (exists q : Qc, fl x = Fin q /\ this q == fl_val x /\
                  - pow2 1024 < fl_val x /\ fl_val x < pow2 1024).
Proof.
  unfold fl.
  destruct (Qle_bool (pow2 1024) (fl_val x)) eqn:E1.
  - left. split; [reflexivity | now apply Qle_bool_iff].
  - destruct (Qle_bool (fl_val x) (- pow2 1024)) eqn:E2.
    + right. left. split; [reflexivity | now apply Qle_bool_iff].
    + right. right. exists (Q2Qc (fl_val x)).
      split; [reflexivity|]. split; [apply Q2Qc_correct|].
      split; apply Qnot_le_lt; intros H; apply Qle_bool_iff in H; congruence.
Qed.

Lemma fl_finite (x : Q) (q : Qc) : fl x = Fin q -> this q == fl_val x.
Proof.
  intros H. destruct (fl_cases x) as [[E _] | [[E _] | [p [E [Hp _]]]]];
    rewrite E in H; try discriminate.
  injection H as <-. exact Hp.
Qed.

(** A bound that is a double bounds the rounded value too. *)
Lemma fl_le (x : Q) (c : Qc) :
  x <= c -> fl_val c == c -> c < pow2 1024 -> nleb (fl x) (Fin c) = true.
Proof.
  intros Hx Hc Hmax.
  pose proof (fl_val_mono x c Hx) as Hm. rewrite Hc in Hm.
  destruct (fl_cases x) as [[E H] | [[E H] | [p [E [Hp _]]]]]; rewrite E; cbn.
  - exfalso. lra.
  - reflexivity.
  - apply Qle_bool_iff. rewrite Hp. exact Hm.
Qed.

Lemma fl_ge (x : Q) (c : Qc) :
  c <= x -> fl_val c == c -> - pow2 1024 < c -> nleb (Fin c) (fl x) = true.
Proof.
  intros Hx Hc Hmin.
  pose proof (fl_val_mono c x Hx) as Hm. rewrite Hc in Hm.
  destruct (fl_cases x) as [[E H] | [[E H] | [p [E [Hp _]]]]]; rewrite E; cbn.
  - reflexivity.
  - exfalso. lra.
  - apply Qle_bool_iff. rewrite Hp. exact Hm.
Qed.

Lemma fl_val_0 : fl_val 0 == 0.
Proof. reflexivity. Qed.

Lemma fl_nonneg (x : Q) : 0 <= x -> nleb (Fin 0%Qc) (fl x) = true.
Proof.
  intros H. apply (fl_ge x 0%Qc); [exact H | reflexivity|].
  pose proof (pow2_pos 1024). change (this 0%Qc) with 0. lra.
Qed.

Lemma fl_nonpos (x : Q) : x <= 0 -> nleb (fl x) (Fin 0%Qc) = true.
Proof.
  intros H. apply (fl_le x 0%Qc); [exact H | reflexivity | apply pow2_pos].
Qed.

Lemma nleb_bounds (a b : Qc) (r : number) :
  nleb (Fin a) r = true -> nleb r (Fin b) = true ->
  exists q : Qc, r = Fin q /\ (a <= q)%Qc /\ (q <= b)%Qc.
Proof.
  destruct r as [| | |q]; cbn; try discriminate.
  intros H1 H2. exists q. split; [reflexivity|].
  split; apply Qle_bool_iff; assumption.
Qed.

Lemma nleb_trans (a b c : number) : nleb a b = true -> nleb b c = true -> nleb a c = true.
Proof.
  destruct a as [| | |x], b as [| | |y], c as [| | |z]; simpl; try congruence.
  rewrite !Qle_bool_iff. apply Qle_trans.
Qed.

Lemma nleb_refl_fin (q : Qc) : nleb (Fin q) (Fin q) = true.
Proof. cbn. apply Qle_bool_iff. apply Qle_refl. Qed.

End Doubles.

(** ** The arithmetic of [pct] and [rat] *)

Lemma fl_not_NaN (x : Q) : fl x <> NaN.
Proof.
  destruct (fl_cases x) as [[E _] | [[E _] | [q [E _]]]]; rewrite E; discriminate.
Qed.

Lemma fl_Fin_or_infinite (x : Q) : infinite (fl x) \/ exists q, fl x = Fin q.
Proof.
  destruct (fl_cases x) as [[E _] | [[E _] | [q [E _]]]]; rewrite E.
  - left. left. reflexivity.
  - left. right. reflexivity.
  - right. exists q. reflexivity.
Qed.

(** Closed equalities and comparisons of numbers, by computation. *)
Ltac goal_discriminate :=
  match goal with
  | |- _ <> _ => let H := fresh in intros H; discriminate H
  | |- _ -> False => let H := fresh in intros H; discriminate H
  end.

Ltac qc_peel :=
  repeat first [ apply (f_equal (@Some _))
               | apply (f_equal Fin)
               | apply (f_equal VNum)
               | apply (f_equal2 (@cons _)); [ | reflexivity ] ].

Ltac qc_eq :=
  vm_compute;
  first [ reflexivity
        | goal_discriminate
        | qc_peel; apply Qc_is_canon; vm_compute; reflexivity ].

Ltac qc_neq :=
  let H := fresh in
  intros H; vm_compute in H;
  first [ discriminate H
        | apply (f_equal (option_map finite_value)) in H; vm_compute in H;
          apply (f_equal (option_map (option_map this))) in H; vm_compute in H;
          discriminate H
        | apply (f_equal finite_value) in H; vm_compute in H;
          apply (f_equal (option_map this)) in H; vm_compute in H; discriminate H
        | apply (f_equal (option_map this)) in H; vm_compute in H; discriminate H ].

Lemma positive_iff (x : Qc) : positive x = true <-> (0 < x)%Qc.
Proof.
  unfold positive. rewrite negb_true_iff.
  change 0%Q with (this 0%Qc). apply Qle_bool_Qc_false.
Qed.

Lemma nsign_pos (c : Qc) : (0 < c)%Qc -> nsign (Fin c) = 1%Z.
Proof.
  intros H. cbn. destruct (Qcompare_spec c 0) as [E|E|E]; [| |reflexivity];
    exfalso; unfold Qclt in H; change (this 0%Qc) with 0%Q in H; lra.
Qed.

Lemma is_zero_pos (c : Qc) : (0 < c)%Qc -> Qeq_bool c 0 = false.
Proof.
  intros H. apply not_true_is_false. intros E. apply Qeq_bool_eq in E.
  unfold Qclt in H. change (this 0%Qc) with 0%Q in H. lra.
Qed.

(** Multiplication and division by a positive constant, and [Math.round],
    keep the sign. *)
Lemma fmul_nonneg (a : number) (c : Qc) :
  (0 < c)%Qc -> nleb (Fin 0) a = true -> nleb (Fin 0) (fmul a (Fin c)) = true.
Proof.
  intros Hc Ha. destruct a as [| | |q]; try discriminate.
  - cbn [fmul]. rewrite (nsign_pos c Hc). reflexivity.
  - cbn [fmul]. apply fl_nonneg. cbn in Ha. apply Qle_bool_iff in Ha.
    unfold Qclt in Hc. change (this 0%Qc) with 0%Q in *. nra.
Qed.

Lemma fmul_nonpos (a : number) (c : Qc) :
  (0 < c)%Qc -> nleb a (Fin 0) = true -> nleb (fmul a (Fin c)) (Fin 0) = true.
Proof.
  intros Hc Ha. destruct a as [| | |q]; try discriminate.
  - cbn [fmul]. rewrite (nsign_pos c Hc). reflexivity.
  - cbn [fmul]. apply fl_nonpos. cbn in Ha. apply Qle_bool_iff in Ha.
    unfold Qclt in Hc. change (this 0%Qc) with 0%Q in *. nra.
Qed.

Lemma fdiv_nonneg (a : number) (c : Qc) :
  (0 < c)%Qc -> nleb (Fin 0) a = true -> nleb (Fin 0) (fdiv a (Fin c)) = true.
Proof.
  intros Hc Ha. destruct a as [| | |q]; try discriminate.
  - cbn [fdiv]. rewrite (is_zero_pos c Hc), (nsign_pos c Hc). reflexivity.
  - cbn [fdiv]. rewrite (is_zero_pos c Hc). apply fl_nonneg.
    cbn in Ha. apply Qle_bool_iff in Ha.
    unfold Qclt in Hc. change (this 0%Qc) with 0%Q in *.
    apply Qle_shift_div_l; [exact Hc | lra].
Qed.

Lemma fdiv_nonpos (a : number) (c : Qc) :
  (0 < c)%Qc -> nleb a (Fin 0) = true -> nleb (fdiv a (Fin c)) (Fin 0) = true.
Proof.
  intros Hc Ha. destruct a as [| | |q]; try discriminate.
  - cbn [fdiv]. rewrite (is_zero_pos c Hc), (nsign_pos c Hc). reflexivity.
  - cbn [fdiv]. rewrite (is_zero_pos c Hc). apply fl_nonpos.
    cbn in Ha. apply Qle_bool_iff in Ha.
    unfold Qclt in Hc. change (this 0%Qc) with 0%Q in *.
    apply Qle_shift_div_r; [exact Hc | lra].
Qed.

Lemma Math_round_nonneg (a : number) :
  nleb (Fin 0) a = true -> nleb (Fin 0) (Math_round a) = true.
Proof.
  destruct a as [| | |q]; cbn; auto.
  intros H. apply Qle_bool_iff. apply Qle_bool_iff in H.
  apply (round_half_up_nonneg q). exact H.
Qed.

Lemma Math_round_nonpos (a : number) :
  nleb a (Fin 0) = true -> nleb (Math_round a) (Fin 0) = true.
Proof.
  destruct a as [| | |q]; cbn; auto.
  intros H. apply Qle_bool_iff. apply Qle_bool_iff in H.
  apply (round_half_up_nonpos q). exact H.
Qed.

Lemma qz_pos (z : Z) : (0 < z)%Z -> (0 < qz z)%Qc.
Proof.
  intros H. unfold Qclt. rewrite this_qz. change (this 0%Qc) with (inject_Z 0).
  rewrite <- Zlt_Qlt. exact H.
Qed.

(** [Math.round(m) / c] for a positive integer [c]: the double nearest to
    [z / c] for the integer [z] nearest to [m], an exact half going up.
    An infinity stays one. *)
Lemma round_div_finite (m : Qc) (c : Z) :
  (0 < c)%Z ->
  exists z : Z, nearest_half_up m z /\
    fdiv (Math_round (Fin m)) (Fin (qz c)) = fl (inject_Z z / inject_Z c).
Proof.
  intros Hc. destruct (round_half_up_nearest m) as [z [Hz Hnear]].
  exists z. split; [exact Hnear|].
  cbn [Math_round fdiv]. rewrite (is_zero_pos (qz c) (qz_pos c Hc)), Hz.
  apply fl_eq. rewrite !this_qz. reflexivity.
Qed.

Lemma round_div_cases (m : number) (c : Z) :
  (0 < c)%Z ->
  match m with
  | Fin q => exists z : Z, nearest_half_up q z /\
               fdiv (Math_round m) (Fin (qz c)) = fl (inject_Z z / inject_Z c)
  | _ => fdiv (Math_round m) (Fin (qz c)) = m
  end.
Proof.
  intros Hc. destruct m as [| | |q].
  - reflexivity.
  - cbn [Math_round fdiv]. rewrite (is_zero_pos (qz c) (qz_pos c Hc)).
    rewrite (nsign_pos (qz c) (qz_pos c Hc)). reflexivity.
  - cbn [Math_round fdiv]. rewrite (is_zero_pos (qz c) (qz_pos c Hc)).
    rewrite (nsign_pos (qz c) (qz_pos c Hc)). reflexivity.
  - apply round_div_finite. exact Hc.
Qed.

Lemma fmul_const_cases (a : number) (c : Qc) :
  (0 < c)%Qc -> a <> NaN -> fmul a (Fin c) <> NaN.
Proof.
  intros Hc Ha. destruct a as [| | |q]; [congruence | | |]; cbn [fmul].
  - rewrite (nsign_pos c Hc). discriminate.
  - rewrite (nsign_pos c Hc). discriminate.
  - apply fl_not_NaN.
Qed.

(** A number rounded to one decimal is an infinity or has one decimal. *)
Lemma round1_one_decimal (x : number) : x <> NaN -> one_decimal (round1 x).
Proof.
  intros Hx. unfold round1.
  pose proof (fmul_const_cases x (qz 10) (qz_pos 10 eq_refl) Hx) as Hm.
  pose proof (round_div_cases (fmul x (Fin (qz 10))) 10 eq_refl) as H.
  destruct (fmul x (Fin (qz 10))) as [| | |q]; [congruence | | |].
  - rewrite H. left. left. reflexivity.
  - rewrite H. left. right. reflexivity.
  - destruct H as [z [_ E]]. rewrite E. change (inject_Z 10) with 10%Q.
    destruct (fl_Fin_or_infinite (inject_Z z / 10)) as [Hi | [p Hp]]; [left; exact Hi|].
    right. exists p. split; [exact Hp | exists z; exact Hp].
Qed.

Lemma round3_three_decimals (x : number) : x <> NaN -> three_decimals (round3 x).
Proof.
  intros Hx. unfold round3.
  pose proof (fmul_const_cases x (qz 1000) (qz_pos 1000 eq_refl) Hx) as Hm.
  pose proof (round_div_cases (fmul x (Fin (qz 1000))) 1000 eq_refl) as H.
  destruct (fmul x (Fin (qz 1000))) as [| | |q]; [congruence | | |].
  - rewrite H. left. left. reflexivity.
  - rewrite H. left. right. reflexivity.
  - destruct H as [z [_ E]]. rewrite E. change (inject_Z 1000) with 1000%Q.
    destruct (fl_Fin_or_infinite (inject_Z z / 1000)) as [Hi | [p Hp]]; [left; exact Hi|].
    right. exists p. split; [exact Hp | exists z; exact Hp].
Qed.


(** Bounds that are doubles go through the arithmetic. *)
Lemma fmul_le (a : number) (u c w : Qc) :
  (0 < c)%Qc -> nleb a (Fin u) = true ->
  (u * c <= w)%Q -> (fl_val w == w)%Q -> (w < pow2 1024)%Q ->
  nleb (fmul a (Fin c)) (Fin w) = true.
Proof.
  intros Hc Ha Hw Hd Hmax. destruct a as [| | |q]; try discriminate.
  - cbn [fmul]. rewrite (nsign_pos c Hc). reflexivity.
  - cbn [fmul]. apply fl_le; [|exact Hd | exact Hmax].
    cbn in Ha. apply Qle_bool_iff in Ha.
    unfold Qclt in Hc. change (this 0%Qc) with 0%Q in Hc. nra.
Qed.

Lemma fmul_ge (a : number) (u c w : Qc) :
  (0 < c)%Qc -> nleb (Fin u) a = true ->
  (w <= u * c)%Q -> (fl_val w == w)%Q -> (- pow2 1024 < w)%Q ->
  nleb (Fin w) (fmul a (Fin c)) = true.
Proof.
  intros Hc Ha Hw Hd Hmin. destruct a as [| | |q]; try discriminate.
  - cbn [fmul]. rewrite (nsign_pos c Hc). reflexivity.
  - cbn [fmul]. apply fl_ge; [|exact Hd | exact Hmin].
    cbn in Ha. apply Qle_bool_iff in Ha.
    unfold Qclt in Hc. change (this 0%Qc) with 0%Q in Hc. nra.
Qed.

Lemma fdiv_le (a : number) (u c w : Qc) :
  (0 < c)%Qc -> nleb a (Fin u) = true ->
  (u <= w * c)%Q -> (fl_val w == w)%Q -> (w < pow2 1024)%Q ->
  nleb (fdiv a (Fin c)) (Fin w) = true.
Proof.
  intros Hc Ha Hw Hd Hmax. destruct a as [| | |q]; try discriminate.
  - cbn [fdiv]. rewrite (is_zero_pos c Hc), (nsign_pos c Hc). reflexivity.
  - cbn [fdiv]. rewrite (is_zero_pos c Hc). apply fl_le; [|exact Hd | exact Hmax].
    cbn in Ha. apply Qle_bool_iff in Ha.
    unfold Qclt in Hc. change (this 0%Qc) with 0%Q in Hc.
    apply Qle_shift_div_r; [exact Hc | lra].
Qed.

Lemma fdiv_ge (a : number) (u c w : Qc) :
  (0 < c)%Qc -> nleb (Fin u) a = true ->
  (w * c <= u)%Q -> (fl_val w == w)%Q -> (- pow2 1024 < w)%Q ->
  nleb (Fin w) (fdiv a (Fin c)) = true.
Proof.
  intros Hc Ha Hw Hd Hmin. destruct a as [| | |q]; try discriminate.
  - cbn [fdiv]. rewrite (is_zero_pos c Hc), (nsign_pos c Hc). reflexivity.
  - cbn [fdiv]. rewrite (is_zero_pos c Hc). apply fl_ge; [|exact Hd | exact Hmin].
    cbn in Ha. apply Qle_bool_iff in Ha.
    unfold Qclt in Hc. change (this 0%Qc) with 0%Q in Hc.
    apply Qle_shift_div_l; [exact Hc | lra].
Qed.

Lemma round_half_up_ge (x : Qc) (z : Z) : (qz z <= x)%Qc -> (qz z <= round_half_up x)%Qc.
Proof.
  intros H. unfold round_half_up.
  assert (Hz : (z <= Qfloor (x + half))%Z).
  { rewrite <- (Qfloor_Z z). apply Qfloor_resp_le. to_Q. lra. }
  rewrite Zle_Qle in Hz. to_Q. exact Hz.
Qed.

Lemma Math_round_le (a : number) (z : Z) :
  nleb a (Fin (qz z)) = true -> nleb (Math_round a) (Fin (qz z)) = true.
Proof.
  destruct a as [| | |q]; cbn; auto.
  intros H. apply Qle_bool_iff. apply Qle_bool_iff in H.
  apply (round_half_up_le q z). exact H.
Qed.

Lemma Math_round_ge (a : number) (z : Z) :
  nleb (Fin (qz z)) a = true -> nleb (Fin (qz z)) (Math_round a) = true.
Proof.
  destruct a as [| | |q]; cbn; auto.
  intros H. apply Qle_bool_iff. apply Qle_bool_iff in H.
  apply (round_half_up_ge q z). exact H.
Qed.

(** Side conditions on constants, by computation. *)
Ltac double_const := vm_compute; first [reflexivity | goal_discriminate].

(** ** [pct] and [rat] *)

Lemma pct_eq (v : value) (n : Qc) : num v = Some n -> pct v = Some (round1 (percentage n)).
Proof. intros Hn. unfold pct. rewrite Hn. reflexivity. Qed.

Lemma rat_eq (v : value) (n : Qc) : num v = Some n -> rat v = Some (round3 (Fin n)).
Proof. intros Hn. unfold rat. rewrite Hn. reflexivity. Qed.

Lemma percentage_not_NaN (n : Qc) : percentage n <> NaN.
Proof.
  unfold percentage. destruct (Qle_bool n 1); [|discriminate].
  apply fl_not_NaN.
Qed.

Lemma pct_one_decimal (v : value) (p : number) : pct v = Some p -> one_decimal p.
Proof.
  unfold pct. destruct (num v) as [n|]; [|discriminate].
  intros [= <-]. apply (round1_one_decimal (percentage n)), percentage_not_NaN.
Qed.

Lemma rat_three_decimals (v : value) (p : number) : rat v = Some p -> three_decimals p.
Proof.
  unfold rat. destruct (num v) as [n|]; [|discriminate].
  intros [= <-]. apply (round3_three_decimals (Fin n)). discriminate.
Qed.

Lemma round1_le (x : number) (u : Z) :
  nleb x (Fin (qz u)) = true -> (Z.abs u <= 2 ^ 40)%Z ->
  (fl_val (qz (u * 10)) == qz (u * 10))%Q -> (fl_val (qz u) == qz u)%Q ->
  nleb (round1 x) (Fin (qz u)) = true.
Proof.
  intros Hx Hu D1 D2. unfold round1.
  assert (Hsmall : forall z, (Z.abs z <= 2 ^ 44)%Z -> (qz z < pow2 1024)%Q).
  { intros z Hz. rewrite this_qz. unfold pow2. rewrite <- (Zpower_Qpower 2 1024) by lia.
    rewrite <- Zlt_Qlt. 
    apply Z.le_lt_trans with (2 ^ 44)%Z; [lia | apply Z.pow_lt_mono_r; lia]. }
  apply (fdiv_le _ (qz (u * 10)) (qz 10) (qz u)); [apply qz_pos; lia | | | exact D2 | ].
  - apply Math_round_le.
    apply (fmul_le _ (qz u) (qz 10) (qz (u * 10))); [apply qz_pos; lia | exact Hx | | exact D1 | ].
    + rewrite !this_qz, inject_Z_mult. apply Qle_refl.
    + apply Hsmall. change (2 ^ 44)%Z with (2 ^ 40 * 16)%Z. lia.
  - rewrite !this_qz, inject_Z_mult. apply Qle_refl.
  - apply Hsmall. change (2 ^ 44)%Z with (2 ^ 40 * 16)%Z. lia.
Qed.

Lemma round1_ge (x : number) (u : Z) :
  nleb (Fin (qz u)) x = true -> (Z.abs u <= 2 ^ 40)%Z ->
  (fl_val (qz (u * 10)) == qz (u * 10))%Q -> (fl_val (qz u) == qz u)%Q ->
  nleb (Fin (qz u)) (round1 x) = true.
Proof.
  intros Hx Hu D1 D2. unfold round1.
  assert (Hsmall : forall z, (Z.abs z <= 2 ^ 44)%Z -> (- pow2 1024 < qz z)%Q).
  { intros z Hz. rewrite this_qz. unfold pow2. rewrite <- (Zpower_Qpower 2 1024) by lia.
    rewrite <- inject_Z_opp, <- Zlt_Qlt.
    apply Z.lt_le_trans with (- 2 ^ 44)%Z; [|lia].
    apply Z.opp_lt_mono. rewrite !Z.opp_involutive. apply Z.pow_lt_mono_r; lia. }
  apply (fdiv_ge _ (qz (u * 10)) (qz 10) (qz u)); [apply qz_pos; lia | | | exact D2 | ].
  - apply Math_round_ge.
    apply (fmul_ge _ (qz u) (qz 10) (qz (u * 10))); [apply qz_pos; lia | exact Hx | | exact D1 | ].
    + rewrite !this_qz, inject_Z_mult. apply Qle_refl.
    + apply Hsmall. change (2 ^ 44)%Z with (2 ^ 40 * 16)%Z. lia.
  - rewrite !this_qz, inject_Z_mult. apply Qle_refl.
  - apply Hsmall. change (2 ^ 44)%Z with (2 ^ 40 * 16)%Z. lia.
Qed.

(** C5, the claim as worded fails beyond the precision and the range of
    the doubles: [9007199254740991] is an integer above [1], and [pct]
    returns [9007199254740990], not the number itself; for [1e308] it
    returns [Infinity]. *)
Lemma asPercent_beyond_precision :
  num (qnum 9007199254740991) = Some (qz 9007199254740991) /\
  pct (qnum 9007199254740991) = Some (dbl 9007199254740990) /\
  pct (qnum 9007199254740991) <> Some (dbl 9007199254740991) /\
  (exists n, num (qnum 1e308) = Some n /\ (1 < n)%Qc) /\
  pct (qnum 1e308) = Some PosInf.
Proof.
  split; [qc_eq|]. split; [qc_eq|]. split; [qc_neq|]. split; [|qc_eq].
  exists (Q2Qc (fl_val 1e308)). split; [qc_eq | vm_compute; reflexivity].
Qed.

(** C5, amended.  For an input that coerces to the finite number [n]:
    when [n <= 1] the result of [pct] is the hundredfold of [n], rounded to
    one decimal, and it is at most [100]; otherwise it is [n] rounded to one
    decimal, and at least [1].  The hundredfold and the rounding are those
    of the doubles: rounding [x] to one decimal takes the product [x * 10]
    as the doubles give it, the integer nearest to that product (an exact
    half going up), and the double nearest to the tenth of that integer; an
    infinite product gives an infinity.  At the boundary [pct(1)] is [100];
    also [pct(0.5)] is [50] and [pct(42)] is [42]. *)
Theorem asPercent_fraction_boundary (v : value) (n : Qc) (Hn : num v = Some n) :
  ((n <= 1)%Qc ->
     pct v = Some (round1 (fmul (Fin n) (Fin (qz 100)))) /\
     nleb (round1 (fmul (Fin n) (Fin (qz 100)))) (Fin (qz 100)) = true) /\
  ((1 < n)%Qc ->
     pct v = Some (round1 (Fin n)) /\
     nleb (Fin (qz 1)) (round1 (Fin n)) = true) /\
  (forall x m, fmul x (Fin (qz 10)) = Fin m ->
     exists z : Z, nearest_half_up m z /\ round1 x = fl (inject_Z z / 10)) /\
  (forall x, infinite (fmul x (Fin (qz 10))) -> round1 x = fmul x (Fin (qz 10))) /\
  pct (qnum 1) = Some (dbl 100) /\
  pct (qnum 0.5) = Some (dbl 50) /\
  pct (qnum 42) = Some (dbl 42).
Proof.
  rewrite (pct_eq v n Hn). unfold percentage.
  split; [|split; [|split; [|split; [|split; [|split]]]]]; [ | | | | qc_eq | qc_eq | qc_eq].
  - intros Hle. pose proof (proj2 (Qle_bool_Qc n 1) Hle) as Hb.
    change (this 1%Qc) with 1%Q in Hb.
    rewrite Hb. split; [reflexivity|].
    apply (round1_le _ 100); [| lia | double_const | double_const].
    cbn [fmul]. apply fl_le; [| double_const | double_const].
    unfold Qcle in Hle. change (this 1%Qc) with 1%Q in Hle. rewrite (this_qz 100).
    change (inject_Z 100) with 100%Q. lra.
  - intros Hgt. pose proof (proj2 (Qle_bool_Qc_false n 1) Hgt) as Hb.
    change (this 1%Qc) with 1%Q in Hb.
    rewrite Hb. split; [reflexivity|].
    apply (round1_ge _ 1); [| lia | double_const | double_const].
    cbn. apply Qle_bool_iff. unfold Qclt in Hgt. change (this 1%Qc) with 1%Q in Hgt.
    rewrite (this_qz 1). change (inject_Z 1) with 1%Q. lra.
  - intros x m Hm. unfold round1. rewrite Hm.
    destruct (round_div_finite m 10 eq_refl) as [z [Hz E]].
    exists z. split; [exact Hz | exact E].
  - intros x Hx. unfold round1.
    pose proof (round_div_cases (fmul x (Fin (qz 10))) 10 eq_refl) as H.
    destruct Hx as [Hx | Hx]; rewrite Hx in *; exact H.
Qed.

Lemma asPercent_fraction_boundary_witness :
  num (VStr "0.5") = Some (Q2Qc 0.5) /\
  pct (VStr "0.5") = Some (round1 (fmul (Fin (Q2Qc 0.5)) (Fin (qz 100)))) /\
  nleb (round1 (fmul (Fin (Q2Qc 0.5)) (Fin (qz 100)))) (Fin (qz 100)) = true.
Proof.
  assert (H : num (VStr "0.5") = Some (Q2Qc 0.5)) by qc_eq.
  split; [exact H|].
  apply (proj1 (asPercent_fraction_boundary (VStr "0.5") (Q2Qc 0.5) H)).
  qc_eq.
Defined.

(** C6, the claim as worded fails: the thousandfold of the double
    [-0.0005] is the exact half [-1/2]; rounding half away from zero gives
    [-0.001], and [rat] returns [0].  The same happens at [-0.0625],
    which is a binary fraction, for [rat] and for [pct]. *)
Lemma half_away_fails_at_negative_half :
  num (VStr "-0.0005") = finite_value (dbl (-0.0005)) /\
  fmul (dbl (-0.0005)) (Fin (qz 1000)) = Fin (- half)%Qc /\
  exact_half (- half)%Qc /\
  round_half_away (- half)%Qc = qz (-1) /\
  round_half_up (- half)%Qc = qz 0 /\
  rat (VStr "-0.0005") = Some (Fin (qz 0)) /\
  rat (VStr "-0.0005") <> Some (dbl (-0.001)) /\
  rat (qnum (-0.0625)) = Some (dbl (-0.062)) /\
  fmul (dbl (-0.0625)) (Fin (qz 1000)) = Fin (Q2Qc (-62.5)) /\
  round_half_away (Q2Qc (-62.5)) = qz (-63) /\
  rat (qnum (-0.0625)) <> Some (dbl (-0.063)) /\
  pct (qnum (-0.0625)) = Some (dbl (-6.2)) /\
  pct (qnum (-0.0625)) <> Some (dbl (-6.3)).
Proof.
  repeat split; try qc_eq; try qc_neq.
  exists 0%Z. qc_eq.
Qed.

(** C6, amended.  For an input that coerces to the finite number [n],
    with [p] the percentage that [pct] rounds (the hundredfold of [n] when
    [n <= 1], else [n]): [pct] returns [p] and [rat] returns [n] rounded by
    [Math.round] on the product with [10], respectively [1000], as the
    doubles give that product.  When the product is the finite number [m],
    the result is the double nearest to [z / 10], respectively [z / 1000],
    where [z] is the integer nearest to [m], an exact half going up
    (towards plus infinity); this is rounding half away from zero whenever
    [m] is not negative or is not an exact half.  [rat(1.23456)] is
    [1.235], and [rat(-0.0005)] is [0].  The product is not the exact one:
    the thousandfold of the double [0.5005] is below [500.5], and
    [rat(0.5005)] is [0.5]. *)
Theorem rounding_is_half_up (v : value) (n : Qc) (Hn : num v = Some n) :
  pct v = Some (round1 (percentage n)) /\
  rat v = Some (round3 (Fin n)) /\
  (forall m, fmul (percentage n) (Fin (qz 10)) = Fin m ->
     exists z : Z,
       nearest_half_up m z /\ pct v = Some (fl (inject_Z z / 10)) /\
       ((0 <= m)%Qc \/ ~ exact_half m -> qz z = round_half_away m)) /\
  (forall m, fmul (Fin n) (Fin (qz 1000)) = Fin m ->
     exists z : Z,
       nearest_half_up m z /\ rat v = Some (fl (inject_Z z / 1000)) /\
       ((0 <= m)%Qc \/ ~ exact_half m -> qz z = round_half_away m)) /\
  rat (qnum 1.23456) = Some (dbl 1.235) /\
  rat (qnum (-0.0005)) = Some (Fin (qz 0)) /\
  rat (VStr "0.5005") = Some (dbl 0.5).
Proof.
  rewrite (pct_eq v n Hn), (rat_eq v n Hn).
  split; [reflexivity|]. split; [reflexivity|].
  split; [|split; [|split; [|split]]]; [ | | qc_eq | qc_eq | qc_eq].
  - intros m Hm. unfold round1. rewrite Hm.
    destruct (round_div_finite m 10 eq_refl) as [z [Hz E]].
    exists z. split; [exact Hz|]. split; [now rewrite E|].
    rewrite <- (nearest_half_up_unique m z Hz).
    intros [H|H]; [rewrite round_half_away_nonneg | rewrite round_half_away_inexact]; auto.
  - intros m Hm. unfold round3. rewrite Hm.
    destruct (round_div_finite m 1000 eq_refl) as [z [Hz E]].
    exists z. split; [exact Hz|]. split; [now rewrite E|].
    rewrite <- (nearest_half_up_unique m z Hz).
    intros [H|H]; [rewrite round_half_away_nonneg | rewrite round_half_away_inexact]; auto.
Qed.

Lemma rounding_is_half_up_witness :
  num (VStr "-0.0005") = Some (Q2Qc (fl_val (-0.0005))) /\
  rat (VStr "-0.0005") = Some (round3 (Fin (Q2Qc (fl_val (-0.0005))))).
Proof.
  assert (H : num (VStr "-0.0005") = Some (Q2Qc (fl_val (-0.0005)))) by qc_eq.
  split; [exact H|].
  exact (proj1 (proj2 (rounding_is_half_up (VStr "-0.0005") _ H))).
Defined.

(** C7, the claim as worded fails: [pct("-5")] is [-500], and
    [pct(1e308)] is no number with one decimal but [Infinity]. *)
Lemma asPercent_negative_result :
  pct (VStr "-5") = Some (Fin (qz (-500))) /\ (qz (-500) < 0)%Qc /\
  pct (qnum 1e308) = Some PosInf.
Proof. split; [qc_eq | split; qc_eq]. Qed.

(** C7, amended.  For every input, [pct] is unknown exactly when the
    coercion is.  Otherwise it is a number with one decimal (the double
    nearest to a whole number of tenths) or, when the arithmetic leaves
    the range of the doubles, an infinity; and it has the sign of the
    coerced number: not negative when that number is not negative, and
    not positive when it is not positive. *)
Theorem asPercent_one_decimal_signed (v : value) :
  match pct v with
  | None => num v = None
  | Some p =>
      one_decimal p /\
      exists n : Qc, num v = Some n /\
        ((0 <= n)%Qc -> nleb (Fin 0) p = true) /\
        ((n <= 0)%Qc -> nleb p (Fin 0) = true)
  end.
Proof.
  destruct (pct v) as [p|] eqn:E.
  - split; [eapply pct_one_decimal; eauto|].
    unfold pct in E. destruct (num v) as [n|]; [|discriminate].
    injection E as <-. exists n. split; [reflexivity|].
    fold (percentage n).
    split; intros H.
    + apply fdiv_nonneg; [apply qz_pos; lia|]. apply Math_round_nonneg.
      apply fmul_nonneg; [apply qz_pos; lia|].
      unfold percentage. destruct (Qle_bool n 1).
      * apply (fmul_nonneg (Fin n) (qz 100)); [apply qz_pos; lia|].
        cbn. apply Qle_bool_iff. exact H.
      * cbn. apply Qle_bool_iff. exact H.
    + apply fdiv_nonpos; [apply qz_pos; lia|]. apply Math_round_nonpos.
      apply fmul_nonpos; [apply qz_pos; lia|].
      unfold percentage. destruct (Qle_bool n 1).
      * apply (fmul_nonpos (Fin n) (qz 100)); [apply qz_pos; lia|].
        cbn. apply Qle_bool_iff. exact H.
      * cbn. apply Qle_bool_iff. exact H.
  - unfold pct in E. destruct (num v); [discriminate | reflexivity].
Qed.

Lemma asPercent_one_decimal_signed_witness :
  one_decimal (dbl 42.5) /\ nleb (Fin 0) (dbl 42.5) = true.
Proof.
  pose proof (asPercent_one_decimal_signed (VStr "42.5%")) as H.
  assert (E : pct (VStr "42.5%") = Some (dbl 42.5)) by qc_eq.
  assert (En : num (VStr "42.5%") = Some (Q2Qc 42.5)) by qc_eq.
  rewrite E in H. destruct H as [Ht [n [Hn [Hpos _]]]].
  split; [exact Ht|].
  apply Hpos. rewrite En in Hn. injection Hn as <-. qc_eq.
Defined.

(** ** Whole numbers *)

Section Integers.
Local Open Scope Q_scope.

(** The integers below [2^53] are doubles. *)
Lemma fl_val_int_pos (z : Z) : (0 < z < 2 ^ 53)%Z -> fl_val (inject_Z z) == inject_Z z.
Proof.
  intros [Hlo Hhi].
  assert (Hpos : 0 < inject_Z z) by (change 0 with (inject_Z 0); rewrite <- Zlt_Qlt; lia).
  unfold fl_val. rewrite (proj1 (Qgt_alt _ _) Hpos).
  destruct (ilog2_spec _ Hpos) as [E1 E2].
  set (e := ilog2 (inject_Z z)) in *.
  assert (He0 : (0 <= e)%Z).
  { assert (H : pow2 e < pow2 (e + 1)) by (apply pow2_lt; lia).
    assert (H1 : pow2 0 <= inject_Z z).
    { rewrite (pow2_int 0) by lia. rewrite <- Zle_Qle. change (2 ^ 0)%Z with 1%Z. lia. }
    assert (H2 : pow2 0 < pow2 (e + 1)) by (eapply Qle_lt_trans; eauto).
    apply pow2_lt_inv in H2. lia. }
  assert (He : (e < 53)%Z).
  { apply pow2_lt_inv. eapply Qle_lt_trans; [exact E1|].
    rewrite (pow2_int 53) by lia. rewrite <- Zlt_Qlt. exact Hhi. }
  unfold round_mag, ulp_exp. fold e.
  rewrite Z.max_l by lia.
  set (u := (e - 52)%Z).
  assert (Hu : pow2 u * pow2 (- u) == 1).
  { rewrite <- pow2_add. replace (u + - u)%Z with 0%Z by lia. reflexivity. }
  assert (Hp : 0 < pow2 u) by apply pow2_pos.
  assert (Hq : inject_Z z / pow2 u == inject_Z (z * 2 ^ (- u))).
  { rewrite inject_Z_mult, <- (pow2_int (- u)) by (subst u; lia).
    apply Qmult_inj_r with (z := pow2 u); [lra|].
    unfold Qdiv. rewrite <- !Qmult_assoc.
    rewrite (Qmult_comm (/ pow2 u)), Qmult_inv_r by lra.
    rewrite (Qmult_comm (pow2 (- u))), Hu. reflexivity. }
  rewrite (rne_eq _ _ Hq), rne_int.
  rewrite inject_Z_mult, <- (pow2_int (- u)) by (subst u; lia).
  rewrite <- Qmult_assoc, (Qmult_comm (pow2 (- u))), Hu. ring.
Qed.

Lemma fl_int (z : Z) : (Z.abs z < 2 ^ 53)%Z -> fl (inject_Z z) = Fin (qz z).
Proof.
  intros Hz.
  assert (Hv : fl_val (inject_Z z) == inject_Z z).
  { destruct (Z.lt_trichotomy z 0) as [H | [-> | H]].
    - unfold fl_val.
      assert (Hneg : inject_Z z < 0) by (change 0 with (inject_Z 0); rewrite <- Zlt_Qlt; lia).
      rewrite (proj1 (Qlt_alt _ _) Hneg).
      pose proof (fl_val_int_pos (- z) ltac:(lia)) as P.
      unfold fl_val in P.
      assert (Hpos : 0 < inject_Z (- z))
        by (change 0 with (inject_Z 0); rewrite <- Zlt_Qlt; lia).
      rewrite (proj1 (Qgt_alt _ _) Hpos) in P.
      rewrite <- inject_Z_opp. rewrite P. rewrite inject_Z_opp. ring.
    - reflexivity.
    - apply fl_val_int_pos. lia. }
  assert (Hb : - pow2 1024 < inject_Z z /\ inject_Z z < pow2 1024).
  { assert (H53 : pow2 53 < pow2 1024) by (apply pow2_lt; lia).
    rewrite (pow2_int 53) in H53 by lia.
    assert (H1 : inject_Z z < inject_Z (2 ^ 53)) by (rewrite <- Zlt_Qlt; lia).
    assert (H2 : inject_Z (- 2 ^ 53) < inject_Z z) by (rewrite <- Zlt_Qlt; lia).
    rewrite inject_Z_opp in H2. split; lra. }
  destruct (fl_cases (inject_Z z)) as [[_ H] | [[_ H] | [q [E [Hq _]]]]].
  - exfalso. rewrite Hv in H. lra.
  - exfalso. rewrite Hv in H. lra.
  - rewrite E. f_equal. apply Qc_is_canon. rewrite Hq, Hv. symmetry. apply this_qz.
Qed.

(** Counts add exactly. *)
Lemma fadd_int (a b : Z) :
  (Z.abs (a + b) < 2 ^ 53)%Z -> fadd (Fin (qz a)) (Fin (qz b)) = Fin (qz (a + b)).
Proof.
  intros H. cbn [fadd]. rewrite <- (fl_int (a + b) H).
  apply fl_eq. rewrite !this_qz, inject_Z_plus. reflexivity.
Qed.

End Integers.

(** ** The numeral pattern [/-?\d+(\.\d+)?/] *)

Lemma digit_not_minus (c : ascii) : is_digit c = true -> Ascii.eqb c "-" = false.
Proof.
  intros H. destruct (Ascii.eqb_spec c "-") as [->|]; [discriminate H | reflexivity].
Qed.

Lemma digit_not_dot (c : ascii) : is_digit c = true -> Ascii.eqb c "." = false.
Proof.
  intros H. destruct (Ascii.eqb_spec c ".") as [->|]; [discriminate H | reflexivity].
Qed.

Lemma string_app_assoc (a b c : string) : ((a ++ b) ++ c = a ++ (b ++ c))%string.
Proof. induction a as [|x a IH]; cbn; [reflexivity | now rewrite IH]. Qed.

Lemma string_app_nil_r (a : string) : (a ++ EmptyString)%string = a.
Proof. induction a as [|x a IH]; cbn; [reflexivity | now rewrite IH]. Qed.

Lemma string_length_app (a b : string) :
  String.length (a ++ b) = (String.length a + String.length b)%nat.
Proof. induction a as [|x a IH]; cbn; [reflexivity | now rewrite IH]. Qed.

Lemma substring_prefix (a b : string) : substring 0 (String.length a) (a ++ b) = a.
Proof.
  induction a as [|x a IH]; cbn.
  - destruct b; reflexivity.
  - now rewrite IH.
Qed.

Lemma consumed_app (a b : string) : consumed (a ++ b) b = a.
Proof.
  unfold consumed. rewrite string_length_app.
  replace (String.length a + String.length b - String.length b)%nat
    with (String.length a) by lia.
  apply substring_prefix.
Qed.

Section NumeralMatch.
Context {R : Type}.
Implicit Types k : option ascii -> string -> option R.

Lemma many_stop p least prev s k :
  match s with String c _ => p c | EmptyString => false end = false ->
  many p least prev s k = if (least =? 0)%nat then k prev s else None.
Proof. destruct s as [|c s]; cbn; [reflexivity|]. intros ->. reflexivity. Qed.

Lemma many_digits_run ds :
  forall least prev rest k x,
    all_digits ds = true ->
    starts_with_digit rest = false ->
    (least <= String.length ds)%nat ->
    k (last_char prev ds) rest = Some x ->
    many is_digit least prev (ds ++ rest) k = Some x.
Proof.
  induction ds as [|c ds IH]; intros least prev rest k x Hall Hrest Hlen Hk.
  - cbn in *. rewrite many_stop by exact Hrest.
    replace least with 0%nat by lia. exact Hk.
  - cbn in Hall. apply andb_prop in Hall as [Hc Hds].
    cbn [append many]. rewrite Hc.
    rewrite (IH (pred least) (Some c) rest k x); auto.
    cbn in Hlen. lia.
Qed.

Lemma fraction_here fp post prev cap (k : option ascii -> string -> option string -> option R) x :
  all_digits fp = true ->
  ends_numeral fp post = true ->
  (forall pr, k pr post cap = Some x) ->
  rmatch (ROpt (RSeq (ch ".") digits1)) prev
    (match fp with EmptyString => EmptyString | _ => String "." fp end ++ post) cap k
  = Some x.
Proof.
  intros Hfp Hend Hk. unfold ends_numeral in Hend.
  apply andb_prop in Hend as [Hpost Hfrac]. apply negb_true_iff in Hpost.
  destruct fp as [|c fp].
  - apply negb_true_iff in Hfrac. cbn [append rmatch ch digits1].
    destruct post as [|d post]; [apply Hk|].
    cbn in Hfrac. rewrite Ascii.eqb_sym in Hfrac.
    destruct (Ascii.eqb "." d); [|apply Hk].
    cbn in Hfrac. rewrite many_stop by exact Hfrac. cbn. apply Hk.
  - cbn [append rmatch ch digits1]. rewrite Ascii.eqb_refl.
    change (String c (fp ++ post)) with (String c fp ++ post)%string.
    rewrite (many_digits_run (String c fp) 1 (Some "."%char) post
               (fun pr s' => k pr s' cap) x);
      [reflexivity | exact Hfp | exact Hpost | cbn; lia | apply Hk].
Qed.

Lemma numeral_here neg ip fp post prev cap
      (k : option ascii -> string -> option string -> option R) x :
  ip <> EmptyString ->
  all_digits ip = true ->
  all_digits fp = true ->
  ends_numeral fp post = true ->
  (forall pr, k pr post cap = Some x) ->
  rmatch numeral_re prev (numeral_text neg ip fp ++ post) cap k = Some x.
Proof.
  intros Hne Hip Hfp Hend Hk.
  assert (Hbody : forall pr,
    many is_digit 1 pr
      (ip ++ (match fp with EmptyString => EmptyString | _ => String "." fp end ++ post))
      (fun pr2 s2 => rmatch (ROpt (RSeq (ch ".") digits1)) pr2 s2 cap k) = Some x).
  { intros pr. apply many_digits_run; auto.
    - destruct fp; [|reflexivity]. cbn.
      unfold ends_numeral in Hend. apply andb_prop in Hend as [Hpost _].
      apply negb_true_iff in Hpost. exact Hpost.
    - destruct ip; [congruence | cbn; lia].
    - apply fraction_here; auto. }
  unfold numeral_text. rewrite !string_app_assoc.
  unfold numeral_re. cbn [seq rmatch ch digits1].
  destruct neg.
  - cbn [append]. rewrite Ascii.eqb_refl. rewrite Hbody. reflexivity.
  - cbn [append]. destruct ip as [|c ip]; [congruence|].
    cbn [append]. cbn in Hip. apply andb_prop in Hip as [Hc Hip].
    rewrite Ascii.eqb_sym, (digit_not_minus c Hc).
    change (String c (ip ++ ?t)) with (String c ip ++ t)%string in Hbody.
    apply Hbody.
Qed.

Lemma numeral_fail s prev cap (k : option ascii -> string -> option string -> option R) :
  starts_numeral s = false -> rmatch numeral_re prev s cap k = None.
Proof.
  intros H. unfold numeral_re. cbn [seq rmatch ch digits1].
  destruct s as [|c s]; [reflexivity|].
  cbn in H. apply orb_false_iff in H as [Hc Hminus].
  assert (Hhere : forall pr k', many is_digit 1 pr (String c s) k' = (None : option R)).
  { intros pr k'. rewrite many_stop by exact Hc. reflexivity. }
  rewrite Ascii.eqb_sym.
  destruct (Ascii.eqb c "-"); [|cbv iota; apply Hhere].
  cbn in Hminus. rewrite many_stop by exact Hminus.
  cbv iota. change (1 =? 0)%nat with false. cbv iota. apply Hhere.
Qed.

End NumeralMatch.

Lemma search_eq (r : regex) (prev : option ascii) (s : string) :
  search r prev s =
  match match_here r prev s with
  | Some m => Some m
  | None =>
      match s with
      | String c s' => search r (Some c) s'
      | EmptyString => None
      end
  end.
Proof. destruct s; reflexivity. Qed.

Lemma search_no_digit (s : string) :
  forall prev, no_digit s = true -> search numeral_re prev s = None.
Proof.
  induction s as [|c s IH]; intros prev H; rewrite search_eq; unfold match_here.
  - rewrite numeral_fail; reflexivity.
  - cbn in H. apply andb_prop in H as [Hc Hs]. apply negb_true_iff in Hc.
    rewrite numeral_fail.
    + apply IH. exact Hs.
    + cbn. rewrite Hc. cbn.
      destruct (Ascii.eqb c "-"); [|reflexivity]. cbn.
      destruct s as [|d s]; [reflexivity|].
      cbn in Hs. apply andb_prop in Hs as [Hd _]. apply negb_true_iff in Hd. exact Hd.
Qed.

Lemma search_numeral (pre : string) :
  forall prev neg ip fp post,
    begins_numeral pre neg = true ->
    ip <> EmptyString ->
    all_digits ip = true ->
    all_digits fp = true ->
    ends_numeral fp post = true ->
    search numeral_re prev (pre ++ numeral_text neg ip fp ++ post)
    = Some (numeral_text neg ip fp, None).
Proof.
  induction pre as [|c pre IH]; intros prev neg ip fp post Hpre Hne Hip Hfp Hend;
    rewrite search_eq; unfold match_here.
  - cbn [append].
    rewrite (numeral_here neg ip fp post prev None _ (numeral_text neg ip fp, None));
      auto.
    intros _. rewrite consumed_app. reflexivity.
  - unfold begins_numeral in Hpre. apply andb_prop in Hpre as [Hnd Hminus].
    cbn in Hnd. apply andb_prop in Hnd as [Hc Hnd]. apply negb_true_iff in Hc.
    cbn [append]. rewrite numeral_fail.
    + apply IH; auto. unfold begins_numeral. rewrite Hnd. cbn.
      destruct neg; [reflexivity|]. cbn in *.
      destruct pre; [reflexivity | exact Hminus].
    + cbn. rewrite Hc. cbn.
      destruct (Ascii.eqb c "-") eqn:Ec; [|reflexivity]. cbn.
      destruct pre as [|d pre].
      * cbn [append]. destruct neg; [reflexivity|].
        cbn in Hminus. rewrite Ec in Hminus. discriminate Hminus.
      * cbn in Hnd. apply andb_prop in Hnd as [Hd _]. apply negb_true_iff in Hd.
        exact Hd.
Qed.

(** ** [parseFloat] on a numeral *)

Lemma span_digits_app (a b : string) :
  all_digits a = true -> starts_with_digit b = false -> span_digits (a ++ b) = (a, b).
Proof.
  induction a as [|c a IH]; cbn; intros Ha Hb.
  - destruct b as [|d b]; [reflexivity|]. cbn in Hb. cbn [span_digits].
    rewrite Hb. reflexivity.
  - apply andb_prop in Ha as [Hc Ha]. rewrite Hc, IH; auto.
Qed.

Lemma span_digits_all (a : string) : all_digits a = true -> span_digits a = (a, EmptyString).
Proof.
  intros H. rewrite <- (string_app_nil_r a) at 1. apply span_digits_app; auto.
Qed.

Lemma decimal_shift (b : string) :
  forall acc, decimal acc b = (acc * 10 ^ Z.of_nat (String.length b) + decimal 0 b)%Z.
Proof.
  induction b as [|c b IH]; intros acc.
  - cbn. lia.
  - cbn [decimal String.length]. rewrite IH, (IH (10 * 0 + digit_val c)%Z).
    rewrite Nat2Z.inj_succ, Z.pow_succ_r by lia. ring.
Qed.

Lemma decimal_app (a b : string) :
  forall acc, decimal acc (a ++ b) = decimal (decimal acc a) b.
Proof. induction a as [|c a IH]; intros acc; cbn; [reflexivity | apply IH]. Qed.

Lemma numeral_magnitude (ip fp : string) :
  Q2Qc (Qmake (decimal 0 (ip ++ fp)) (Z.to_pos (10 ^ Z.of_nat (String.length fp))))
  = (qz (decimal 0 ip)
     + Q2Qc (Qmake (decimal 0 fp) (Z.to_pos (10 ^ Z.of_nat (String.length fp)))))%Qc.
Proof.
  apply Qc_is_canon. to_Q.
  rewrite decimal_app, decimal_shift.
  set (n := Z.of_nat (String.length fp)).
  assert (Hpos : (0 < 10 ^ n)%Z) by (apply Z.pow_pos_nonneg; lia).
  unfold Qeq, Qplus, inject_Z. cbn [Qnum Qden].
  rewrite Pos.mul_1_l, Z2Pos.id by exact Hpos. ring.
Qed.

Lemma parseFloat_numeral (neg : bool) (ip fp : string) :
  ip <> EmptyString ->
  all_digits ip = true ->
  all_digits fp = true ->
  parseFloat (numeral_text neg ip fp) = fl (numeral_value neg ip fp).
Proof.
  intros Hne Hip Hfp.
  assert (Hspan : span_digits
            (ip ++ match fp with EmptyString => EmptyString | _ => String "." fp end)
          = (ip, match fp with EmptyString => EmptyString | _ => String "." fp end)).
  { apply span_digits_app; [exact Hip|]. destruct fp; reflexivity. }
  assert (Hfrac : match match fp with EmptyString => EmptyString | _ => String "." fp end with
                  | String c t => if Ascii.eqb c "." then fst (span_digits t) else EmptyString
                  | EmptyString => EmptyString
                  end = fp).
  { destruct fp as [|d fp]; [reflexivity|].
    rewrite Ascii.eqb_refl, span_digits_all by exact Hfp. reflexivity. }
  pose proof (f_equal this (numeral_magnitude ip fp)) as Hmag.
  cbn [this Q2Qc] in Hmag.
  unfold parseFloat, numeral_text, numeral_value.
  destruct neg; cbn [append].
  - rewrite Ascii.eqb_refl, Hspan, Hfrac.
    destruct ip as [|c ip]; [congruence|].
    apply fl_eq. rewrite this_opp, <- Hmag. rewrite Qred_correct. reflexivity.
  - destruct ip as [|c ip]; [congruence|].
    cbn [append]. cbn in Hip. apply andb_prop in Hip as [Hc Hip].
    rewrite (digit_not_minus c Hc).
    change (String c (ip ++ ?t)) with (String c ip ++ t)%string.
    rewrite Hspan, Hfrac.
    apply fl_eq. rewrite <- Hmag. rewrite Qred_correct. reflexivity.
Qed.

Lemma no_digit_ends_numeral (fp post : string) :
  no_digit post = true -> ends_numeral fp post = true.
Proof.
  intros H. unfold ends_numeral.
  destruct post as [|c post]; [destruct fp; reflexivity|].
  cbn in H. apply andb_prop in H as [Hc Hpost]. cbn. rewrite Hc. cbn.
  destruct fp; [|reflexivity].
  destruct (Ascii.eqb c "."); [|reflexivity]. cbn.
  destruct post as [|d post]; [reflexivity|].
  cbn in Hpost. apply andb_prop in Hpost as [Hd _]. cbn. rewrite Hd. reflexivity.
Qed.

Lemma num_first_numeral (pre : string) (neg : bool) (ip fp post : string) :
  begins_numeral pre neg = true ->
  ip <> EmptyString ->
  all_digits ip = true ->
  all_digits fp = true ->
  ends_numeral fp post = true ->
  num (VStr (pre ++ numeral_text neg ip fp ++ post))
  = finite_value (fl (numeral_value neg ip fp)).
Proof.
  intros Hpre Hne Hip Hfp Hend. unfold num, js_match.
  rewrite search_numeral by assumption.
  rewrite parseFloat_numeral by assumption.
  destruct (fl (numeral_value neg ip fp)); reflexivity.
Qed.

(** The digits of a numeral stay below the power of ten of their number. *)
Lemma decimal_bound (s : string) :
  all_digits s = true ->
  forall acc, (0 <= acc)%Z ->
  (0 <= decimal acc s < (acc + 1) * 10 ^ Z.of_nat (String.length s))%Z.
Proof.
  induction s as [|c s IH]; intros Hs acc Hacc.
  - cbn. lia.
  - cbn in Hs. apply andb_prop in Hs as [Hc Hs].
    assert (Hd : (0 <= digit_val c <= 9)%Z).
    { unfold digit_val, is_digit in *. apply andb_prop in Hc as [H1 H2].
      apply Nat.leb_le in H1, H2. lia. }
    cbn [decimal String.length].
    specialize (IH Hs (10 * acc + digit_val c)%Z ltac:(lia)).
    rewrite Nat2Z.inj_succ, Z.pow_succ_r by lia.
    assert (Hp : (0 < 10 ^ Z.of_nat (String.length s))%Z) by (apply Z.pow_pos_nonneg; lia).
    nia.
Qed.

Lemma numeral_value_bound (neg : bool) (ip fp : string) :
  all_digits ip = true -> all_digits fp = true ->
  (Qabs (numeral_value neg ip fp) <= inject_Z (10 ^ Z.of_nat (String.length ip)))%Q.
Proof.
  intros Hip Hfp.
  pose proof (decimal_bound ip Hip 0%Z ltac:(lia)) as Bi.
  pose proof (decimal_bound fp Hfp 0%Z ltac:(lia)) as Bf.
  set (a := decimal 0 ip) in *. set (b := decimal 0 fp) in *.
  set (P := (10 ^ Z.of_nat (String.length ip))%Z) in *.
  set (F := (10 ^ Z.of_nat (String.length fp))%Z) in *.
  assert (HF : (0 < F)%Z) by (apply Z.pow_pos_nonneg; lia).
  assert (Hfrac : (0 <= b # Z.to_pos F)%Q /\ (b # Z.to_pos F <= 1)%Q).
  { unfold Qle. cbn [Qnum Qden]. rewrite Z2Pos.id by exact HF. lia. }
  assert (Ha : (0 <= inject_Z a)%Q /\ (inject_Z a + 1 <= inject_Z P)%Q).
  { split; [change 0%Q with (inject_Z 0); rewrite <- Zle_Qle; lia|].
    change 1%Q with (inject_Z 1). rewrite <- inject_Z_plus, <- Zle_Qle. lia. }
  apply Qabs_Qle_condition.
  unfold numeral_value. destruct neg; to_Q; fold a b F; split; lra.
Qed.

(** A numeral of at most 308 digits before the dot is within the range of
    the doubles. *)
Lemma short_numeral_finite (neg : bool) (ip fp : string) :
  all_digits ip = true -> all_digits fp = true ->
  (String.length ip <= 308)%nat ->
  exists q : Qc, fl (numeral_value neg ip fp) = Fin q.
Proof.
  intros Hip Hfp Hlen.
  pose proof (numeral_value_bound neg ip fp Hip Hfp) as Hb.
  assert (Hp : (inject_Z (10 ^ Z.of_nat (String.length ip)) <= inject_Z (10 ^ 308))%Q).
  { rewrite <- Zle_Qle. apply Z.pow_le_mono_r; lia. }
  apply Qabs_Qle_condition in Hb. destruct Hb as [Hlo Hhi].
  set (x := this (numeral_value neg ip fp)) in *.
  assert (H1 : (fl_val x <= fl_val (inject_Z (10 ^ 308)))%Q) by (apply fl_val_mono; lra).
  assert (H2 : (fl_val (- inject_Z (10 ^ 308)) <= fl_val x)%Q) by (apply fl_val_mono; lra).
  assert (H3 : (fl_val (inject_Z (10 ^ 308)) < pow2 1024)%Q) by (vm_compute; reflexivity).
  assert (H4 : (- pow2 1024 < fl_val (- inject_Z (10 ^ 308)))%Q) by (vm_compute; reflexivity).
  destruct (fl_cases x) as [[_ H] | [[_ H] | [q [E _]]]]; [exfalso; lra | exfalso; lra |].
  exists q. exact E.
Qed.

(** C8.  [num] is a total function.  A finite number is returned as it
    is; NaN and the infinities give unknown; so do [undefined], [null],
    booleans, arrays and objects.  A string without a digit holds no
    numeral and gives unknown.  In a string, the first numeral (an optional
    minus sign, digits, and an optional dot with digits, taken as long as
    possible) after text without digits is the one that is read; it is
    parsed to the double nearest to the decimal that is written, and that
    double is returned if it is finite, else unknown; in particular this
    is so when the rest of the string holds no digit either, that is, when
    the numeral is the only one.  The parse is finite whenever the numeral
    has at most 308 digits before the dot; ["9007199254740993"] is read as
    [9007199254740992], and a one followed by 309 zeros gives unknown. *)
Theorem coerce_total_first_numeral :
  (forall q : Qc, num (VNum (Fin q)) = Some q) /\
  num (VNum NaN) = None /\ num (VNum PosInf) = None /\ num (VNum NegInf) = None /\
  num VUndefined = None /\ num VNull = None /\
  (forall b, num (VBool b) = None) /\
  (forall items, num (VArr items) = None) /\
  (forall fields, num (VObj fields) = None) /\
  (forall s, no_digit s = true -> num (VStr s) = None) /\
  (forall pre neg ip fp post,
     begins_numeral pre neg = true ->
     ip <> EmptyString -> all_digits ip = true -> all_digits fp = true ->
     ends_numeral fp post = true ->
     parseFloat (numeral_text neg ip fp) = fl (numeral_value neg ip fp) /\
     num (VStr (pre ++ numeral_text neg ip fp ++ post))
     = finite_value (fl (numeral_value neg ip fp))) /\
  (forall pre neg ip fp post,
     begins_numeral pre neg = true ->
     ip <> EmptyString -> all_digits ip = true -> all_digits fp = true ->
     no_digit post = true ->
     num (VStr (pre ++ numeral_text neg ip fp ++ post))
     = finite_value (fl (numeral_value neg ip fp))) /\
  (forall neg ip fp,
     all_digits ip = true -> all_digits fp = true -> (String.length ip <= 308)%nat ->
     exists q : Qc, fl (numeral_value neg ip fp) = Fin q) /\
  num (VStr "9007199254740993") = Some (qz 9007199254740992) /\
  num (VStr (String "1" (zeros 309))) = None.
Proof.
  split; [reflexivity|]. do 8 (split; [reflexivity|]).
  split.
  { intros s Hs. unfold num, js_match. rewrite search_no_digit by exact Hs. reflexivity. }
  split.
  { intros. split; [apply parseFloat_numeral | apply num_first_numeral]; assumption. }
  split.
  { intros. apply num_first_numeral; auto using no_digit_ends_numeral. }
  split.
  { intros. apply short_numeral_finite; assumption. }
  split; [qc_eq | vm_compute; reflexivity].
Qed.

Lemma coerce_total_first_numeral_witness :
  num (VStr "abc -12.50xyz 7") = finite_value (fl (numeral_value true "12" "50")) /\
  num (VStr "abc -12.50xyz 7") = Some (Q2Qc (-12.5)) /\
  num (VStr "about 42%") = finite_value (fl (numeral_value false "42" EmptyString)) /\
  num (VStr "n/a") = None.
Proof.
  destruct coerce_total_first_numeral
    as (_ & _ & _ & _ & _ & _ & _ & _ & _ & Hnone & Hfirst & Hone & _).
  split; [|split; [|split]].
  - apply (Hfirst "abc " true "12" "50" "xyz 7"); try reflexivity. discriminate.
  - qc_eq.
  - apply (Hone "about " false "42" EmptyString "%"); try reflexivity. discriminate.
  - apply (Hnone "n/a"). reflexivity.
Defined.

(** ** [getCSV] and the index it keeps on the row *)

Lemma get_own_defineHidden (k : string) (v : value) (o : jsobject) :
  get_own (defineHidden k v o) k = v.
Proof.
  unfold get_own, own.
  induction o as [|p o IH]; cbn.
  - rewrite String.eqb_refl. reflexivity.
  - destruct (String.eqb k (pkey p)) eqn:E; cbn.
    + rewrite String.eqb_refl. reflexivity.
    + rewrite E. exact IH.
Qed.

Lemma with_index_truthy (o : jsobject) :
  truthy (get_own (with_index o) "__normIndex") = true.
Proof.
  unfold with_index.
  destruct (truthy (get_own o "__normIndex")) eqn:E; [exact E|].
  rewrite get_own_defineHidden. reflexivity.
Qed.

Lemma with_index_idem (o : jsobject) : with_index (with_index o) = with_index o.
Proof.
  unfold with_index at 1. rewrite with_index_truthy. reflexivity.
Qed.

Lemma getCSV_snd (csv : option jsobject) (aliases : list string) :
  snd (getCSV csv aliases) = indexed csv.
Proof. destruct csv; reflexivity. Qed.

Lemma getCSV_indexed (csv : option jsobject) (aliases : list string) :
  getCSV (indexed csv) aliases = getCSV csv aliases.
Proof.
  destruct csv as [o|]; [|reflexivity].
  cbn. rewrite with_index_idem. reflexivity.
Qed.

Lemma indexed_idem (csv : option jsobject) : indexed (indexed csv) = indexed csv.
Proof. destruct csv as [o|]; [|reflexivity]. cbn. now rewrite with_index_idem. Qed.

Lemma getCSV_same_view (csv s : option jsobject) (aliases : list string) :
  same_view csv s -> getCSV s aliases = (lookupCSV csv aliases, indexed csv).
Proof.
  intros [-> | ->].
  - unfold lookupCSV. rewrite <- getCSV_snd with (aliases := aliases).
    destruct (getCSV csv aliases); reflexivity.
  - rewrite getCSV_indexed. unfold lookupCSV.
    rewrite <- getCSV_snd with (aliases := aliases).
    destruct (getCSV csv aliases); reflexivity.
Qed.

Lemma defineHidden_fresh (k : string) (v : value) (o : jsobject) :
  own o k = None -> defineHidden k v o = o ++ [mkProp k v false].
Proof.
  unfold own. induction o as [|p o IH]; cbn; [reflexivity|].
  destruct (String.eqb k (pkey p)); [discriminate|].
  intros H. now rewrite IH.
Qed.

Lemma entries_with_index (o : jsobject) :
  own o "__normIndex" = None -> entries (with_index o) = entries o.
Proof.
  intros H. unfold with_index.
  destruct (truthy (get_own o "__normIndex")); [reflexivity|].
  rewrite defineHidden_fresh by exact H.
  unfold entries. rewrite filter_app, map_app. cbn. apply app_nil_r.
Qed.

(** Without a property of its own called [__normIndex], a row shows the
    same entries after any number of lookups, and every lookup finds what
    it finds on the row as first seen. *)
Lemma lookups_frame (o : jsobject) (queries : list (list string)) :
  own o "__normIndex" = None ->
  fst (lookups (Some o) queries) = map (lookupCSV (Some o)) queries /\
  option_map entries (snd (lookups (Some o) queries)) = Some (entries o).
Proof.
  intros Hfresh.
  assert (Hgen : forall s, same_view (Some o) s ->
            fst (lookups s queries) = map (lookupCSV (Some o)) queries /\
            same_view (Some o) (snd (lookups s queries))).
  { induction queries as [|q rest IH]; intros s Hs; cbn [lookups].
    - split; [reflexivity | exact Hs].
    - rewrite (getCSV_same_view _ _ q Hs).
      destruct (IH (indexed (Some o))) as [IH1 IH2]; [right; reflexivity|].
      destruct (lookups (indexed (Some o)) rest) as [vs s2].
      cbn in *. split; [now rewrite IH1 | exact IH2]. }
  destruct (Hgen (Some o)) as [H1 H2]; [left; reflexivity|].
  split; [exact H1|].
  destruct H2 as [-> | ->]; cbn; [reflexivity|].
  now rewrite entries_with_index.
Qed.

(** ** The row does not depend on the state of the index *)

Section Agreement.
Variable csv : option jsobject.
Let look := lookupCSV csv.

Lemma agrees_ret {T : Type} (x : T) :
  agrees csv (ret (M := Shared) x) (ret (M := Viewed) (Lookup := ViewLookup look) x).
Proof. intros s Hs. split; [reflexivity | exact Hs]. Qed.

Lemma agrees_bind {T U : Type} (m : Shared T) (x : T) (f : T -> Shared U) (g : T -> U) :
  agrees csv m x ->
  (forall y, agrees csv (f y) (g y)) ->
  agrees csv (bind (M := Shared) m f) (bind (M := Viewed) (Lookup := ViewLookup look) x g).
Proof.
  intros Hm Hf s Hs. cbn.
  destruct (Hm s Hs) as [Hx Hs1].
  destruct (m s) as [y s1]. cbn in *. subst y.
  apply Hf. exact Hs1.
Qed.

Lemma agrees_csvGet (aliases : list string) :
  agrees csv (csvGet (M := Shared) aliases)
             (csvGet (M := Viewed) (Lookup := ViewLookup look) aliases).
Proof.
  intros s Hs. cbn. rewrite (getCSV_same_view csv s aliases Hs).
  split; [reflexivity | right; reflexivity].
Qed.

Lemma agrees_numCSV (aliases : list string) :
  agrees csv (numCSV (L := SharedLookup) aliases) (numCSV (L := ViewLookup look) aliases).
Proof. apply agrees_bind; [apply agrees_csvGet | intros y; apply agrees_ret]. Qed.

Lemma agrees_pctCSV (aliases : list string) :
  agrees csv (pctCSV (L := SharedLookup) aliases) (pctCSV (L := ViewLookup look) aliases).
Proof. apply agrees_bind; [apply agrees_csvGet | intros y; apply agrees_ret]. Qed.

Lemma agrees_ratCSV (aliases : list string) :
  agrees csv (ratCSV (L := SharedLookup) aliases) (ratCSV (L := ViewLookup look) aliases).
Proof. apply agrees_bind; [apply agrees_csvGet | intros y; apply agrees_ret]. Qed.

Lemma agrees_orElse {T : Type} (a : option T) (b : Shared (option T)) (b' : option T) :
  agrees csv b b' ->
  agrees csv (orElse (L := SharedLookup) a b) (orElse (L := ViewLookup look) a b').
Proof. intros Hb. destruct a; [apply agrees_ret | exact Hb]. Qed.

Lemma agrees_orElseV (a : value) (b : Shared value) (b' : value) :
  agrees csv b b' ->
  agrees csv (orElseV (L := SharedLookup) a b) (orElseV (L := ViewLookup look) a b').
Proof. intros Hb. unfold orElseV. destruct (nullish a); [exact Hb | apply agrees_ret]. Qed.

Ltac agree_step :=
  first
    [ apply agrees_ret
    | apply agrees_csvGet
    | apply agrees_numCSV
    | apply agrees_pctCSV
    | apply agrees_ratCSV
    | apply agrees_orElse
    | apply agrees_orElseV
    | apply agrees_bind; [ | intros ?; cbv beta zeta ]
    | match goal with
      | |- agrees _ (match ?x with _ => _ end) _ => destruct x
      | |- agrees _ (bind (match ?x with _ => _ end) _) _ => destruct x
      end ].

Lemma buildRow_agrees (numberToString : number -> string) (row : CsvInputRow) :
  agrees csv (buildRow (L := SharedLookup) numberToString row)
             (rowOf numberToString look row).
Proof.
  unfold rowOf, buildRow. cbv zeta.
  repeat agree_step.
Qed.

End Agreement.

Lemma buildRow_rowOf (numberToString : number -> string) (row : CsvInputRow)
      (csv : option jsobject) :
  fst (buildRow (L := SharedLookup) numberToString row csv)
  = rowOf numberToString (lookupCSV csv) row.
Proof. apply (buildRow_agrees csv numberToString row csv). left. reflexivity. Qed.

(** ** The fields of a row, one by one *)

Section Fields.
Variable numberToString : number -> string.
Variable look : list string -> value.
Variable row : CsvInputRow.

Let r := source row.
Let out := rowOf numberToString look row.
Let parsed := parseFromReasons numberToString (reasons out).

Lemma rowOf_identity : username out = in_username row.
Proof. reflexivity. Qed.

Lemma rowOf_reasons :
  reasons out =
  match get r "reasons" with
  | VArr items => VStr (join "; " (map (elemStr numberToString) items))
  | VStr s => VStr s
  | _ => coalesce (look A.reasons) (VStr EmptyString)
  end.
Proof. subst out r. unfold rowOf, buildRow, source. destruct (get _ "reasons"); reflexivity. Qed.

Lemma rowOf_counts :
  tourn_games out = resolved num r look ["tournament.games"; "t.games"; "tourn.games"] A.tGames /\
  tourn_wins out = resolved num r look ["tournament.wins"; "t.wins"; "tourn.wins"] A.tWins /\
  tourn_draws out = resolved num r look ["tournament.draws"; "t.draws"; "tourn.draws"] A.tDraws /\
  tourn_losses out
    = resolved num r look ["tournament.losses"; "t.losses"; "tourn.losses"] A.tLosses /\
  non_tourn_games out = resolved num r look ["non_tournament.games"; "nt.games"] A.ntGames /\
  non_tourn_wins out = resolved num r look ["non_tournament.wins"; "nt.wins"] A.ntWins /\
  non_tourn_draws out = resolved num r look ["non_tournament.draws"; "nt.draws"] A.ntDraws /\
  non_tourn_losses out
    = resolved num r look ["non_tournament.losses"; "nt.losses"] A.ntLosses.
Proof. repeat split; reflexivity. Qed.

Lemma rowOf_rates :
  tourn_win_rate out
    = fillRate (resolved pct r look ["tournament.win_rate"; "t.win_rate"] A.tWR)
               (tourn_wins out) (tourn_games out) /\
  non_tourn_win_rate out
    = fillRate (resolved pct r look ["non_tournament.win_rate"; "nt.win_rate"] A.ntWR)
               (non_tourn_wins out) (non_tourn_games out) /\
  short_win_rate out
    = resolved pct r look ["ratios.short_win_rate"; "short_win_rate"] A.shortWinRate /\
  timeout_win_ratio out
    = resolved pct r look ["ratios.timeout_win_ratio"; "timeout_win_ratio"]
               A.timeoutWinRatio /\
  t_self_bail_loss_ratio out
    = resolved pct r look ["ratios.self_bail_loss_ratio_t"] A.tSelfBail /\
  nt_self_bail_loss_ratio out
    = resolved3 pct r look ["ratios.self_bail_loss_ratio_nt"] A.ntSelfBail
                (p_ntSelfBail parsed).
Proof. repeat split; reflexivity. Qed.

Lemma rowOf_recent :
  recent_games out
    = opt_or (known (resolved3 num r look
                       ["totals.games"; "lifetime_games"; "recent.games"; "games"]
                       A.recentGames (p_games parsed)))
             (sumNN (known (tourn_games out)) (known (non_tourn_games out))) /\
  recent_wins out
    = opt_or (known (resolved num r look ["totals.wins"; "wins"] A.recentWins))
             (sumNN (known (tourn_wins out)) (known (non_tourn_wins out))) /\
  recent_draws out
    = opt_or (known (resolved num r look ["totals.draws"; "draws"] A.recentDraws))
             (sumNN (known (tourn_draws out)) (known (non_tourn_draws out))) /\
  recent_losses out
    = opt_or (known (resolved num r look ["totals.losses"; "losses"] A.recentLosses))
             (sumNN (known (tourn_losses out)) (known (non_tourn_losses out))).
Proof. repeat split; reflexivity. Qed.

Lemma rowOf_elo :
  elo_gain out = resolved num r look ["totals.elo.gain"; "elo.gain"] A.eloGain /\
  elo_loss out = resolved num r look ["totals.elo.loss"; "elo.loss"] A.eloLoss /\
  elo_ratio out
    = resolved3 rat r look ["totals.elo.ratio"; "elo.ratio"] A.eloRatio (p_elo parsed) /\
  tourn_elo_gain out
    = resolved num r look ["tournament.elo.gain"; "t.elo.gain"] A.tEloGain /\
  tourn_elo_loss out
    = resolved num r look ["tournament.elo.loss"; "t.elo.loss"] A.tEloLoss /\
  tourn_elo_ratio out
    = resolved3 rat r look ["tournament.elo.ratio"; "t.elo.ratio"] A.tEloRatio
                (p_tElo parsed) /\
  non_tourn_elo_gain out
    = resolved num r look ["non_tournament.elo.gain"; "nt.elo.gain"] A.ntEloGain /\
  non_tourn_elo_loss out
    = resolved num r look ["non_tournament.elo.loss"; "nt.elo.loss"] A.ntEloLoss /\
  non_tourn_elo_ratio out
    = resolved3 rat r look ["non_tournament.elo.ratio"; "nt.elo.ratio"] A.ntEloRatio
                (p_ntElo parsed).
Proof. repeat split; reflexivity. Qed.

Lemma rowOf_gaps :
  wr_gap out
    = match tourn_win_rate out, non_tourn_win_rate out with
      | Some t, Some nt => Some (round1 (fsub t nt))
      | _, _ => pct (look A.wrGap)
      end /\
  elo_ratio_gap out
    = match tourn_elo_ratio out, non_tourn_elo_ratio out with
      | Some t, Some nt => rat (VNum (fsub t nt))
      | _, _ => opt_or (rat (look A.eloRatioGap)) (p_gap parsed)
      end.
Proof. split; reflexivity. Qed.

Lemma rowOf_raw :
  suspicion_score out
    = coalesce (pick r ["suspicion_score"; "suspicion.score"])
               (ofNum (known (num (look A.suspicion)))) /\
  win_streak out = coalesce (coalesce (look A.streak) (pick r ["streak"])) VNull /\
  max_win_streak out
    = coalesce (coalesce (look A.maxStreak) (pick r ["max_streak"])) VNull /\
  upset_wins out
    = (let found := coalesce (look A.upsetWins) (pick r ["upset_wins"]) in
       match p_upsets parsed with
       | Some u => if nullish found then VNum (Fin u) else found
       | None => found
       end).
Proof. repeat split; reflexivity. Qed.

End Fields.

(** ** Properties of the reconciled row *)

Lemma opt_all_opt_or {T : Type} (P : T -> Prop) (a b : option T) :
  opt_all P a -> opt_all P b -> opt_all P (opt_or a b).
Proof. destruct a; auto. Qed.

Lemma opt_all_pct (v : value) : opt_all one_decimal (pct v).
Proof. destruct (pct v) eqn:E; cbn; [eapply pct_one_decimal; eauto | exact I]. Qed.

Lemma opt_all_rat (v : value) : opt_all three_decimals (rat v).
Proof. destruct (rat v) eqn:E; cbn; [eapply rat_three_decimals; eauto | exact I]. Qed.

Lemma opt_all_on_group1 {T : Type} (P : T -> Prop) (f : value -> option T)
      (m : option match_result) :
  (forall v, opt_all P (f v)) -> opt_all P (on_group1 f m).
Proof. intros H. destruct m as [[m0 [g|]]|]; cbn; auto. Qed.

Lemma fdiv_finite_not_NaN (w g : Qc) : is_zero g = false -> fdiv (Fin w) (Fin g) <> NaN.
Proof.
  intros Hg. unfold is_zero in Hg. cbn [fdiv]. rewrite Hg. apply fl_not_NaN.
Qed.

Lemma fillRate_eq (w g : Qc) :
  negb (is_zero g) && positive g = true ->
  fillRate None (Some w) (Some g)
  = Some (round1 (fmul (fdiv (Fin w) (Fin g)) (Fin (qz 100)))).
Proof. intros H. unfold fillRate. rewrite H. reflexivity. Qed.

Lemma opt_all_fillRate (wr : option number) (wins games : option Qc) :
  opt_all one_decimal wr -> opt_all one_decimal (fillRate wr wins games).
Proof.
  intros H. unfold fillRate.
  destruct wr; [exact H|].
  destruct wins as [w|]; [|exact I]. destruct games as [g|]; [|exact I].
  destruct (negb (is_zero g) && positive g) eqn:E; [|exact I].
  apply andb_prop in E as [E _]. apply negb_true_iff in E.
  apply (round1_one_decimal (fmul (fdiv (Fin w) (Fin g)) (Fin (qz 100)))).
  apply fmul_const_cases; [apply qz_pos; reflexivity|].
  apply fdiv_finite_not_NaN. exact E.
Qed.

Lemma opt_all_known (P : number -> Prop) (a : option Qc) :
  (forall q, P (Fin q)) -> opt_all P (known a).
Proof. intros H. destruct a; cbn; auto. Qed.

Lemma opt_all_sumNN_known (a b : option Qc) : opt_all not_NaN (sumNN (known a) (known b)).
Proof. destruct a, b; cbn; auto. apply fl_not_NaN. Qed.

Lemma pick_nullish (r : value) (paths : list string) :
  nullish (pick r paths) = true -> pick r paths = VUndefined.
Proof.
  induction paths as [|p ps IH]; cbn [pick]; [reflexivity|].
  destruct (nullish (descend r p)) eqn:E; [exact IH|].
  intros H. congruence.
Qed.

Create HintDb rounded.
#[local] Hint Resolve opt_all_opt_or opt_all_pct opt_all_rat opt_all_fillRate
  opt_all_on_group1 : rounded.

(** C9.  Each of the recent totals is the direct value of tiers 1 to 3
    when there is one, and otherwise the sum of the tournament and the
    non-tournament value; the sum is unknown as soon as one of the two is.
    The sum is the one of the doubles, which is the exact sum for whole
    numbers below [2^53].  With tournament games [10], nothing else and no
    side table, recent games are unknown. *)
Theorem aggregate_from_splits (numberToString : number -> string) (row : CsvInputRow)
        (csv : option jsobject) :
  let out := fst (buildRow (L := SharedLookup) numberToString row csv) in
  let r := source row in
  let look := lookupCSV csv in
  let parsed := parseFromReasons numberToString (reasons out) in
  recent_games out
    = opt_or (known (resolved3 num r look
                       ["totals.games"; "lifetime_games"; "recent.games"; "games"]
                       A.recentGames (p_games parsed)))
             (sumNN (known (tourn_games out)) (known (non_tourn_games out))) /\
  recent_wins out
    = opt_or (known (resolved num r look ["totals.wins"; "wins"] A.recentWins))
             (sumNN (known (tourn_wins out)) (known (non_tourn_wins out))) /\
  recent_draws out
    = opt_or (known (resolved num r look ["totals.draws"; "draws"] A.recentDraws))
             (sumNN (known (tourn_draws out)) (known (non_tourn_draws out))) /\
  recent_losses out
    = opt_or (known (resolved num r look ["totals.losses"; "losses"] A.recentLosses))
             (sumNN (known (tourn_losses out)) (known (non_tourn_losses out))) /\
  (forall x y, sumNN (Some x) (Some y) = Some (fadd x y)) /\
  (forall x y : Qc, fadd (Fin x) (Fin y) = fl (x + y)) /\
  (forall a b : Z, (Z.abs (a + b) < 2 ^ 53)%Z ->
     sumNN (Some (Fin (qz a))) (Some (Fin (qz b))) = Some (Fin (qz (a + b)))) /\
  (forall b, sumNN None b = None) /\
  (forall a, sumNN a None = None) /\
  (let lone := fst (buildRow (L := SharedLookup) numberToString tournament_only None) in
   tourn_games lone = Some (qz 10) /\ non_tourn_games lone = None /\
   recent_games lone = None).
Proof.
  cbv zeta. rewrite buildRow_rowOf.
  pose proof (rowOf_recent numberToString (lookupCSV csv) row) as (Hg & Hw & Hd & Hl).
  split; [exact Hg|]. split; [exact Hw|]. split; [exact Hd|]. split; [exact Hl|].
  split; [reflexivity|]. split; [reflexivity|].
  split; [intros a b H; cbn [sumNN]; now rewrite fadd_int|].
  split; [reflexivity|]. split; [intros [a|]; reflexivity|].
  split; [qc_eq|]. split; vm_compute; reflexivity.
Qed.

Lemma aggregate_from_splits_witness :
  sumNN (Some (Fin (qz 10))) (Some (Fin (qz 5))) = Some (Fin (qz 15)).
Proof.
  destruct (aggregate_from_splits printSpecial tournament_only None)
    as (_ & _ & _ & _ & _ & _ & H & _).
  apply (H 10%Z 5%Z). vm_compute. reflexivity.
Defined.

(** C1.  For the structured source
    [{tournament:{games:10,wins:7}, non_tournament:{games:5,wins:1}}] with
    the narrative "flagged over 15 games (gap 0.42)" (as a string, or as
    an array with that one phrase) and no side-table row, the call returns
    one row, in which recent games are [15] (the count that the narrative
    states, which is also the sum of the splits), the tournament win rate is
    [70] (no direct win rate resolves, and [7 / 10 * 100] is rounded to one
    decimal), and the elo-ratio gap is [0.42] (neither elo ratio is known
    and the narrative holds the gap). *)
Theorem end_to_end_scenario (numberToString : number -> string)
        (localeCompare : string -> string -> Z) (name : string) :
  forall result, result = scenario_result \/ result = scenario_result_phrases ->
  exists out,
    fst (buildDownloadCsvRowsStrict numberToString localeCompare
           [mkInput name result] []) = [out] /\
    username out = name /\
    recent_games out = Some (Fin (qz 15)) /\
    p_games (parseFromReasons numberToString (reasons out)) = Some (qz 15) /\
    sumNN (known (tourn_games out)) (known (non_tourn_games out)) = Some (Fin (qz 15)) /\
    resolved pct (source (mkInput name result)) (lookupCSV None)
      ["tournament.win_rate"; "t.win_rate"] A.tWR = None /\
    tourn_win_rate out
      = Some (round1 (fmul (fdiv (Fin (qz 7)) (Fin (qz 10))) (Fin (qz 100)))) /\
    tourn_win_rate out = Some (Fin (qz 70)) /\
    tourn_elo_ratio out = None /\ non_tourn_elo_ratio out = None /\
    p_gap (parseFromReasons numberToString (reasons out)) = Some (dbl 0.42) /\
    elo_ratio_gap out = Some (dbl 0.42).
Proof.
  intros result [-> | ->].
  - exists (fst (buildRow (L := SharedLookup) numberToString
                   (mkInput name scenario_result) None)).
    split; [vm_compute; reflexivity|].
    split; [reflexivity|].
    repeat split; qc_eq.
  - exists (fst (buildRow (L := SharedLookup) numberToString
                   (mkInput name scenario_result_phrases) None)).
    split; [vm_compute; reflexivity|].
    split; [reflexivity|].
    repeat split; qc_eq.
Qed.

Lemma end_to_end_scenario_witness :
  exists out,
    fst (buildDownloadCsvRowsStrict printSpecial codeunitCompare
           [mkInput "player" scenario_result] []) = [out] /\
    recent_games out = Some (Fin (qz 15)) /\
    tourn_win_rate out = Some (Fin (qz 70)) /\
    elo_ratio_gap out = Some (dbl 0.42).
Proof.
  destruct (end_to_end_scenario printSpecial codeunitCompare "player" scenario_result)
    as (out & Hout & _ & Hg & _ & _ & _ & _ & Hw & _ & _ & _ & He).
  - left. reflexivity.
  - exists out. repeat split; assumption.
Defined.





(** C4, the claim as worded fails.  With [suspicion_score: "high"] and
    [streak: "hot"] in the structured source and no side table, the row
    carries the two strings, and its [upset_wins] is [undefined], which is
    neither a number nor the unknown value [null].  With games and win
    rates of [1e308] in both splits, the recent games and the two win rates
    of the row are [Infinity] and the win-rate gap is [NaN]. *)
Lemma raw_strings_reach_the_row :
  let rows := fst (buildDownloadCsvRowsStrict printSpecial codeunitCompare
                     [mkInput "bob" words_result] []) in
  let big := fst (buildDownloadCsvRowsStrict printSpecial codeunitCompare
                    [mkInput "bob" overflow_result] []) in
  map suspicion_score rows = [VStr "high"] /\
  map win_streak rows = [VStr "hot"] /\
  map num (map suspicion_score rows) = [None] /\
  map num (map win_streak rows) = [None] /\
  map upset_wins rows = [VUndefined] /\
  map recent_games big = [Some PosInf] /\
  map tourn_win_rate big = [Some PosInf] /\
  map non_tourn_win_rate big = [Some PosInf] /\
  map wr_gap big = [Some NaN].
Proof. cbv zeta. repeat split; vm_compute; reflexivity. Qed.

(** C4, amended.  The row is a record of all the declared fields.  The
    counts and the elo gains and losses are what [num] makes of a leaf of
    the structured source or of a cell of the side table, hence finite
    numbers or unknown.  The recent totals are numbers or unknown, never [NaN]; a sum beyond the
    range of the doubles is an infinity.  The percentage fields other than
    [wr_gap] are unknown, or rounded to one decimal, or an infinity when
    the arithmetic leaves the range of the doubles; [wr_gap] can moreover
    be [NaN], when both win rates are the same infinity.  The ratio fields
    are unknown, or rounded to three decimals, or an infinity.
    [suspicion_score] is a finite number or unknown when it comes from the
    side table; when the structured source supplies it, and for
    [win_streak], [max_win_streak] and [upset_wins] from either source,
    the value of the source is passed on as it is; [win_streak] and
    [max_win_streak] are unknown when no source has them, and [upset_wins]
    is then the count of the narrative, or [undefined] when the narrative
    has none. *)
Theorem row_fields_rounded (numberToString : number -> string)
        (row : CsvInputRow) (csv : option jsobject) :
  let out := fst (buildRow (L := SharedLookup) numberToString row csv) in
  let r := source row in
  let look := lookupCSV csv in
  let parsed := parseFromReasons numberToString (reasons out) in
  (forall f paths aliases,
     In (f, paths, aliases) count_fields -> f out = resolved num r look paths aliases) /\
  (opt_all not_NaN (recent_games out) /\
   opt_all not_NaN (recent_wins out) /\
   opt_all not_NaN (recent_draws out) /\
   opt_all not_NaN (recent_losses out)) /\
  (opt_all one_decimal (short_win_rate out) /\
   opt_all one_decimal (timeout_win_ratio out) /\
   opt_all one_decimal (tourn_win_rate out) /\
   opt_all one_decimal (non_tourn_win_rate out) /\
   opt_all one_decimal_or_NaN (wr_gap out) /\
   opt_all one_decimal (t_self_bail_loss_ratio out) /\
   opt_all one_decimal (nt_self_bail_loss_ratio out)) /\
  (opt_all three_decimals (elo_ratio out) /\
   opt_all three_decimals (tourn_elo_ratio out) /\
   opt_all three_decimals (non_tourn_elo_ratio out) /\
   opt_all three_decimals (elo_ratio_gap out)) /\
  (nullish (pick r ["suspicion_score"; "suspicion.score"]) = true ->
   suspicion_score out = ofNum (known (num (look A.suspicion)))) /\
  (nullish (pick r ["suspicion_score"; "suspicion.score"]) = false ->
   suspicion_score out = pick r ["suspicion_score"; "suspicion.score"]) /\
  win_streak out = coalesce (coalesce (look A.streak) (pick r ["streak"])) VNull /\
  max_win_streak out
    = coalesce (coalesce (look A.maxStreak) (pick r ["max_streak"])) VNull /\
  (nullish (coalesce (look A.upsetWins) (pick r ["upset_wins"])) = false ->
   upset_wins out = coalesce (look A.upsetWins) (pick r ["upset_wins"])) /\
  (nullish (coalesce (look A.upsetWins) (pick r ["upset_wins"])) = true ->
   upset_wins out = match p_upsets parsed with
                    | Some u => VNum (Fin u)
                    | None => VUndefined
                    end).
Proof.
  cbv zeta. rewrite buildRow_rowOf.
  pose proof (rowOf_rates numberToString (lookupCSV csv) row)
    as (R1 & R2 & R3 & R4 & R5 & R6).
  pose proof (rowOf_recent numberToString (lookupCSV csv) row) as (S1 & S2 & S3 & S4).
  pose proof (rowOf_counts numberToString (lookupCSV csv) row)
    as (C1 & C2 & C3 & C4 & C5 & C6 & C7 & C8).
  pose proof (rowOf_elo numberToString (lookupCSV csv) row)
    as (E1 & E2 & E3 & E4 & E5 & E6 & E7 & E8 & E9).
  pose proof (rowOf_gaps numberToString (lookupCSV csv) row) as (G1 & G2).
  pose proof (rowOf_raw numberToString (lookupCSV csv) row) as (W1 & W2 & W3 & W4).
  cbv zeta in W4.
  assert (Hpct : forall m, opt_all one_decimal (on_group1 pct m)) by auto with rounded.
  assert (Hrat : forall m, opt_all three_decimals (on_group1 rat m)) by auto with rounded.
  pose proof (Hpct (or_match
                (js_match (toStr numberToString
                   (coalesce (reasons (rowOf numberToString (lookupCSV csv) row))
                      (VStr EmptyString))) re_ntSelfBail_1)
                (js_match (toStr numberToString
                   (coalesce (reasons (rowOf numberToString (lookupCSV csv) row))
                      (VStr EmptyString))) re_ntSelfBail_2))) as P1.
  change (on_group1 pct _) with
    (p_ntSelfBail (parseFromReasons numberToString
                     (reasons (rowOf numberToString (lookupCSV csv) row)))) in P1.
  assert (P2 : opt_all three_decimals
                 (p_elo (parseFromReasons numberToString
                           (reasons (rowOf numberToString (lookupCSV csv) row)))))
    by apply Hrat.
  assert (P3 : opt_all three_decimals
                 (p_tElo (parseFromReasons numberToString
                            (reasons (rowOf numberToString (lookupCSV csv) row)))))
    by apply Hrat.
  assert (P4 : opt_all three_decimals
                 (p_ntElo (parseFromReasons numberToString
                             (reasons (rowOf numberToString (lookupCSV csv) row)))))
    by apply Hrat.
  assert (P5 : opt_all three_decimals
                 (p_gap (parseFromReasons numberToString
                           (reasons (rowOf numberToString (lookupCSV csv) row)))))
    by apply Hrat.
  set (parsed := parseFromReasons numberToString _) in *. clearbody parsed.
  set (out := rowOf numberToString (lookupCSV csv) row) in *. clearbody out.
  set (look := lookupCSV csv) in *. clearbody look.
  set (r := source row) in *. clearbody r.
  assert (Hsum : forall a b c,
             opt_all not_NaN (opt_or (known a) (sumNN (known b) (known c)))).
  { intros a b c. apply opt_all_opt_or; [|apply opt_all_sumNN_known].
    apply opt_all_known. intros q. discriminate. }
  assert (T1 : opt_all one_decimal (tourn_win_rate out)).
  { rewrite R1. unfold resolved. auto with rounded. }
  assert (T2 : opt_all one_decimal (non_tourn_win_rate out)).
  { rewrite R2. unfold resolved. auto with rounded. }
  assert (T3 : opt_all three_decimals (tourn_elo_ratio out)).
  { rewrite E6. unfold resolved3. auto with rounded. }
  assert (T4 : opt_all three_decimals (non_tourn_elo_ratio out)).
  { rewrite E9. unfold resolved3. auto with rounded. }
  split.
  { intros f paths aliases Hin. unfold count_fields in Hin. cbn [In] in Hin.
    repeat (destruct Hin as [Hin|Hin]; [injection Hin as <- <- <-; assumption|]).
    contradiction. }
  split; [rewrite S1, S2, S3, S4; repeat split; apply Hsum|].
  split; [repeat split; try assumption|].
  { rewrite R3. unfold resolved. auto with rounded. }
  { rewrite R4. unfold resolved. auto with rounded. }
  { rewrite G1. destruct (tourn_win_rate out) as [t|];
      [destruct (non_tourn_win_rate out) as [nt|]|].
    - cbn. destruct (fsub t nt) as [| | |d] eqn:Ed.
      + left. reflexivity.
      + right. apply round1_one_decimal. discriminate.
      + right. apply round1_one_decimal. discriminate.
      + right. apply round1_one_decimal. discriminate.
    - pose proof (opt_all_pct (look A.wrGap)) as H.
      destruct (pct (look A.wrGap)); cbn in *; [right; exact H | exact I].
    - pose proof (opt_all_pct (look A.wrGap)) as H.
      destruct (pct (look A.wrGap)); cbn in *; [right; exact H | exact I]. }
  { rewrite R5. unfold resolved. auto with rounded. }
  { rewrite R6. unfold resolved3. auto with rounded. }
  split; [repeat split; try assumption|].
  { rewrite E3. unfold resolved3. auto with rounded. }
  { rewrite G2. destruct (tourn_elo_ratio out); [destruct (non_tourn_elo_ratio out)|];
      auto with rounded. }
  split; [intros H; rewrite W1; unfold coalesce; rewrite H; reflexivity|].
  split; [intros H; rewrite W1; unfold coalesce; rewrite H; reflexivity|].
  split; [exact W2|]. split; [exact W3|].
  split.
  - intros H. rewrite W4. rewrite H. destruct (p_upsets parsed); reflexivity.
  - intros H. rewrite W4. rewrite H.
    destruct (p_upsets parsed); [reflexivity|].
    unfold coalesce in *. destruct (nullish (look A.upsetWins)) eqn:E.
    + apply pick_nullish. exact H.
    + congruence.
Qed.

Lemma row_fields_rounded_witness :
  suspicion_score (fst (buildRow (L := SharedLookup) printSpecial
                          (mkInput "bob" words_result) None))
  = VStr "high".
Proof.
  apply (proj1 (proj2 (proj2 (proj2 (proj2 (proj2 (row_fields_rounded printSpecial
                  (mkInput "bob" words_result) None))))))).
  vm_compute. reflexivity.
Defined.

(** C10, at a row that has a column of its own called [__normIndex] with
    an empty cell: the lookup finds the games, and afterwards the row no
    longer shows that column among its entries.  Repeated lookups do give
    the same results. *)
Theorem index_hides_colliding_column :
  entries colliding_row = [("__normIndex", VNull); ("games", VStr "12")] /\
  fst (getCSV (Some colliding_row) A.recentGames) = VStr "12" /\
  option_map entries (snd (getCSV (Some colliding_row) A.recentGames))
    = Some [("games", VStr "12")] /\
  option_map entries (snd (getCSV (Some colliding_row) A.recentGames))
    <> Some (entries colliding_row) /\
  fst (lookups (Some colliding_row) [A.recentGames; A.recentGames])
    = [VStr "12"; VStr "12"].
Proof. repeat split. discriminate. Qed.

(** ** Stable insertion *)

Section StableSort.
Context {T : Type}.
Variable cmp : T -> T -> number.
Variable le : T -> T -> Prop.
Variable eqv : T -> T -> bool.

Hypothesis le_of_not_after : forall a b, is_after (cmp a b) = false -> le a b.
Hypothesis le_of_after : forall a b, is_after (cmp a b) = true -> le b a.
Hypothesis le_trans : forall a b c, le a b -> le b c -> le a c.
Hypothesis eqv_not_after :
  forall z a b, eqv z a = true -> eqv z b = true -> is_after (cmp a b) = false.

Lemma insert_perm (x : T) (l : list T) : Permutation (insert cmp x l) (x :: l).
Proof.
  induction l as [|y l IH]; cbn; [reflexivity|].
  destruct (is_after (cmp x y)); [|reflexivity].
  rewrite IH. apply perm_swap.
Qed.

Lemma sort_perm (l : list T) : Permutation (Array_sort cmp l) l.
Proof.
  induction l as [|x l IH]; cbn; [reflexivity|].
  rewrite insert_perm. now apply perm_skip.
Qed.

Lemma insert_sorted (x : T) (l : list T) :
  StronglySorted le l -> StronglySorted le (insert cmp x l).
Proof.
  induction 1 as [|y l Hs IH Hall]; cbn.
  - constructor; constructor.
  - destruct (is_after (cmp x y)) eqn:E.
    + constructor; [exact IH|].
      apply (Permutation_Forall (x := x :: l)).
      * symmetry. apply insert_perm.
      * constructor; [now apply le_of_after | exact Hall].
    + constructor; [constructor; assumption|].
      constructor; [now apply le_of_not_after|].
      eapply Forall_impl; [|exact Hall].
      intros z Hz. eapply le_trans; [apply le_of_not_after; exact E | exact Hz].
Qed.

Lemma sort_sorted (l : list T) : StronglySorted le (Array_sort cmp l).
Proof.
  induction l as [|x l IH]; cbn; [constructor | now apply insert_sorted].
Qed.

Lemma insert_filter (z x : T) (l : list T) :
  filter (eqv z) (insert cmp x l) = filter (eqv z) (x :: l).
Proof.
  induction l as [|y l IH]; [reflexivity|].
  cbn [insert]. destruct (is_after (cmp x y)) eqn:E; [|reflexivity].
  cbn [filter] in *. rewrite IH.
  destruct (eqv z x) eqn:Ex, (eqv z y) eqn:Ey; try reflexivity.
  rewrite (eqv_not_after z x y Ex Ey) in E. discriminate E.
Qed.

Lemma sort_filter (z : T) (l : list T) :
  filter (eqv z) (Array_sort cmp l) = filter (eqv z) l.
Proof.
  induction l as [|x l IH]; [reflexivity|].
  cbn [Array_sort fold_right]. rewrite insert_filter.
  cbn [filter]. unfold Array_sort in IH. now rewrite IH.
Qed.

End StableSort.

(** ** The comparator of the rows *)

Lemma Qeq_bool_Qc (x y : Qc) : Qeq_bool x y = true <-> x = y.
Proof.
  split.
  - intros H. apply Qc_is_canon. apply Qeq_bool_eq. exact H.
  - intros ->. apply Qeq_eq_bool. reflexivity.
Qed.

Lemma positive_minus (x y : Qc) : positive (y - x) = true <-> (x < y)%Qc.
Proof. rewrite positive_iff. split; intros H; to_Q; lra. Qed.

Lemma positive_qz (z : Z) : positive (qz z) = (0 <? z)%Z.
Proof.
  apply eq_true_iff_eq. rewrite positive_iff, Z.ltb_lt.
  unfold Qclt. rewrite this_qz. change (this 0%Qc) with (inject_Z 0).
  rewrite <- Zlt_Qlt. reflexivity.
Qed.

Lemma same_score_eq (a b : option Qc) : same_score a b = true -> a = b.
Proof.
  destruct a as [x|], b as [y|]; cbn; try discriminate; [|reflexivity].
  intros H. f_equal. apply Qc_eq_bool_correct. exact H.
Qed.

Lemma score_above_irrefl (a : option Qc) : ~ score_above a a.
Proof. destruct a as [x|]; cbn; [|tauto]. apply Qlt_irrefl. Qed.

Lemma score_above_trans (a b c : option Qc) :
  score_above a b -> score_above b c -> score_above a c.
Proof.
  destruct a as [x|], b as [y|], c as [z|]; cbn; try tauto.
  intros H1 H2. eapply Qclt_trans; eauto.
Qed.

Lemma score_trichotomy (a b : option Qc) : score_above a b \/ a = b \/ score_above b a.
Proof.
  destruct a as [x|], b as [y|]; cbn; auto.
  destruct (Qc_dec x y) as [[H|H]|H]; auto. right. left. now f_equal.
Qed.

Section RowOrder.
Variable localeCompare : string -> string -> Z.

Hypothesis localeCompare_antisym :
  forall a b, Z.sgn (localeCompare a b) = (- Z.sgn (localeCompare b a))%Z.
Hypothesis localeCompare_trans :
  forall a b c,
    (localeCompare a b <= 0)%Z -> (localeCompare b c <= 0)%Z -> (localeCompare a c <= 0)%Z.

Let cmp := compareRows localeCompare.

Lemma is_after_eq (a b : CanonicalRow) :
  is_after (cmp a b) =
  match score a, score b with
  | Some x, Some y =>
      if Qeq_bool x y then (0 <? localeCompare (name_key a) (name_key b))%Z
      else positive (y - x)
  | Some _, None => false
  | None, Some _ => true
  | None, None => (0 <? localeCompare (name_key a) (name_key b))%Z
  end.
Proof.
  unfold cmp, compareRows, sort_key, score, name_key.
  destruct (num (suspicion_score a)) as [x|], (num (suspicion_score b)) as [y|];
    cbn; try reflexivity.
  - destruct (Qeq_bool x y); cbn; [apply positive_qz | reflexivity].
  - apply positive_qz.
Qed.

Lemma is_after_iff (a b : CanonicalRow) :
  is_after (cmp a b) = true <->
  score_above (score b) (score a) \/
  (score a = score b /\ (0 < localeCompare (name_key a) (name_key b))%Z).
Proof.
  rewrite is_after_eq.
  destruct (score a) as [x|], (score b) as [y|]; cbn.
  - destruct (Qeq_bool x y) eqn:E.
    + apply Qeq_bool_Qc in E. subst y. rewrite Z.ltb_lt. split.
      * intros H. right. split; [reflexivity | exact H].
      * intros [H | [_ H]]; [|exact H]. exfalso. exact (Qlt_irrefl _ H).
    + rewrite positive_minus. split.
      * intros H. left. exact H.
      * intros [H | [H _]]; [exact H|].
        injection H as ->. rewrite (proj2 (Qeq_bool_Qc y y) eq_refl) in E. discriminate.
  - split; [discriminate|]. intros [[] | [H _]]. discriminate.
  - split; [intros _; left; exact I | reflexivity].
  - rewrite Z.ltb_lt. split.
    + intros H. right. split; [reflexivity | exact H].
    + intros [[] | [_ H]]. exact H.
Qed.

Lemma not_after_iff (a b : CanonicalRow) :
  is_after (cmp a b) = false <-> ranks_before localeCompare a b.
Proof.
  unfold ranks_before. split.
  - intros H.
    destruct (score_trichotomy (score a) (score b)) as [Ha | [He | Hb]].
    + left. exact Ha.
    + right. split; [exact He|].
      destruct (Z_lt_le_dec 0 (localeCompare (name_key a) (name_key b))) as [Hlt|Hle];
        [|exact Hle].
      assert (Ht : is_after (cmp a b) = true) by (apply is_after_iff; auto).
      congruence.
    + assert (Ht : is_after (cmp a b) = true) by (apply is_after_iff; auto).
      congruence.
  - intros H. apply not_true_is_false. intros Ht. apply is_after_iff in Ht.
    destruct H as [Ha | [He Hle]], Ht as [Hb | [He' Hlt]].
    + exact (score_above_irrefl _ (score_above_trans _ _ _ Ha Hb)).
    + rewrite He' in Ha. exact (score_above_irrefl _ Ha).
    + rewrite He in Hb. exact (score_above_irrefl _ Hb).
    + lia.
Qed.

Lemma after_ranks_before (a b : CanonicalRow) :
  is_after (cmp a b) = true -> ranks_before localeCompare b a.
Proof.
  intros H. apply is_after_iff in H. destruct H as [H | [He Hlt]].
  - left. exact H.
  - right. split; [symmetry; exact He|].
    pose proof (localeCompare_antisym (name_key a) (name_key b)) as Hs. lia.
Qed.

Lemma ranks_before_trans (a b c : CanonicalRow) :
  ranks_before localeCompare a b -> ranks_before localeCompare b c ->
  ranks_before localeCompare a c.
Proof.
  intros [H1 | [E1 L1]] [H2 | [E2 L2]].
  - left. eapply score_above_trans; eauto.
  - left. rewrite <- E2. exact H1.
  - left. rewrite E1. exact H2.
  - right. split; [congruence|]. eapply localeCompare_trans; eauto.
Qed.

Lemma ranks_before_total (a b : CanonicalRow) :
  ranks_before localeCompare a b \/ ranks_before localeCompare b a.
Proof.
  destruct (is_after (cmp a b)) eqn:E.
  - right. now apply after_ranks_before.
  - left. now apply not_after_iff.
Qed.

Lemma tied_not_after (z a b : CanonicalRow) :
  tied localeCompare z a = true -> tied localeCompare z b = true ->
  is_after (cmp a b) = false.
Proof.
  unfold tied. intros Ha Hb.
  apply andb_prop in Ha as [Sa Na]. apply andb_prop in Hb as [Sb Nb].
  apply same_score_eq in Sa. apply same_score_eq in Sb.
  apply Z.eqb_eq in Na. apply Z.eqb_eq in Nb.
  apply not_after_iff. right. split; [congruence|].
  apply (localeCompare_trans _ (name_key z)); [|lia].
  pose proof (localeCompare_antisym (name_key a) (name_key z)) as Hs. lia.
Qed.

End RowOrder.

(** ** Code-unit order is a collation *)

Lemma codeunitCompare_antisym (a b : string) :
  Z.sgn (codeunitCompare a b) = (- Z.sgn (codeunitCompare b a))%Z.
Proof.
  unfold codeunitCompare. rewrite (String.compare_antisym a b).
  destruct (String.compare b a); reflexivity.
Qed.

Lemma string_compare_trans (a : string) :
  forall b c,
    String.compare a b <> Gt -> String.compare b c <> Gt -> String.compare a c <> Gt.
Proof.
  induction a as [|x a IH]; intros [|y b] [|z c]; cbn; try congruence.
  unfold Ascii.compare.
  destruct (N.compare_spec (N_of_ascii x) (N_of_ascii y)) as [Hxy|Hxy|Hxy];
    destruct (N.compare_spec (N_of_ascii y) (N_of_ascii z)) as [Hyz|Hyz|Hyz];
    destruct (N.compare_spec (N_of_ascii x) (N_of_ascii z)) as [Hxz|Hxz|Hxz];
    try congruence; try lia.
  apply IH.
Qed.

Lemma codeunitCompare_trans (a b c : string) :
  (codeunitCompare a b <= 0)%Z -> (codeunitCompare b c <= 0)%Z ->
  (codeunitCompare a c <= 0)%Z.
Proof.
  unfold codeunitCompare. intros H1 H2.
  assert (G : String.compare a c <> Gt).
  { apply (string_compare_trans a b c).
    - destruct (String.compare a b); try discriminate. lia.
    - destruct (String.compare b c); try discriminate. lia. }
  destruct (String.compare a c); try lia. congruence.
Qed.

(** ** The sorted rows *)

Lemma buildDownloadCsvRowsStrict_sorted_map
      (numberToString : number -> string) (localeCompare : string -> string -> Z)
      (finishedRows : list CsvInputRow) (csvByUser : Store) :
  fst (buildDownloadCsvRowsStrict numberToString localeCompare finishedRows csvByUser)
  = Array_sort (compareRows localeCompare)
      (fst (mapRows numberToString finishedRows csvByUser)).
Proof.
  unfold buildDownloadCsvRowsStrict.
  destruct (mapRows numberToString finishedRows csvByUser). reflexivity.
Qed.

(** C3.  For a collation that is a total preorder, the rows come out as a
    permutation of the rows as built, ordered by score descending with an
    unknown score last and, within one score, by the lower-cased name
    ascending; the order is total and transitive; rows that agree on both
    keys keep their order of arrival.  Scores [3.2, 3.2, unknown, 5.0] for
    [bob], [Alice], [carl], [dave] come out as [dave], [Alice], [bob],
    [carl] when the collation puts ["alice"] before ["bob"]. *)
Theorem rows_sorted_stably
        (numberToString : number -> string) (localeCompare : string -> string -> Z)
        (localeCompare_antisym :
           forall a b, Z.sgn (localeCompare a b) = (- Z.sgn (localeCompare b a))%Z)
        (localeCompare_trans :
           forall a b c,
             (localeCompare a b <= 0)%Z -> (localeCompare b c <= 0)%Z ->
             (localeCompare a c <= 0)%Z)
        (finishedRows : list CsvInputRow) (csvByUser : Store) :
  let arrived := fst (mapRows numberToString finishedRows csvByUser) in
  let sorted :=
    fst (buildDownloadCsvRowsStrict numberToString localeCompare finishedRows csvByUser) in
  Permutation sorted arrived /\
  StronglySorted (ranks_before localeCompare) sorted /\
  (forall a b, ranks_before localeCompare a b \/ ranks_before localeCompare b a) /\
  (forall a b c, ranks_before localeCompare a b -> ranks_before localeCompare b c ->
                 ranks_before localeCompare a c) /\
  (forall a b, ranks_before localeCompare a b <->
               score_above (score a) (score b) \/
               (score a = score b /\ (localeCompare (name_key a) (name_key b) <= 0)%Z)) /\
  (forall x, filter (tied localeCompare x) sorted = filter (tied localeCompare x) arrived) /\
  ((localeCompare "alice" "bob" < 0)%Z ->
   map username
     (fst (buildDownloadCsvRowsStrict numberToString localeCompare ranking_inputs []))
   = ["dave"; "Alice"; "bob"; "carl"]).
Proof.
  cbv zeta. rewrite buildDownloadCsvRowsStrict_sorted_map.
  split; [apply sort_perm|].
  split.
  { apply sort_sorted.
    - intros a b. apply not_after_iff; assumption.
    - intros a b. apply after_ranks_before; assumption.
    - intros a b c. apply ranks_before_trans; assumption. }
  split; [intros a b; apply ranks_before_total; assumption|].
  split; [intros a b c; apply ranks_before_trans; assumption|].
  split; [intros a b; reflexivity|].
  split.
  { intros x. apply sort_filter. intros z a b. apply tied_not_after; assumption. }
  intros Hlt. rewrite buildDownloadCsvRowsStrict_sorted_map.
  assert (Hbob : (0 <? localeCompare "bob" "alice")%Z = true).
  { apply Z.ltb_lt. pose proof (localeCompare_antisym "bob" "alice"). lia. }
  vm_compute in Hbob.
  set (arrived := fst (mapRows numberToString ranking_inputs [])).
  vm_compute in arrived. subst arrived.
  cbn [Array_sort fold_right insert].
  repeat match goal with
         | |- context [is_after (compareRows localeCompare ?a ?b)] =>
             let H := fresh in
             first [ assert (H : is_after (compareRows localeCompare a b) = true)
                       by (rewrite is_after_eq; vm_compute; first [reflexivity | exact Hbob])
                   | assert (H : is_after (compareRows localeCompare a b) = false)
                       by (rewrite is_after_eq; vm_compute; reflexivity) ];
             rewrite H; clear H; cbn [insert]
         end.
  reflexivity.
Qed.

Lemma rows_sorted_stably_witness :
  map username
    (fst (buildDownloadCsvRowsStrict printSpecial codeunitCompare ranking_inputs []))
  = ["dave"; "Alice"; "bob"; "carl"].
Proof.
  apply (rows_sorted_stably printSpecial codeunitCompare
           codeunitCompare_antisym codeunitCompare_trans ranking_inputs []).
  reflexivity.
Defined.

(* ================================================================== *)
(** * Further properties *)

(** ** [norm] *)

Lemma lower_char_alnum (c : ascii) :
  is_lower c || is_digit c = true -> lower_char c = c.
Proof.
  intros H. unfold lower_char.
  destruct (is_upper c) eqn:E; [|reflexivity].
  unfold is_lower, is_digit, is_upper in *.
  apply orb_prop in H. apply andb_prop in E as [E1 E2].
  apply Nat.leb_le in E1, E2.
  destruct H as [H|H]; apply andb_prop in H as [H1 H2]; apply Nat.leb_le in H1, H2; lia.
Qed.

Lemma strip_non_alnum_all (s : string) : all_alnum (strip_non_alnum s) = true.
Proof.
  induction s as [|c s IH]; [reflexivity|].
  cbn. destruct (is_lower c || is_digit c) eqn:E; [|exact IH].
  cbn. rewrite E, IH. reflexivity.
Qed.

Lemma all_alnum_fixed (s : string) :
  all_alnum s = true -> toLowerCase s = s /\ strip_non_alnum s = s.
Proof.
  induction s as [|c s IH]; [split; reflexivity|].
  cbn. intros H. apply andb_prop in H as [Hc Hs].
  destruct (IH Hs) as [IH1 IH2].
  rewrite (lower_char_alnum c Hc), Hc, IH1, IH2. split; reflexivity.
Qed.

Lemma toLowerCase_app (a b : string) :
  toLowerCase (a ++ b) = (toLowerCase a ++ toLowerCase b)%string.
Proof. induction a as [|c a IH]; cbn; [reflexivity | now rewrite IH]. Qed.

Lemma strip_non_alnum_app (a b : string) :
  strip_non_alnum (a ++ b) = (strip_non_alnum a ++ strip_non_alnum b)%string.
Proof.
  induction a as [|c a IH]; cbn; [reflexivity|].
  destruct (is_lower c || is_digit c); cbn; now rewrite IH.
Qed.

Lemma lower_char_idem (c : ascii) : lower_char (lower_char c) = lower_char c.
Proof.
  unfold lower_char. destruct (is_upper c) eqn:E; [|now rewrite E].
  destruct (is_upper (ascii_of_nat (code c + 32))) eqn:E2; [|reflexivity].
  exfalso. unfold is_upper, code in *.
  apply andb_prop in E as [E1 E3]. apply Nat.leb_le in E1, E3.
  rewrite nat_ascii_embedding in E2 by lia.
  apply andb_prop in E2 as [E4 E5]. apply Nat.leb_le in E4, E5. lia.
Qed.

(** X1.  On ASCII texts, [norm] keeps lower-case letters and digits
    only, is the identity on what it returns, does not see the case of its
    input, and works piece by piece, so that characters other than letters
    and digits vanish wherever they stand. *)
Theorem norm_is_a_normal_form (s a b : string) (c : ascii)
        (Hs : ascii_text s = true) (Ha : ascii_text a = true)
        (Hb : ascii_text b = true) (Hc : is_ascii c = true) :
  all_alnum (norm s) = true /\
  norm (norm s) = norm s /\
  norm (toLowerCase s) = norm s /\
  norm (a ++ b) = (norm a ++ norm b)%string /\
  (is_lower (lower_char c) || is_digit (lower_char c) = false ->
   norm (a ++ String c b) = norm (a ++ b)).
Proof.
  assert (Hall : all_alnum (norm s) = true) by apply strip_non_alnum_all.
  assert (Happ : forall x y, norm (x ++ y) = (norm x ++ norm y)%string).
  { intros x y. unfold norm. now rewrite toLowerCase_app, strip_non_alnum_app. }
  repeat split.
  - exact Hall.
  - unfold norm at 1. destruct (all_alnum_fixed _ Hall) as [H1 H2]. now rewrite H1, H2.
  - unfold norm. f_equal. clear Hall Hs.
    induction s as [|d s IH]; cbn; [reflexivity|].
    now rewrite lower_char_idem, IH.
  - apply Happ.
  - intros Hl. rewrite !Happ. f_equal.
    change (String c b) with (String c EmptyString ++ b)%string.
    rewrite Happ. unfold norm at 1. cbn. rewrite Hl. reflexivity.
Qed.

Lemma norm_is_a_normal_form_witness :
  norm ("T Elo" ++ String " " "Ratio") = norm ("T Elo" ++ "Ratio").
Proof.
  apply (proj2 (proj2 (proj2 (proj2
           (norm_is_a_normal_form EmptyString "T Elo" "Ratio" " "
              eq_refl eq_refl eq_refl eq_refl))))).
  reflexivity.
Defined.

(** ** What an alias lookup finds *)

Lemma assoc_assign (k k' : string) (v : value) (idx : list (string * value)) :
  assoc k (assign k' v idx) = if String.eqb k k' then Some v else assoc k idx.
Proof.
  induction idx as [|[h w] idx IH]; cbn.
  - destruct (String.eqb k k'); reflexivity.
  - destruct (String.eqb k' h) eqn:E; cbn.
    + apply String.eqb_eq in E. subst h. destruct (String.eqb k k'); reflexivity.
    + rewrite IH. destruct (String.eqb k h) eqn:E2; [|reflexivity].
      apply String.eqb_eq in E2. subst h.
      rewrite String.eqb_sym, E. reflexivity.
Qed.

Lemma assoc_index_fold (k : string) (es : list (string * value)) :
  forall idx,
    assoc k (fold_left (fun idx e => assign (norm (fst e)) (snd e) idx) es idx)
    = match last_header k es with
      | Some w => Some w
      | None => assoc k idx
      end.
Proof.
  induction es as [|[h v] es IH]; intros idx; cbn [fold_left last_header]; [reflexivity|].
  rewrite IH. destruct (last_header k es); [reflexivity|].
  cbn [fst snd]. rewrite assoc_assign, String.eqb_sym.
  destruct (String.eqb (norm h) k); reflexivity.
Qed.

Lemma assoc_normIndex (k : string) (o : jsobject) :
  assoc k (normIndex o) = last_header k (entries o).
Proof.
  unfold normIndex. rewrite assoc_index_fold.
  destruct (last_header k (entries o)); reflexivity.
Qed.

(** X2.  On a row without a property of its own called [__normIndex],
    an alias lookup compares headers and aliases by their normal form
    only; among the headers with the normal form of an alias the last one
    of the row decides, also when its cell is empty; and the aliases are
    tried in order until one finds a value that is not nullish. *)
Theorem alias_lookup_last_header_wins (o : jsobject) (aliases : list string) :
  own o "__normIndex" = None ->
  lookupCSV (Some o) aliases = first_found (entries o) aliases.
Proof.
  intros Hfresh. unfold lookupCSV, getCSV. cbn [fst].
  assert (Hidx : get_own (with_index o) "__normIndex" = VObj (normIndex o)).
  { unfold with_index. unfold get_own at 2. rewrite Hfresh. cbn.
    apply get_own_defineHidden. }
  rewrite Hidx.
  induction aliases as [|a rest IH]; [reflexivity|].
  cbn [first_alias first_found get]. rewrite assoc_normIndex.
  destruct (last_header (norm a) (entries o)) as [v|]; [|exact IH].
  destruct (nullish v); [exact IH | reflexivity].
Qed.

Lemma alias_lookup_last_header_wins_witness :
  lookupCSV (Some two_spellings) A.tEloRatio = VUndefined /\
  lookupCSV (Some short_spelling) A.tEloRatio = qnum 2.
Proof.
  split.
  - rewrite (alias_lookup_last_header_wins two_spellings A.tEloRatio); reflexivity.
  - rewrite (alias_lookup_last_header_wins short_spelling A.tEloRatio); reflexivity.
Defined.

(** ** Dotted paths *)

Lemma split_on_step (sep : ascii) (k : string) :
  forall cur p,
    has_char sep k = false ->
    split_on sep cur (k ++ String sep p) = (cur ++ k)%string :: split_on sep EmptyString p.
Proof.
  induction k as [|c k IH]; intros cur p H; cbn.
  - rewrite Ascii.eqb_refl, string_app_nil_r. reflexivity.
  - cbn in H. apply orb_false_iff in H as [Hc Hk].
    rewrite Hc, IH by exact Hk. now rewrite string_app_assoc.
Qed.

Lemma split_on_last (sep : ascii) (k : string) :
  forall cur, has_char sep k = false -> split_on sep cur k = [(cur ++ k)%string].
Proof.
  induction k as [|c k IH]; intros cur H; cbn.
  - now rewrite string_app_nil_r.
  - cbn in H. apply orb_false_iff in H as [Hc Hk].
    rewrite Hc, IH by exact Hk. now rewrite string_app_assoc.
Qed.

Lemma fold_step_undefined (keys : list string) :
  fold_left step keys VUndefined = VUndefined.
Proof. induction keys as [|k keys IH]; [reflexivity | exact IH]. Qed.

Lemma split_on_nonempty (sep : ascii) (s : string) :
  forall cur, split_on sep cur s <> [].
Proof.
  induction s as [|c s IH]; intros cur; cbn; [discriminate|].
  destruct (Ascii.eqb c sep); [discriminate | apply IH].
Qed.

Lemma descend_nullish (o : value) (p : string) :
  nullish o = true -> descend o p = VUndefined.
Proof.
  intros H. unfold descend, split_dot.
  destruct (split_on "." EmptyString p) as [|k keys] eqn:E.
  - exfalso. exact (split_on_nonempty _ _ _ E).
  - cbn [fold_left]. rewrite H. apply fold_step_undefined.
Qed.

(** X3.  A dotted path is walked key by key: a path [k.p] whose first
    key has no dot reads [k] and then walks [p] from there; a key without
    a dot is one read; and below a value that is missing or null every
    further path gives [undefined], so a path through a missing key fails
    quietly and [pick] goes on to its next candidate. *)
Theorem dotted_path_walk (obj : value) (k p : string) (paths : list string) :
  has_char "." k = false ->
  descend obj (k ++ String "." p) = descend (step obj k) p /\
  descend obj k = step obj k /\
  (nullish (step obj k) = true ->
   descend obj (k ++ String "." p) = VUndefined /\
   pick obj ((k ++ String "." p)%string :: paths) = pick obj paths).
Proof.
  intros Hk.
  assert (H1 : descend obj (k ++ String "." p) = descend (step obj k) p).
  { unfold descend, split_dot. rewrite split_on_step by exact Hk. reflexivity. }
  split; [exact H1|]. split.
  - unfold descend, split_dot. rewrite split_on_last by exact Hk. reflexivity.
  - intros Hn.
    assert (H2 : descend obj (k ++ String "." p) = VUndefined).
    { rewrite H1. apply descend_nullish. exact Hn. }
    split; [exact H2|].
    cbn [pick]. rewrite H2. reflexivity.
Qed.

Lemma dotted_path_walk_witness :
  pick scenario_result ["totals.games"; "tournament.games"] = qnum 10.
Proof.
  destruct (dotted_path_walk scenario_result "totals" "games" ["tournament.games"])
    as (_ & _ & Hskip); [reflexivity|].
  destruct Hskip as [_ Hpick]; [reflexivity|].
  change ("totals" ++ String "." "games")%string with "totals.games" in Hpick.
  rewrite Hpick. reflexivity.
Defined.

(** ** The shared side table across rows and across calls *)

Lemma store_view_refl (st : Store) : store_view st st.
Proof.
  induction st as [|[k o] st IH]; constructor; [|exact IH].
  split; [reflexivity | left; reflexivity].
Qed.

Lemma store_view_assoc (st s : Store) (k : string) :
  store_view st s -> same_view (assoc k st) (assoc k s).
Proof.
  induction 1 as [|[k1 o1] [k2 o2] st s [Hk Ho] Hrest IH]; cbn in *.
  - left. reflexivity.
  - subst k2. destruct (String.eqb k k1); [|exact IH].
    destruct Ho as [-> | ->]; [left | right]; reflexivity.
Qed.

Lemma store_view_put (st s : Store) (k : string) (o o' : jsobject) :
  store_view st s ->
  assoc k st = Some o ->
  o' = o \/ o' = with_index o ->
  store_view st (store_put k o' s).
Proof.
  induction 1 as [|[k1 o1] [k2 o2] st s [Hk Ho] Hrest IH]; cbn in *; intros Ha Ho'.
  - constructor.
  - subst k2. destruct (String.eqb k k1) eqn:E.
    + injection Ha as ->. constructor; [|exact Hrest]. split; [reflexivity | exact Ho'].
    + constructor; [split; [reflexivity | exact Ho] | apply IH; assumption].
Qed.

Lemma buildOne_view (numberToString : number -> string) (row : CsvInputRow) (st s : Store) :
  store_view st s ->
  fst (buildOne numberToString row s) = rowOf numberToString (lookupCSV (csvOf st row)) row /\
  store_view st (snd (buildOne numberToString row s)).
Proof.
  intros Hview. unfold buildOne, csvOf.
  set (key := toLowerCase (in_username row)).
  pose proof (store_view_assoc st s key Hview) as Hsame.
  destruct (buildRow_agrees (assoc key st) numberToString row (assoc key s) Hsame)
    as [Hout Hafter].
  destruct (buildRow (L := SharedLookup) numberToString row (assoc key s)) as [out csv'].
  cbn [fst snd] in *. split; [exact Hout|].
  destruct csv' as [o'|]; [|exact Hview].
  destruct (assoc key st) as [o|] eqn:Est.
  - apply (store_view_put st s key o o' Hview Est).
    destruct Hafter as [H | H]; injection H as ->; [left | right]; reflexivity.
  - destruct Hafter as [H | H]; discriminate H.
Qed.

Lemma mapRows_view (numberToString : number -> string) (rows : list CsvInputRow) :
  forall st s,
    store_view st s ->
    fst (mapRows numberToString rows s)
    = map (fun row => rowOf numberToString (lookupCSV (csvOf st row)) row) rows /\
    store_view st (snd (mapRows numberToString rows s)).
Proof.
  induction rows as [|row rows IH]; intros st s Hview; cbn [mapRows map].
  - split; [reflexivity | exact Hview].
  - destruct (buildOne_view numberToString row st s Hview) as [H1 H2].
    destruct (buildOne numberToString row s) as [out s1]. cbn [fst snd] in *.
    destruct (IH st s1 H2) as [H3 H4].
    destruct (mapRows numberToString rows s1) as [outs s2]. cbn [fst snd] in *.
    split; [now rewrite H1, H3 | exact H4].
Qed.

(** X4.  Rows do not interfere, as long as no user name is a spelling
    of [__proto__]: although the rows of one call share the side table and
    write to it, every row that is built is the row of its own input and
    its own side-table row alone, as if it had been built first; two
    inputs for one user therefore read the same side-table values. *)
Theorem rows_built_independently (numberToString : number -> string)
        (finishedRows : list CsvInputRow) (csvByUser : Store)
        (Hnames : plain_names finishedRows = true) :
  fst (mapRows numberToString finishedRows csvByUser)
  = map (fun row =>
           fst (buildRow (L := SharedLookup) numberToString row (csvOf csvByUser row)))
        finishedRows.
Proof.
  destruct (mapRows_view numberToString finishedRows csvByUser csvByUser
              (store_view_refl csvByUser)) as [H _].
  rewrite H. apply map_ext. intros row. symmetry. apply buildRow_rowOf.
Qed.

Lemma rows_built_independently_witness :
  plain_names three_inputs = true /\
  fst (mapRows printSpecial three_inputs streaks_table)
  = map (fun row =>
           fst (buildRow (L := SharedLookup) printSpecial row (csvOf streaks_table row)))
        three_inputs.
Proof.
  split; [reflexivity|].
  apply (rows_built_independently printSpecial three_inputs streaks_table).
  reflexivity.
Defined.

(** X5.  The index that a call leaves on the side-table rows changes
    nothing for later calls, as long as no user name of the two calls is a
    spelling of [__proto__]: on the side table as the first call leaves
    it, the second call returns the rows it would have returned on the
    side table as it was; in particular the same call twice returns the
    same rows. *)
Theorem cache_never_changes_results
        (numberToString : number -> string) (localeCompare : string -> string -> Z)
        (first second : list CsvInputRow) (csvByUser : Store)
        (Hfirst : plain_names first = true) (Hsecond : plain_names second = true) :
  let left_behind :=
    snd (buildDownloadCsvRowsStrict numberToString localeCompare first csvByUser) in
  fst (buildDownloadCsvRowsStrict numberToString localeCompare second left_behind)
  = fst (buildDownloadCsvRowsStrict numberToString localeCompare second csvByUser) /\
  fst (buildDownloadCsvRowsStrict numberToString localeCompare first left_behind)
  = fst (buildDownloadCsvRowsStrict numberToString localeCompare first csvByUser).
Proof.
  cbv zeta.
  assert (Hleft : store_view csvByUser
            (snd (buildDownloadCsvRowsStrict numberToString localeCompare first csvByUser))).
  { unfold buildDownloadCsvRowsStrict.
    destruct (mapRows_view numberToString first csvByUser csvByUser
                (store_view_refl csvByUser)) as [_ H].
    destruct (mapRows numberToString first csvByUser). exact H. }
  assert (Hany : forall rows,
            fst (buildDownloadCsvRowsStrict numberToString localeCompare rows
                   (snd (buildDownloadCsvRowsStrict numberToString localeCompare first
                           csvByUser)))
            = fst (buildDownloadCsvRowsStrict numberToString localeCompare rows csvByUser)).
  { intros rows. rewrite !buildDownloadCsvRowsStrict_sorted_map. f_equal.
    destruct (mapRows_view numberToString rows csvByUser _ Hleft) as [H1 _].
    destruct (mapRows_view numberToString rows csvByUser csvByUser
                (store_view_refl csvByUser)) as [H2 _].
    now rewrite H1, H2. }
  split; apply Hany.
Qed.

Lemma cache_never_changes_results_witness :
  plain_names three_inputs = true /\
  (let left_behind :=
     snd (buildDownloadCsvRowsStrict printSpecial codeunitCompare three_inputs
            streaks_table) in
   fst (buildDownloadCsvRowsStrict printSpecial codeunitCompare three_inputs left_behind)
   = fst (buildDownloadCsvRowsStrict printSpecial codeunitCompare three_inputs
            streaks_table)).
Proof.
  split; [reflexivity|].
  apply (proj2 (cache_never_changes_results printSpecial codeunitCompare
                  three_inputs three_inputs streaks_table eq_refl eq_refl)).
Defined.

(** X6.  The call neither drops nor invents a row: it returns as many
    rows as it was given, and their user names are the given user names,
    each as often as it was given. *)
Theorem one_row_per_input
        (numberToString : number -> string) (localeCompare : string -> string -> Z)
        (finishedRows : list CsvInputRow) (csvByUser : Store) :
  let out :=
    fst (buildDownloadCsvRowsStrict numberToString localeCompare finishedRows csvByUser) in
  List.length out = List.length finishedRows /\
  Permutation (map username out) (map in_username finishedRows).
Proof.
  cbv zeta. rewrite buildDownloadCsvRowsStrict_sorted_map.
  destruct (mapRows_view numberToString finishedRows csvByUser csvByUser
              (store_view_refl csvByUser)) as [H _].
  assert (Hnames : map username (fst (mapRows numberToString finishedRows csvByUser))
                   = map in_username finishedRows).
  { rewrite H, map_map. apply map_ext. intros row. apply rowOf_identity. }
  assert (Hperm : Permutation
            (Array_sort (compareRows localeCompare)
               (fst (mapRows numberToString finishedRows csvByUser)))
            (fst (mapRows numberToString finishedRows csvByUser))) by apply sort_perm.
  split.
  - rewrite (Permutation_length Hperm), <- (length_map username), Hnames.
    apply length_map.
  - rewrite <- Hnames. apply Permutation_map. exact Hperm.
Qed.

(** ** Gaps and derived rates *)

(** X7.  The two gaps come from a complete pair or not at all.  When both
    win rates of the row are known, [wr_gap] is their difference as the
    doubles give it, rounded to one decimal, and when both elo ratios are
    known, [elo_ratio_gap] is [rat] of their difference, whatever the side
    table and the narrative say about the gap.  The rounding matters:
    the difference of the doubles [0.3] and [0.1] is not the double [0.2],
    and rounded to one decimal it is.  When one operand is unknown the gap
    is the side table's (then, for the elo ratios, the narrative's) and is
    not computed. *)
Theorem gaps_from_complete_pairs (numberToString : number -> string)
        (row : CsvInputRow) (csv : option jsobject) :
  let out := fst (buildRow (L := SharedLookup) numberToString row csv) in
  let look := lookupCSV csv in
  let parsed := parseFromReasons numberToString (reasons out) in
  (forall t nt, tourn_win_rate out = Some t -> non_tourn_win_rate out = Some nt ->
                wr_gap out = Some (round1 (fsub t nt))) /\
  (forall t nt, tourn_elo_ratio out = Some t -> non_tourn_elo_ratio out = Some nt ->
                elo_ratio_gap out = rat (VNum (fsub t nt))) /\
  (forall t nt d, tourn_elo_ratio out = Some t -> non_tourn_elo_ratio out = Some nt ->
                  fsub t nt = Fin d -> elo_ratio_gap out = Some (round3 (Fin d))) /\
  (tourn_win_rate out = None \/ non_tourn_win_rate out = None ->
   wr_gap out = pct (look A.wrGap)) /\
  (tourn_elo_ratio out = None \/ non_tourn_elo_ratio out = None ->
   elo_ratio_gap out = opt_or (rat (look A.eloRatioGap)) (p_gap parsed)) /\
  fsub (dbl 0.3) (dbl 0.1) <> dbl 0.2 /\
  round1 (fsub (dbl 0.3) (dbl 0.1)) = dbl 0.2.
Proof.
  cbv zeta. rewrite buildRow_rowOf.
  pose proof (rowOf_gaps numberToString (lookupCSV csv) row) as (G1 & G2).
  set (parsed := parseFromReasons numberToString _) in *. clearbody parsed.
  set (out := rowOf numberToString (lookupCSV csv) row) in *. clearbody out.
  split; [|split; [|split; [|split; [|split; [|split; [qc_neq | qc_eq]]]]]].
  - intros t nt Ht Hnt. rewrite G1, Ht, Hnt. reflexivity.
  - intros t nt Ht Hnt. rewrite G2, Ht, Hnt. reflexivity.
  - intros t nt d Ht Hnt Hd. rewrite G2, Ht, Hnt, Hd. reflexivity.
  - intros [H | H]; rewrite G1, H; [reflexivity|].
    destruct (tourn_win_rate out); reflexivity.
  - intros [H | H]; rewrite G2, H; [reflexivity|].
    destruct (tourn_elo_ratio out); reflexivity.
Qed.

Lemma gaps_from_complete_pairs_witness :
  wr_gap (fst (buildRow (L := SharedLookup) printSpecial
                 (mkInput "player" scenario_result) None))
  = Some (round1 (fsub (Fin (qz 70)) (Fin (qz 20)))) /\
  round1 (fsub (Fin (qz 70)) (Fin (qz 20))) = Fin (qz 50).
Proof.
  split; [|qc_eq].
  apply (proj1 (gaps_from_complete_pairs printSpecial
                  (mkInput "player" scenario_result) None)); qc_eq.
Defined.

Lemma ratio_in_unit (w g : Qc) :
  (0 < g)%Qc -> (0 <= w)%Qc -> (w <= g)%Qc -> (0 <= w / g /\ w / g <= 1)%Q.
Proof.
  intros Hg Hw Hle. unfold Qcle, Qclt in *.
  change (this 0%Qc) with 0%Q in *.
  split.
  - apply Qle_shift_div_l; [exact Hg|]. lra.
  - apply Qle_shift_div_r; [exact Hg|]. lra.
Qed.

Lemma fillRate_known (w g : Qc) :
  ((g <= 0)%Qc -> fillRate None (Some w) (Some g) = None) /\
  ((0 < g)%Qc -> (0 <= w)%Qc -> (w <= g)%Qc ->
   exists p : Qc, fillRate None (Some w) (Some g) = Some (Fin p) /\
                  tenths p /\ (0 <= p)%Qc /\ (p <= qz 100)%Qc).
Proof.
  split.
  - intros Hg. unfold fillRate. assert (E : positive g = false).
    { apply not_true_is_false. intros H. apply positive_iff in H.
      exact (Qclt_not_le _ _ H Hg). }
    rewrite E, andb_false_r. reflexivity.
  - intros Hg Hw Hle.
    assert (E : positive g = true) by (apply positive_iff; exact Hg).
    assert (Z0 : is_zero g = false).
    { unfold is_zero. apply not_true_is_false. intros H.
      apply Qeq_bool_eq in H. unfold Qclt in Hg. change (this 0%Qc) with 0%Q in Hg.
      rewrite H in Hg. exact (Qlt_irrefl _ Hg). }
    rewrite fillRate_eq by (rewrite E, Z0; reflexivity).
    destruct (ratio_in_unit w g Hg Hw Hle) as [H0 H1].
    set (x := fmul (fdiv (Fin w) (Fin g)) (Fin (qz 100))).
    assert (Hq0 : nleb (Fin (qz 0)) (fdiv (Fin w) (Fin g)) = true).
    { cbn [fdiv]. unfold is_zero in Z0. rewrite Z0.
      apply fl_ge; [rewrite (this_qz 0); exact H0 | double_const | double_const]. }
    assert (Hq1 : nleb (fdiv (Fin w) (Fin g)) (Fin (qz 1)) = true).
    { cbn [fdiv]. unfold is_zero in Z0. rewrite Z0.
      apply fl_le; [rewrite (this_qz 1); exact H1 | double_const | double_const]. }
    assert (Hx0 : nleb (Fin (qz 0)) x = true).
    { apply (fmul_ge _ (qz 0) (qz 100) (qz 0));
        [apply qz_pos; reflexivity | exact Hq0 | | double_const | double_const].
      rewrite (this_qz 0), (this_qz 100). vm_compute. discriminate. }
    assert (Hx1 : nleb x (Fin (qz 100)) = true).
    { apply (fmul_le _ (qz 1) (qz 100) (qz 100));
        [apply qz_pos; reflexivity | exact Hq1 | | double_const | double_const].
      rewrite (this_qz 1), (this_qz 100). vm_compute. discriminate. }
    assert (Hr0 : nleb (Fin (qz 0)) (round1 x) = true).
    { apply (round1_ge x 0); [exact Hx0 | vm_compute; discriminate
                              | double_const | double_const]. }
    assert (Hr1 : nleb (round1 x) (Fin (qz 100)) = true).
    { apply (round1_le x 100); [exact Hx1 | vm_compute; discriminate
                                | double_const | double_const]. }
    destruct (nleb_bounds _ _ _ Hr0 Hr1) as [p [Ep [Hp0 Hp1]]].
    exists p. split; [now rewrite Ep|].
    split; [|split; [exact Hp0 | exact Hp1]].
    assert (Hx : x <> NaN).
    { subst x. apply fmul_const_cases; [apply qz_pos; reflexivity|].
      apply fdiv_finite_not_NaN. exact Z0. }
    destruct (round1_one_decimal x Hx) as [[H | H] | [p' [H Hp']]]; rewrite Ep in H.
    + discriminate.
    + discriminate.
    + injection H as ->. exact Hp'.
Qed.

(** X8.  A win rate that no source gives directly is derived from the
    counts of the row, and never by a division by zero.  With known wins
    and games and no direct rate: when the games are zero or negative the
    rate stays unknown; when the games are positive and the wins lie
    between [0] and the games, the rate is a number with one decimal
    between [0] and [100].  This holds for the tournament and for the
    non-tournament rate. *)
Theorem derived_win_rate_bounds (numberToString : number -> string)
        (row : CsvInputRow) (csv : option jsobject) :
  let out := fst (buildRow (L := SharedLookup) numberToString row csv) in
  let r := source row in
  let look := lookupCSV csv in
  (forall w g,
     resolved pct r look ["tournament.win_rate"; "t.win_rate"] A.tWR = None ->
     tourn_wins out = Some w -> tourn_games out = Some g ->
     ((g <= 0)%Qc -> tourn_win_rate out = None) /\
     ((0 < g)%Qc -> (0 <= w)%Qc -> (w <= g)%Qc ->
      exists p : Qc, tourn_win_rate out = Some (Fin p) /\
                     tenths p /\ (0 <= p)%Qc /\ (p <= qz 100)%Qc)) /\
  (forall w g,
     resolved pct r look ["non_tournament.win_rate"; "nt.win_rate"] A.ntWR = None ->
     non_tourn_wins out = Some w -> non_tourn_games out = Some g ->
     ((g <= 0)%Qc -> non_tourn_win_rate out = None) /\
     ((0 < g)%Qc -> (0 <= w)%Qc -> (w <= g)%Qc ->
      exists p : Qc, non_tourn_win_rate out = Some (Fin p) /\
                     tenths p /\ (0 <= p)%Qc /\ (p <= qz 100)%Qc)).
Proof.
  cbv zeta. rewrite buildRow_rowOf.
  pose proof (rowOf_rates numberToString (lookupCSV csv) row) as (R1 & R2 & _).
  set (out := rowOf numberToString (lookupCSV csv) row) in *. clearbody out.
  split; intros w g Hdirect Hw Hg.
  - rewrite R1, Hdirect, Hw, Hg. apply fillRate_known.
  - rewrite R2, Hdirect, Hw, Hg. apply fillRate_known.
Qed.

Lemma derived_win_rate_bounds_witness :
  tourn_win_rate (fst (buildRow (L := SharedLookup) printSpecial
                         (mkInput "player" no_games_result) None)) = None /\
  exists p : Qc,
    tourn_win_rate (fst (buildRow (L := SharedLookup) printSpecial
                           (mkInput "player" scenario_result) None)) = Some (Fin p) /\
    tenths p /\ (0 <= p)%Qc /\ (p <= qz 100)%Qc.
Proof.
  split.
  - apply (proj1 (derived_win_rate_bounds printSpecial
                    (mkInput "player" no_games_result) None) (qz 0) (qz 0)); qc_eq.
  - apply (proj1 (derived_win_rate_bounds printSpecial
                    (mkInput "player" scenario_result) None) (qz 7) (qz 10)); qc_eq.
Defined.

(** ** A narrative without numbers *)

Lemma no_digit_prefix (s : string) : forall n, no_digit s = true -> no_digit (substring 0 n s) = true.
Proof.
  induction s as [|c s IH]; intros [|n] H; try reflexivity.
  cbn in *. apply andb_prop in H as [Hc Hs]. rewrite Hc. cbn. apply IH. exact Hs.
Qed.

Lemma many_quiet (p : ascii -> bool) (s : string) :
  forall least prev (k : option ascii -> string -> option match_result),
    no_digit s = true ->
    (forall pr s', no_digit s' = true -> quiet (k pr s')) ->
    quiet (many p least prev s k).
Proof.
  induction s as [|c s IH]; intros least prev k Hs Hk; cbn [many].
  - destruct (least =? 0)%nat; [apply Hk; exact Hs | exact I].
  - assert (Hhere : quiet (if (least =? 0)%nat then k prev (String c s) else None)).
    { destruct (least =? 0)%nat; [apply Hk; exact Hs | exact I]. }
    destruct (p c); [|exact Hhere].
    cbn in Hs. apply andb_prop in Hs as [_ Hs].
    pose proof (IH (pred least) (Some c) k Hs Hk) as Hrec.
    destruct (many p (pred least) (Some c) s k); [exact Hrec | exact Hhere].
Qed.

Lemma rmatch_quiet (r : regex) :
  forall prev s cap (k : option ascii -> string -> option string -> option match_result),
    no_digit s = true ->
    quiet_capture cap ->
    (forall pr s' cap', no_digit s' = true -> quiet_capture cap' -> quiet (k pr s' cap')) ->
    quiet (rmatch r prev s cap k).
Proof.
  induction r as [|p|least p|r1 IH1|r1 IH1 r2 IH2| |r1 IH1];
    intros prev s cap k Hs Hcap Hk; cbn [rmatch].
  - apply Hk; assumption.
  - destruct s as [|c s]; [exact I|].
    destruct (p c); [|exact I].
    cbn in Hs. apply andb_prop in Hs as [_ Hs]. apply Hk; assumption.
  - apply many_quiet; [exact Hs|]. intros pr s' Hs'. apply Hk; assumption.
  - pose proof (IH1 prev s cap k Hs Hcap Hk) as H1.
    destruct (rmatch r1 prev s cap k); [exact H1 | apply Hk; assumption].
  - apply IH1; [exact Hs | exact Hcap|].
    intros pr s' cap' Hs' Hcap'. apply IH2; assumption.
  - destruct (xorb (word_before prev) (word_at s)); [apply Hk; assumption | exact I].
  - apply IH1; [exact Hs | exact Hcap|].
    intros pr s' _ Hs' _. apply Hk; [exact Hs'|].
    cbn. unfold consumed. apply no_digit_prefix. exact Hs.
Qed.

Lemma js_match_quiet (r : regex) (s : string) : no_digit s = true -> quiet (js_match s r).
Proof.
  unfold js_match. generalize (@None ascii).
  induction s as [|c s IH]; intros prev Hs; rewrite search_eq.
  - assert (H : quiet (match_here r prev EmptyString)).
    { unfold match_here. apply rmatch_quiet; [exact Hs | exact I|].
      intros pr s' cap' _ Hcap'. destruct cap'; [exact Hcap' | exact I]. }
    destruct (match_here r prev EmptyString); [exact H | exact I].
  - assert (H : quiet (match_here r prev (String c s))).
    { unfold match_here. apply rmatch_quiet; [exact Hs | exact I|].
      intros pr s' cap' _ Hcap'. destruct cap'; [exact Hcap' | exact I]. }
    destruct (match_here r prev (String c s)); [exact H|].
    cbn in Hs. apply andb_prop in Hs as [_ Hs]. apply IH. exact Hs.
Qed.

Lemma num_no_digit (g : string) : no_digit g = true -> num (VStr g) = None.
Proof.
  intros H. unfold num, js_match. rewrite search_no_digit by exact H. reflexivity.
Qed.

Lemma on_group1_quiet {T : Type} (f : value -> option T) (m : option match_result) :
  (forall g, no_digit g = true -> f (VStr g) = None) ->
  f VUndefined = None ->
  quiet m -> on_group1 f m = None.
Proof.
  intros Hf Hu Hm. destruct m as [[m0 [g|]]|]; cbn in *; auto.
Qed.

Lemma or_match_quiet (a b : option match_result) : quiet a -> quiet b -> quiet (or_match a b).
Proof. destruct a; auto. Qed.

(** X9.  A narrative that holds no digit yields nothing: every one of
    the seven facts that [parseFromReasons] looks for is unknown, whatever
    else the text says; so is every fact for a narrative that is missing,
    null or empty. *)
Theorem narrative_without_digits (numberToString : number -> string) (reasons : value) :
  no_digit (toStr numberToString (coalesce reasons (VStr EmptyString))) = true ->
  parseFromReasons numberToString reasons = nothing_parsed.
Proof.
  intros H. unfold parseFromReasons, parseText, nothing_parsed.
  set (R := toStr numberToString (coalesce reasons (VStr EmptyString))) in *.
  assert (Hnum : forall g, no_digit g = true -> num (VStr g) = None)
    by apply num_no_digit.
  assert (Hrat : forall g, no_digit g = true -> rat (VStr g) = None).
  { intros g Hg. unfold rat. now rewrite Hnum. }
  assert (Hpct : forall g, no_digit g = true -> pct (VStr g) = None).
  { intros g Hg. unfold pct. now rewrite Hnum. }
  assert (Hq : forall r, quiet (js_match R r)).
  { intros r. apply js_match_quiet. exact H. }
  f_equal; apply on_group1_quiet; auto using or_match_quiet.
Qed.

Lemma narrative_without_digits_witness :
  parseFromReasons printSpecial (VStr "elo ratio: . (gap .) many upset wins over rated games")
  = nothing_parsed /\
  parseFromReasons printSpecial VUndefined = nothing_parsed.
Proof.
  split; apply narrative_without_digits; reflexivity.
Defined.

(* ================================================================== *)
(** ** Names typed by the user *)

Lemma mem_true (k : string) (l : list string) : mem k l = true <-> In k l.
Proof.
  unfold mem. rewrite existsb_exists. split.
  - intros [x [Hin E]]. apply String.eqb_eq in E. now subst.
  - intros Hin. exists k. split; [assumption | apply String.eqb_refl].
Qed.

Lemma mem_false (k : string) (l : list string) : mem k l = false <-> ~ In k l.
Proof.
  rewrite <- mem_true. destruct (mem k l); split; intros; congruence.
Qed.

Lemma uniq_loop_out (arr : list string) :
  forall seen out, uniq_loop arr seen out = out ++ uniq_loop arr seen [].
Proof.
  induction arr as [|u rest IH]; intros seen out; simpl.
  - now rewrite app_nil_r.
  - destruct (mem (toLowerCase u) seen).
    + apply IH.
    + rewrite IH. rewrite (IH _ [u]). now rewrite <- app_assoc.
Qed.

Lemma uniq_loop_seen (arr : list string) :
  forall s1 s2, (forall k, mem k s1 = mem k s2) ->
  uniq_loop arr s1 [] = uniq_loop arr s2 [].
Proof.
  induction arr as [|u rest IH]; intros s1 s2 Hs; simpl; [reflexivity|].
  rewrite <- Hs. destruct (mem (toLowerCase u) s1).
  - now apply IH.
  - rewrite (uniq_loop_out rest (_ :: s1)), (uniq_loop_out rest (_ :: s2)).
    f_equal. apply IH. intros k. simpl. now rewrite Hs.
Qed.

Lemma uniq_loop_in (arr : list string) :
  forall seen v, In v (uniq_loop arr seen []) ->
  In v arr /\ mem (toLowerCase v) seen = false.
Proof.
  induction arr as [|u rest IH]; intros seen v; simpl; [tauto|].
  destruct (mem (toLowerCase u) seen) eqn:E.
  - intros H. apply IH in H. tauto.
  - rewrite uniq_loop_out. simpl. intros [<- | H]; [tauto|].
    apply IH in H. destruct H as [Hin Hm]. split; [tauto|].
    simpl in Hm. now apply orb_false_elim in Hm.
Qed.

Lemma uniq_loop_distinct (arr : list string) :
  forall seen, distinct_ignoring_case (uniq_loop arr seen []).
Proof.
  unfold distinct_ignoring_case.
  induction arr as [|u rest IH]; intros seen; simpl; [constructor|].
  destruct (mem (toLowerCase u) seen) eqn:E; [apply IH|].
  rewrite uniq_loop_out. simpl. constructor; [|apply IH].
  intros Hin. apply in_map_iff in Hin. destruct Hin as [v [Hk Hv]].
  apply uniq_loop_in in Hv. destruct Hv as [_ Hm]. simpl in Hm.
  rewrite Hk, String.eqb_refl in Hm. discriminate.
Qed.

Lemma uniq_loop_covers (arr : list string) :
  forall seen v, In v arr ->
  mem (toLowerCase v) seen = true
  \/ In (toLowerCase v) (map toLowerCase (uniq_loop arr seen [])).
Proof.
  induction arr as [|u rest IH]; intros seen v; simpl; [tauto|].
  intros [<- | Hin].
  - destruct (mem (toLowerCase u) seen) eqn:E; [now left|].
    right. rewrite uniq_loop_out. simpl. now left.
  - destruct (mem (toLowerCase u) seen) eqn:E; [now apply IH|].
    rewrite uniq_loop_out. simpl.
    destruct (IH (toLowerCase u :: seen) v Hin) as [Hm | Hm]; [|tauto].
    simpl in Hm. apply orb_true_iff in Hm. destruct Hm as [Hm | Hm]; [|tauto].
    apply String.eqb_eq in Hm. right. left. congruence.
Qed.

Lemma uniq_loop_fixed (arr : list string) :
  forall seen, (forall v, In v arr -> mem (toLowerCase v) seen = false) ->
  distinct_ignoring_case arr -> uniq_loop arr seen [] = arr.
Proof.
  unfold distinct_ignoring_case.
  induction arr as [|u rest IH]; intros seen Hs Hd; simpl; [reflexivity|].
  rewrite (Hs u (or_introl eq_refl)). rewrite uniq_loop_out. simpl. f_equal.
  simpl in Hd. inversion Hd as [|? ? Hnotin Hd']; subst.
  apply IH; [|assumption].
  intros v Hv. simpl. rewrite (Hs v (or_intror Hv)), orb_false_r.
  apply String.eqb_neq. intros E. apply Hnotin. rewrite <- E. now apply in_map.
Qed.

Lemma uniq_loop_later_spellings (k : string) (l : list string) :
  forall seen,
  uniq_loop l (k :: seen) []
  = uniq_loop (filter (fun v => negb (String.eqb (toLowerCase v) k)) l) seen [].
Proof.
  induction l as [|v rest IH]; intros seen; simpl; [reflexivity|].
  destruct (String.eqb (toLowerCase v) k) eqn:E; simpl; [apply IH|].
  destruct (mem (toLowerCase v) seen) eqn:Em; [apply IH|].
  rewrite (uniq_loop_out rest), (uniq_loop_out (filter _ rest)). f_equal.
  rewrite <- IH. apply uniq_loop_seen. intros x. simpl.
  destruct (String.eqb x (toLowerCase v)), (String.eqb x k); reflexivity.
Qed.

Lemma uniq_in (l : list string) (v : string) : In v (uniq l) -> In v l.
Proof. intros H. now apply uniq_loop_in in H. Qed.

(** X10.  [uniq] keeps the first spelling of every name and drops the
    later ones, whatever their case: the head of the list is kept and the
    rest is treated without its other spellings; the names kept differ
    pairwise when case is ignored; every name of the input is kept in some
    spelling; and a list already treated is left as it is. *)
Theorem uniq_keeps_first_spellings (u : string) (l : list string) :
  uniq (u :: l)
  = u :: uniq (filter (fun v => negb (String.eqb (toLowerCase v) (toLowerCase u))) l)
  /\ distinct_ignoring_case (uniq l)
  /\ incl (map toLowerCase l) (map toLowerCase (uniq l))
  /\ uniq (uniq l) = uniq l.
Proof.
  split; [|split; [|split]].
  - unfold uniq. simpl. rewrite uniq_loop_out. simpl. f_equal.
    apply uniq_loop_later_spellings.
  - apply uniq_loop_distinct.
  - intros k Hk. apply in_map_iff in Hk. destruct Hk as [v [<- Hin]].
    destruct (uniq_loop_covers l [] v Hin) as [H | H]; [discriminate | exact H].
  - apply uniq_loop_fixed; [reflexivity | apply uniq_loop_distinct].
Qed.

Lemma strip_start_head (p : ascii -> bool) (s : string) :
  match strip_start p s with
  | EmptyString => True
  | String c _ => p c = false
  end.
Proof.
  induction s as [|c s IH]; simpl; [exact I|].
  destruct (p c) eqn:E; [exact IH | exact E].
Qed.

Lemma strip_start_fixed (p : ascii -> bool) (s : string) :
  match s with EmptyString => True | String c _ => p c = false end ->
  strip_start p s = s.
Proof. destruct s as [|c s]; simpl; [reflexivity|]. now intros ->. Qed.

Lemma strip_end_idem (p : ascii -> bool) (s : string) :
  strip_end p (strip_end p s) = strip_end p s.
Proof.
  induction s as [|c s IH]; simpl; [reflexivity|].
  destruct (p c && String.eqb (strip_end p s) EmptyString) eqn:E; [reflexivity|].
  simpl. now rewrite IH, E.
Qed.

Lemma strip_end_head (p : ascii -> bool) (s : string) :
  match s with EmptyString => True | String c _ => p c = false end ->
  match strip_end p s with EmptyString => True | String c _ => p c = false end.
Proof. destruct s as [|c s]; simpl; [trivial|]. intros E. now rewrite E. Qed.

(** Stripping both ends a second time changes nothing. *)
Lemma strip_both_idem (p : ascii -> bool) (s : string) :
  strip_end p (strip_start p (strip_end p (strip_start p s)))
  = strip_end p (strip_start p s).
Proof.
  rewrite (strip_start_fixed p (strip_end p _)).
  - apply strip_end_idem.
  - apply strip_end_head, strip_start_head.
Qed.

Lemma trim_idem (s : string) : trim (trim s) = trim s.
Proof. apply strip_both_idem. Qed.

Lemma strip_start_length (p : ascii -> bool) (s : string) :
  (String.length (strip_start p s) <= String.length s)%nat.
Proof.
  induction s as [|c s IH]; simpl; [lia|].
  destruct (p c); simpl; lia.
Qed.

Lemma strip_end_length (p : ascii -> bool) (s : string) :
  (String.length (strip_end p s) <= String.length s)%nat.
Proof.
  induction s as [|c s IH]; simpl; [lia|].
  destruct (p c && _); simpl; lia.
Qed.

Lemma trim_fixed_ends (s : string) :
  trim s = s -> strip_start is_space s = s /\ strip_end is_space s = s.
Proof.
  unfold trim. intros H.
  assert (Hs : strip_start is_space s = s).
  { destruct s as [|c s]; [reflexivity|]. simpl in *.
    destruct (is_space c); [|reflexivity].
    pose proof (strip_end_length is_space (strip_start is_space s)).
    pose proof (strip_start_length is_space s).
    apply (f_equal String.length) in H. simpl in H. lia. }
  split; [assumption | now rewrite Hs in H].
Qed.

Lemma has_char_strip_start (p : ascii -> bool) (c : ascii) (s : string) :
  has_char c s = false -> has_char c (strip_start p s) = false.
Proof.
  induction s as [|d s IH]; simpl; [trivial|].
  intros H. apply orb_false_elim in H. destruct H as [H1 H2].
  destruct (p d); [auto|]. simpl. now rewrite H1, H2.
Qed.

Lemma has_char_strip_end (p : ascii -> bool) (c : ascii) (s : string) :
  has_char c s = false -> has_char c (strip_end p s) = false.
Proof.
  induction s as [|d s IH]; simpl; [trivial|].
  intros H. apply orb_false_elim in H. destruct H as [H1 H2].
  destruct (p d && _); [reflexivity|]. simpl. now rewrite H1, IH.
Qed.

Lemma has_char_trim (c : ascii) (s : string) :
  has_char c s = false -> has_char c (trim s) = false.
Proof. intros H. now apply has_char_strip_end, has_char_strip_start. Qed.

Lemma has_char_app (c : ascii) (a b : string) :
  has_char c (a ++ b)%string = has_char c a || has_char c b.
Proof.
  induction a as [|d a IH]; simpl; [reflexivity|]. now rewrite IH, orb_assoc.
Qed.

Lemma has_char_remove (p : ascii -> bool) (c : ascii) (s : string) :
  p c = true \/ has_char c s = false -> has_char c (remove_chars p s) = false.
Proof.
  induction s as [|d s IH]; simpl; [trivial|].
  intros H. destruct (p d) eqn:E.
  - apply IH. destruct H as [H | H]; [now left|].
    apply orb_false_elim in H. tauto.
  - simpl. destruct (Ascii.eqb d c) eqn:Ed.
    + apply Ascii.eqb_eq in Ed. subst d. destruct H as [H | H]; [congruence|].
      simpl in H. discriminate.
    + simpl. apply IH. destruct H as [H | H]; [now left|].
      simpl in H. tauto.
Qed.

(** No piece of a split holds a separator. *)
Lemma split_runs_pieces (sep : ascii -> bool) (c : ascii) (s : string) :
  sep c = true ->
  forall cur in_run piece,
  has_char c cur = false ->
  In piece (split_runs sep cur in_run s) -> has_char c piece = false.
Proof.
  intros Hc. induction s as [|d s IH]; intros cur in_run piece Hcur; simpl.
  - intros [<- | []]. exact Hcur.
  - destruct (sep d) eqn:E.
    + destruct in_run; simpl.
      * now apply IH.
      * intros [<- | H]; [exact Hcur|]. now apply IH in H.
    + apply IH. rewrite has_char_app, Hcur. simpl.
      destruct (Ascii.eqb d c) eqn:Ed; [|reflexivity].
      apply Ascii.eqb_eq in Ed. congruence.
Qed.

Lemma nonempty_true (s : string) : nonempty s = true <-> s <> EmptyString.
Proof.
  unfold nonempty. destruct (String.eqb s EmptyString) eqn:E; simpl.
  - apply String.eqb_eq in E. split; [discriminate | congruence].
  - apply String.eqb_neq in E. tauto.
Qed.

Lemma names_kept {A : Type} (f : A -> string) (l : list A) (u : string) :
  In u (uniq (filter nonempty (map f l))) ->
  u <> EmptyString /\ exists x, In x l /\ u = f x.
Proof.
  intros H. apply uniq_in, filter_In in H. destruct H as [Hin Hne].
  apply nonempty_true in Hne. apply in_map_iff in Hin.
  destruct Hin as [x [E Hx]]. split; [assumption|]. now exists x.
Qed.

(** X11.  Whatever the text typed and whatever [JSON.parse] makes of it,
    the names that [parseUserInput] returns are non-empty, carry no white
    space at either end, and differ pairwise when case is ignored. *)
Theorem parsed_names_are_clean (JSON_parse : string -> option value)
  (numberToString : number -> string) (raw : string) :
  let names := parseUserInput JSON_parse numberToString raw in
  Forall (fun u => u <> EmptyString /\ trim u = u) names
  /\ distinct_ignoring_case names.
Proof.
  cbv zeta. unfold parseUserInput.
  destruct (String.eqb (trim raw) EmptyString); [split; constructor|].
  split.
  - apply Forall_forall. intros u Hu.
    destruct (JSON_parse (trim raw)) as [[]|];
      apply names_kept in Hu; destruct Hu as [Hne [x [_ ->]]];
      (split; [assumption | apply trim_idem]).
  - destruct (JSON_parse (trim raw)) as [[]|]; apply uniq_loop_distinct.
Qed.

(** X12.  When the text is not a JSON array, no name that
    [parseUserInput] returns holds a comma, a line feed or a quote. *)
Theorem plain_names_without_separators (JSON_parse : string -> option value)
  (numberToString : number -> string) (raw : string) (u : string) (c : ascii) :
  (forall items, JSON_parse (trim raw) <> Some (VArr items)) ->
  In u (parseUserInput JSON_parse numberToString raw) ->
  newline_or_comma c || is_quote c = true ->
  has_char c u = false.
Proof.
  intros Hjson Hu Hc. unfold parseUserInput in Hu.
  destruct (String.eqb (trim raw) EmptyString); [destruct Hu|].
  assert (Hplain : In u (uniq (filter nonempty
            (map (fun u => trim (remove_chars is_quote u))
                 (split_on_runs newline_or_comma (trim raw)))))).
  { destruct (JSON_parse (trim raw)) as [[]|]; try exact Hu.
    exfalso. eapply Hjson. reflexivity. }
  clear Hu. apply names_kept in Hplain. destruct Hplain as [_ [x [Hx ->]]].
  apply has_char_trim, has_char_remove.
  destruct (is_quote c) eqn:Eq; [now left|]. right.
  rewrite orb_false_r in Hc.
  exact (split_runs_pieces newline_or_comma c (trim raw) Hc EmptyString false x eq_refl Hx).
Qed.

Lemma plain_names_without_separators_witness :
  In "bob" (parseUserInput parse_nothing printSpecial " 'Ann', ann,,bob ")
  /\ has_char "," "bob" = false.
Proof.
  assert (Hin : In "bob" (parseUserInput parse_nothing printSpecial " 'Ann', ann,,bob ")).
  { vm_compute. right. left. reflexivity. }
  split; [exact Hin|].
  apply (plain_names_without_separators parse_nothing printSpecial
           " 'Ann', ann,,bob " "bob" ",").
  - intros items. unfold parse_nothing. discriminate.
  - exact Hin.
  - reflexivity.
Defined.

(* ================================================================== *)
(** ** Phrases of the narrative *)

(** X13.  The phrases that [reasonsAsArray] cuts out of a text are
    non-empty, carry no white space at either end and hold no separator. *)
Theorem phrases_are_clean (text : string) :
  Forall clean_phrase (reasonsAsArray (ReasonsText text)).
Proof.
  unfold reasonsAsArray.
  destruct (String.eqb text EmptyString); [constructor|].
  apply Forall_forall. intros p Hp. apply filter_In in Hp. destruct Hp as [Hin Hne].
  apply nonempty_true in Hne. apply in_map_iff in Hin. destruct Hin as [x [<- Hx]].
  split; [assumption|]. split; [apply trim_idem|].
  intros c Hc. apply has_char_trim.
  exact (split_runs_pieces phrase_separator c text Hc EmptyString false x eq_refl Hx).
Qed.

Lemma split_runs_word (sep : ascii -> bool) (p : string) :
  (forall c, sep c = true -> has_char c p = false) -> p <> EmptyString ->
  forall cur in_run rest,
  split_runs sep cur in_run (p ++ rest)%string
  = split_runs sep (cur ++ p)%string false rest.
Proof.
  induction p as [|d p IH]; intros Hsep Hne cur in_run rest; [congruence|].
  assert (Hd : sep d = false).
  { destruct (sep d) eqn:E; [|reflexivity].
    specialize (Hsep d E). simpl in Hsep. now rewrite Ascii.eqb_refl in Hsep. }
  simpl. rewrite Hd.
  destruct p as [|e p].
  - reflexivity.
  - rewrite IH; [|intros c Hc; specialize (Hsep c Hc); simpl in Hsep |- *;
                  now apply orb_false_elim in Hsep | discriminate].
    now rewrite string_app_assoc.
Qed.

Lemma clean_after_space (q : string) :
  clean_phrase q -> trim (String " " q) = q.
Proof.
  intros [_ [Ht _]]. apply trim_fixed_ends in Ht. destruct Ht as [Hs He].
  unfold trim. simpl. now rewrite Hs.
Qed.

Lemma join_phrases_split (ps : list string) :
  forall p cur in_run,
  Forall clean_phrase (p :: ps) ->
  (forall q, clean_phrase q -> trim (cur ++ q)%string = q) ->
  filter nonempty (map trim (split_runs phrase_separator cur in_run (join "; " (p :: ps))))
  = p :: ps.
Proof.
  induction ps as [|q qs IH]; intros p cur in_run Hall Hcur;
    inversion Hall as [|? ? Hp Hrest]; subst.
  - simpl join. rewrite <- (string_app_nil_r p) at 1.
    destruct Hp as [Hne [Ht Hsep]].
    rewrite (split_runs_word phrase_separator p Hsep Hne). simpl.
    rewrite (Hcur p (conj Hne (conj Ht Hsep))).
    apply (proj2 (nonempty_true _)) in Hne. now rewrite Hne.
  - change (join "; " (p :: q :: qs)) with (p ++ String ";" (String " " (join "; " (q :: qs))))%string.
    destruct Hp as [Hne [Ht Hsep]].
    rewrite (split_runs_word phrase_separator p Hsep Hne).
    cbn [split_runs phrase_separator]. 
    change (phrase_separator ";") with true. cbv iota.
    change (phrase_separator " ") with false. cbv iota.
    cbn [map filter]. rewrite (Hcur p (conj Hne (conj Ht Hsep))).
    apply (proj2 (nonempty_true _)) in Hne. rewrite Hne. f_equal.
    apply IH; [assumption|]. intros x Hx. now apply clean_after_space.
Qed.

Lemma join_nonempty (p : string) (ps : list string) :
  p <> EmptyString -> join "; " (p :: ps) <> EmptyString.
Proof.
  destruct p as [|d p]; [congruence|]. intros _. destruct ps; simpl; discriminate.
Qed.

Lemma reasonsAsArray_join (phrases : list string) :
  Forall clean_phrase phrases ->
  reasonsAsArray (ReasonsText (join "; " phrases)) = phrases.
Proof.
  intros Hall. destruct phrases as [|p ps]; [reflexivity|].
  unfold reasonsAsArray.
  assert (Hne : join "; " (p :: ps) <> EmptyString).
  { apply join_nonempty. inversion Hall as [|? ? [H _] _]. exact H. }
  apply String.eqb_neq in Hne. rewrite Hne.
  apply join_phrases_split; [assumption|]. now intros q [_ [Hq _]].
Qed.

(** X14.  The phrases of a scan result survive the export: when the
    result holds a list of clean phrases, the [reasons] cell of its row is
    one text, and [reasonsAsArray] cuts that text back into the same
    phrases in the same order. *)
Theorem phrases_round_trip (numberToString : number -> string)
  (look : list string -> value) (row : CsvInputRow) (phrases : list string) :
  Forall clean_phrase phrases ->
  get (source row) "reasons" = VArr (map VStr phrases) ->
  exists text,
    reasons (rowOf numberToString look row) = VStr text
    /\ reasonsAsArray (ReasonsText text) = phrases.
Proof.
  intros Hall Hget. exists (join "; " phrases). split.
  - rewrite rowOf_reasons, Hget. f_equal. f_equal.
    rewrite map_map. rewrite <- (map_id phrases) at 2. apply map_ext. reflexivity.
  - now apply reasonsAsArray_join.
Qed.

Lemma phrases_round_trip_witness :
  exists text,
    reasons (rowOf printSpecial (fun _ => VUndefined)
               (mkInput "ann" (VObj [("reasons", VArr [VStr "fast wins"; VStr "gap 0.4"])])))
    = VStr text
    /\ reasonsAsArray (ReasonsText text) = ["fast wins"; "gap 0.4"].
Proof.
  apply (phrases_round_trip printSpecial (fun _ => VUndefined)
           (mkInput "ann" (VObj [("reasons", VArr [VStr "fast wins"; VStr "gap 0.4"])]))
           ["fast wins"; "gap 0.4"]).
  - repeat constructor; try discriminate;
      intros c Hc; unfold phrase_separator in Hc;
      repeat (apply orb_true_iff in Hc; destruct Hc as [Hc | Hc]);
      apply Ascii.eqb_eq in Hc; subst c; reflexivity.
  - reflexivity.
Defined.


(* ================================================================== *)
(** ** The file that is downloaded *)

Lemma quoted_tail_injective (a : string) :
  forall b,
  (double_quotes a ++ String double_quote EmptyString)%string
  = (double_quotes b ++ String double_quote EmptyString)%string ->
  a = b.
Proof.
  induction a as [|c a IH]; intros [|d b]; simpl.
  - reflexivity.
  - destruct (Ascii.eqb d double_quote) eqn:E; simpl; intros H;
      inversion H; subst; discriminate.
  - destruct (Ascii.eqb c double_quote) eqn:E; simpl; intros H;
      inversion H; subst; discriminate.
  - destruct (Ascii.eqb c double_quote) eqn:Ec, (Ascii.eqb d double_quote) eqn:Ed;
      simpl; intros H; inversion H; subst.
    + apply Ascii.eqb_eq in Ec, Ed. subst. f_equal. now apply IH.
    + rewrite Ascii.eqb_refl in Ed. discriminate.
    + rewrite Ascii.eqb_refl in Ec. discriminate.
    + f_equal. now apply IH.
Qed.

Lemma quoted_needs_quotes (s t : string) :
  s = String double_quote t -> needs_quotes s = true.
Proof. intros ->. reflexivity. Qed.

(** X15.  Escaping loses nothing of a text: two texts with the same
    cell are the same text. *)
Theorem escaped_texts_differ (numberToString : number -> string) (a b : string) :
  escapeCsvCell numberToString (VStr a) = escapeCsvCell numberToString (VStr b) ->
  a = b.
Proof.
  unfold escapeCsvCell. simpl.
  destruct (needs_quotes a) eqn:Ea, (needs_quotes b) eqn:Eb; intros H.
  - inversion H as [H1]. now apply quoted_tail_injective.
  - symmetry in H. apply quoted_needs_quotes in H. congruence.
  - apply quoted_needs_quotes in H. congruence.
  - exact H.
Qed.

Lemma escaped_texts_differ_witness :
  escapeCsvCell printSpecial (VStr "fast, then slow")
  = String double_quote ("fast, then slow" ++ String double_quote EmptyString)%string
  /\ "fast, then slow" = "fast, then slow".
Proof.
  split; [reflexivity|].
  apply (escaped_texts_differ printSpecial "fast, then slow" "fast, then slow").
  reflexivity.
Defined.

Lemma row_object_keys (o : CanonicalRow) : map fst (row_object o) = strict_columns.
Proof. reflexivity. Qed.

Lemma columns_of_strict_rows (objs : list CsvRow) :
  Forall (fun r => map fst r = strict_columns) objs ->
  fold_left (fun set r => fold_left set_add (map fst r) set) objs strict_columns
  = strict_columns.
Proof.
  induction 1 as [|r objs Hr _ IH]; simpl; [reflexivity|].
  rewrite Hr. exact IH.
Qed.

Lemma header_of_strict_rows (numberToString : number -> string) :
  map (fun c => escapeCsvCell numberToString (VStr c)) strict_columns = strict_columns.
Proof. reflexivity. Qed.

Lemma cells_of_strict_row (numberToString : number -> string) (o : CanonicalRow) :
  join "," (map (fun c => escapeCsvCell numberToString (get (VObj (row_object o)) c))
                strict_columns)
  = line_of numberToString o.
Proof. reflexivity. Qed.

Lemma toCsv_strict (numberToString : number -> string) (o : CanonicalRow)
      (out : list CanonicalRow) :
  toCsv numberToString (map row_object (o :: out)) None
  = (byte_order_mark
     ++ join (String line_feed EmptyString)
          (join "," strict_columns :: map (line_of numberToString) (o :: out)))%string.
Proof.
  unfold toCsv. cbn [map]. cbv zeta.
  assert (Hcols : fold_left (fun set r => fold_left set_add (map fst r) set)
                    (row_object o :: map row_object out) [] = strict_columns).
  { cbn [fold_left]. rewrite row_object_keys.
    change (fold_left set_add strict_columns []) with strict_columns.
    apply columns_of_strict_rows. apply Forall_forall. intros r Hr.
    apply in_map_iff in Hr. destruct Hr as [x [<- _]]. apply row_object_keys. }
  rewrite Hcols, header_of_strict_rows. f_equal. f_equal. f_equal.
  change (join "," (map (fun c => escapeCsvCell numberToString (get (VObj (row_object o)) c))
                        strict_columns)
          :: map (fun r => join "," (map (fun c => escapeCsvCell numberToString (get (VObj r) c))
                                         strict_columns)) (map row_object out))
    with (map (fun r => join "," (map (fun c => escapeCsvCell numberToString (get (VObj r) c))
                                      strict_columns)) (map row_object (o :: out))).
  rewrite map_map.
  change (line_of numberToString o :: map (line_of numberToString) out)
    with (map (line_of numberToString) (o :: out)).
  apply map_ext. intros x. apply cells_of_strict_row.
Qed.

(** X16.  The file that the application downloads for at least one
    finished row starts with the byte order mark and the same header of
    thirty-five columns whatever the data, and goes on with one line for
    each row returned by [buildDownloadCsvRowsStrict], in their order, each
    line holding the thirty-five cells of its row. *)
Theorem download_has_fixed_columns
  (numberToString : number -> string) (localeCompare : string -> string -> Z)
  (first : CsvInputRow) (others : list CsvInputRow) (csvByUser : Store) :
  download numberToString localeCompare (first :: others) csvByUser
  = (byte_order_mark
     ++ join (String line_feed EmptyString)
          (join "," strict_columns
           :: map (line_of numberToString)
                (fst (buildDownloadCsvRowsStrict numberToString localeCompare
                        (first :: others) csvByUser))))%string
  /\ List.length strict_columns = 35%nat
  /\ NoDup strict_columns.
Proof.
  split; [|split].
  - unfold download.
    destruct (fst (buildDownloadCsvRowsStrict numberToString localeCompare
                     (first :: others) csvByUser)) as [|o out] eqn:E.
    + exfalso. apply (f_equal (@List.length _)) in E. revert E.
      rewrite buildDownloadCsvRowsStrict_sorted_map.
      rewrite (Permutation_length (sort_perm _ _)).
      destruct (mapRows_view numberToString (first :: others) csvByUser csvByUser
                  (store_view_refl csvByUser)) as [H _].
      rewrite H, length_map. discriminate.
    + apply toCsv_strict.
  - reflexivity.
  - repeat (constructor; [simpl; intuition discriminate|]). constructor.
Qed.

(* ================================================================== *)
(** ** The colour of a score *)

Lemma first_band_in (s : number) (table : list (number * string)) :
  In (first_band s table) (map snd table ++ ["bg-slate-400"]).
Proof.
  induction table as [|[max color] rest IH]; simpl; [now left|].
  destruct (nleb s max); [now left | now right].
Qed.

Lemma bands_are_intervals (table : list (number * string)) :
  NoDup (map snd table ++ ["bg-slate-400"]) ->
  forall s1 s s2, nleb s1 s = true -> nleb s s2 = true ->
  first_band s1 table = first_band s2 table ->
  first_band s table = first_band s1 table.
Proof.
  induction table as [|[max color] rest IH]; intros Hnd s1 s s2 H1 H2; simpl; [reflexivity|].
  simpl in Hnd. inversion Hnd as [|? ? Hnotin Hnd']; subst.
  destruct (nleb s2 max) eqn:E2.
  - rewrite (nleb_trans s s2 max H2 E2).
    now rewrite (nleb_trans s1 s max H1 (nleb_trans s s2 max H2 E2)).
  - destruct (nleb s1 max) eqn:E1.
    + intros ->. exfalso. apply Hnotin, first_band_in.
    + destruct (nleb s max) eqn:E.
      * rewrite (nleb_trans s1 s max H1 E) in E1. discriminate.
      * now apply IH.
Qed.

(** X17.  The colours of [severityColor] are intervals of the score: a
    score between two scores of one colour has that colour. *)
Theorem severity_bands_are_intervals (s1 s s2 : number) :
  nleb s1 s = true -> nleb s s2 = true ->
  severityColor (Some s1) = severityColor (Some s2) ->
  severityColor (Some s) = severityColor (Some s1).
Proof.
  unfold severityColor. apply bands_are_intervals.
  simpl. repeat (constructor; [simpl; intuition discriminate|]). constructor.
Qed.

Lemma severity_bands_are_intervals_witness :
  severityColor (Some (Fin (Q2Qc (13 # 10)))) = "bg-yellow-400".
Proof.
  transitivity (severityColor (Some (Fin (Q2Qc (11 # 10))))); [|reflexivity].
  apply (severity_bands_are_intervals
           (Fin (Q2Qc (11 # 10))) (Fin (Q2Qc (13 # 10))) (Fin (Q2Qc (3 # 2))));
    reflexivity.
Defined.

(** X18.  Every score has one of the seven colours of the table, but for
    the score that is not a number, the only one to get the fallback
    colour; a score left out is coloured as zero is. *)
Theorem only_NaN_is_uncoloured (score : option number) :
  (severityColor score = "bg-slate-400" <-> score = Some NaN)
  /\ (score = Some NaN \/ In (severityColor score) (map snd SUSPICION_THRESHOLDS))
  /\ severityColor None = severityColor (Some (Fin 0)).
Proof.
  assert (Hin : score <> Some NaN -> In (severityColor score) (map snd SUSPICION_THRESHOLDS)).
  { destruct score as [[| | |q]|]; intros Hn.
    - congruence.
    - vm_compute. tauto.
    - vm_compute. tauto.
    - unfold severityColor, SUSPICION_THRESHOLDS, first_band.
      repeat match goal with
             | |- context [nleb ?a ?b] => destruct (nleb a b) eqn:?; [simpl; tauto|]
             end.
      discriminate.
    - vm_compute. tauto. }
  split; [|split].
  - split.
    + intros H. destruct score as [[| | |q]|]; try reflexivity;
        (assert (Hc : In "bg-slate-400" (map snd SUSPICION_THRESHOLDS));
         [rewrite <- H; apply Hin; discriminate
         | simpl in Hc; intuition discriminate]).
    + intros ->. reflexivity.
  - destruct score as [[| | |q]|]; [now left | right; apply Hin; discriminate ..].
  - reflexivity.
Qed.


(* ================================================================== *)
(** ** The names of a bulk scan *)

Lemma set_add_in (set : list string) (k x : string) :
  In x (set_add set k) <-> In x set \/ x = k.
Proof.
  unfold set_add. destruct (mem k set) eqn:E.
  - apply mem_true in E. split; [tauto|]. intros [H | ->]; assumption.
  - rewrite in_app_iff. simpl. split; intros [H | H]; try tauto.
    + destruct H as [<- | []]. now right.
    + subst. right. now left.
Qed.

Lemma set_add_NoDup (set : list string) (k : string) :
  NoDup set -> NoDup (set_add set k).
Proof.
  unfold set_add. destruct (mem k set) eqn:E; [trivial|].
  intros H. apply mem_false in E.
  apply NoDup_app; [assumption | repeat constructor; now intros [] |].
  intros x Hx [<- | []]. contradiction.
Qed.

Lemma from_set_NoDup (l : list string) :
  forall set, NoDup set -> NoDup (fold_left set_add l set).
Proof.
  induction l as [|k l IH]; intros set H; simpl; [assumption|].
  now apply IH, set_add_NoDup.
Qed.

Lemma from_set_in (l : list string) (x : string) :
  forall set, In x (fold_left set_add l set) <-> In x set \/ In x l.
Proof.
  induction l as [|k l IH]; intros set; simpl; [tauto|].
  rewrite IH, set_add_in. intuition.
Qed.

Lemma strip_start_without (p : ascii -> bool) (s : string) :
  (forall c, p c = true -> has_char c s = false) -> strip_start p s = s.
Proof.
  intros H. apply strip_start_fixed. destruct s as [|c s]; [exact I|].
  destruct (p c) eqn:E; [|reflexivity].
  specialize (H c E). simpl in H. now rewrite Ascii.eqb_refl in H.
Qed.

Lemma strip_end_without (p : ascii -> bool) (s : string) :
  (forall c, p c = true -> has_char c s = false) -> strip_end p s = s.
Proof.
  induction s as [|c s IH]; intros H; simpl; [reflexivity|].
  assert (Hc : p c = false).
  { destruct (p c) eqn:E; [|reflexivity].
    specialize (H c E). simpl in H. now rewrite Ascii.eqb_refl in H. }
  rewrite Hc. simpl. f_equal. apply IH.
  intros d Hd. specialize (H d Hd). simpl in H. now apply orb_false_elim in H.
Qed.

(** X19.  The names that [uniqUsernames] makes of the bulk input are all
    different, non-empty, without white space, comma or semicolon, and
    without quotes at their ends; and the call to [trim] in it never
    changes anything, since no piece of the split holds white space. *)
Theorem bulk_names_are_clean (input : string) :
  NoDup (uniqUsernames input)
  /\ Forall clean_name (uniqUsernames input)
  /\ uniqUsernames input
     = fold_left set_add
         (filter nonempty (map strip_quotes (split_on_runs space_comma_semicolon input)))
         [].
Proof.
  assert (Hpiece : forall x c,
            In x (split_on_runs space_comma_semicolon input) ->
            space_comma_semicolon c = true -> has_char c x = false).
  { intros x c Hx Hc.
    exact (split_runs_pieces space_comma_semicolon c input Hc EmptyString false x eq_refl Hx). }
  assert (Htrim : forall x, In x (split_on_runs space_comma_semicolon input) -> trim x = x).
  { intros x Hx. unfold trim.
    assert (Hs : forall c, is_space c = true -> has_char c x = false).
    { intros c Hc. apply (Hpiece x c Hx). unfold space_comma_semicolon. now rewrite Hc. }
    now rewrite (strip_start_without is_space x Hs), (strip_end_without is_space x Hs). }
  split; [|split].
  - apply from_set_NoDup. constructor.
  - apply Forall_forall. intros u Hu. apply from_set_in in Hu.
    destruct Hu as [[] | Hu]. apply filter_In in Hu. destruct Hu as [Hin Hne].
    apply nonempty_true in Hne. apply in_map_iff in Hin. destruct Hin as [x [<- Hx]].
    split; [assumption|]. split.
    + intros c Hc. rewrite (Htrim x Hx).
      apply has_char_strip_end, has_char_strip_start. now apply Hpiece.
    + apply strip_both_idem.
  - unfold uniqUsernames. f_equal. f_equal. apply map_ext_in.
    intros x Hx. now rewrite (Htrim x Hx).
Qed.
